(** * LinkCategorizer: a shallow embedding of [link_categorizer.py]

    The development follows the Python module function by function.
    Part I holds the embedding (data model, oracles, operations), Part II
    the lemmas and the theorems about it.

    Conventions.
    - A Python [str] is a [string]; [len] is [String.length].
    - A Python [float] is a primitive binary64 [float].
    - A Python [dict] is an insertion-ordered association list with
      first-match lookup and in-place update ([Dict]); iteration order is
      list order.
    - Library calls the module does not implement ([fuzz.ratio], [requests],
      [readability], [BeautifulSoup], [KeyBERT], [json]) are oracles,
      collected in type classes. *)

From Stdlib Require Import ZArith Ascii String Floats.PrimFloat.
From stdpp Require Import base list strings sorting pretty.

Set Warnings "-register-all".

(* ===================================================================== *)
(** * Part I: the embedding                                                *)
(* ===================================================================== *)

(** ** Python dictionaries *)

Module Dict.
Section ops.
Context {V : Type}.

Definition t : Type := list (string * V).

(** [d[k]], [None] standing for [KeyError]. *)
Fixpoint get (d : t) (k : string) : option V :=
  match d with
  | [] => None
  | (k', v) :: r => if decide (k = k') then Some v else get r k
  end.

(** [k in d] *)
Definition mem (d : t) (k : string) : bool :=
  match get d k with Some _ => true | None => false end.

(** [d[k] = v]: an existing key keeps its position, a new one goes last. *)
Fixpoint set (d : t) (k : string) (v : V) : t :=
  match d with
  | [] => [(k, v)]
  | (k', v') :: r =>
      if decide (k = k') then (k', v) :: r else (k', v') :: set r k v
  end.

(** [d.keys()] in iteration order. *)
Definition keys (d : t) : list string := d.*1.

(** [d.update(kvs)] *)
Definition update (d : t) (kvs : list (string * V)) : t :=
  foldl (λ acc kv, set acc kv.1 kv.2) d kvs.

(** Python's [==] on dictionaries ignores insertion order. *)
Definition equiv (d1 d2 : t) : Prop := ∀ k, get d1 k = get d2 k.
End ops.
Arguments t : clear implicits.
End Dict.

(** ** Keywords *)

(** [Keyword = Tuple[str, float]], [Keywords = List[Keyword]]. *)
Abbreviation Keyword := (string * float)%type.
Abbreviation Keywords := (list Keyword).

(** A keyword slot: a link and a position in that link's list. *)
Abbreviation Slot := (string * nat)%type.

(** [fuzz.ratio], the similarity oracle (an integer between 0 and 100). *)
Class Similarity := fuzz_ratio : string → string → Z.

(** ** [simplify_keywords]: the merge pass (lines 161-175) *)

Section merge.
Context `{!Similarity}.

Definition THRESHOLD : Z := 88.

(** The list object [keywords[link]]; a missing link has no positions. *)
Definition kwds_of (d : Dict.t Keywords) (link : string) : Keywords :=
  default [] (Dict.get d link).

(** [keywords[link][i]] *)
Definition slot_get (d : Dict.t Keywords) (link : string) (i : nat)
  : option Keyword :=
  kwds_of d link !! i.

(** [keywords[link][i] = x].  The pass only writes slots it has just
    read, so [KeyError] and [IndexError] do not arise; outside that range
    the model leaves the dictionary alone. *)
Definition slot_set (d : Dict.t Keywords) (link : string) (i : nat)
    (x : Keyword) : Dict.t Keywords :=
  match Dict.get d link with
  | Some ks => Dict.set d link (<[i := x]> ks)
  | None => d
  end.

(** Lines 171-172: after the conditional swap [kw1] is the shorter string,
    the first one on equal lengths. *)
Definition shorter (kw1 kw2 : string) : string :=
  if bool_decide (String.length kw2 < String.length kw1) then kw2 else kw1.

(** Lines 166-175, the body of the innermost loop.  The state is the
    dictionary together with the local variable [kw1], which the swap on
    line 172 may rebind and which survives into the next iterations. *)
Definition compare_slots (link1 : string) (i : nat) (str1 : float)
    (link2 : string) (j : nat) (kw2 : string) (str2 : float)
    (s : Dict.t Keywords * string) : Dict.t Keywords * string :=
  let '(d, kw1) := s in
  if bool_decide (link1 = link2 ∧ i = j) then s
  else if bool_decide (THRESHOLD < fuzz_ratio kw1 kw2)%Z then
    let kw1' := shorter kw1 kw2 in
    (slot_set (slot_set d link1 i (kw1', str1)) link2 j (kw1', str2), kw1')
  else s.

(** Line 165: [enumerate(kwds2)] walks the live list of [link2]. *)
Definition scan_list (link1 : string) (i : nat) (str1 : float)
    (link2 : string) (s : Dict.t Keywords * string)
  : Dict.t Keywords * string :=
  foldl (λ s j,
           match slot_get s.1 link2 j with
           | Some (kw2, str2) => compare_slots link1 i str1 link2 j kw2 str2 s
           | None => s
           end)
        s (seq 0 (length (kwds_of s.1 link2))).

(** Line 164: [keywords.items()], second traversal. *)
Definition scan_corpus (link1 : string) (i : nat) (str1 : float)
    (s : Dict.t Keywords * string) : Dict.t Keywords * string :=
  foldl (λ s link2, scan_list link1 i str1 link2 s) s (Dict.keys s.1).

(** Line 163, one iteration: bind [(kw1, str1)] from the live list, then
    run the two inner loops. *)
Definition merge_slot (link1 : string) (i : nat) (d : Dict.t Keywords)
  : Dict.t Keywords :=
  match slot_get d link1 i with
  | Some (kw1, str1) => (scan_corpus link1 i str1 (d, kw1)).1
  | None => d
  end.

(** Line 163: [enumerate(kwds)]. *)
Definition merge_list (link1 : string) (d : Dict.t Keywords)
  : Dict.t Keywords :=
  foldl (λ d i, merge_slot link1 i d) d (seq 0 (length (kwds_of d link1))).

(** Line 162: [keywords.items()], first traversal. *)
Definition merge_pass (d : Dict.t Keywords) : Dict.t Keywords :=
  foldl (λ d link1, merge_list link1 d) d (Dict.keys d).

(** One iteration of the innermost loop, addressed by slot. *)
Definition scan_step (link1 : string) (i : nat) (str1 : float)
    (s : Dict.t Keywords * string) (p : Slot) : Dict.t Keywords * string :=
  match slot_get s.1 p.1 p.2 with
  | Some (kw2, str2) => compare_slots link1 i str1 p.1 p.2 kw2 str2 s
  | None => s
  end.

(** The ranges of the loops: the positions of one link's list, and the
    slots of the corpus as the loops over [keywords.items()] and
    [enumerate] find them. *)
Definition positions (d : Dict.t Keywords) (link : string) : list Slot :=
  (λ i, (link, i)) <$> seq 0 (length (kwds_of d link)).

Definition slots_live (d : Dict.t Keywords) : list Slot :=
  Dict.keys d ≫= positions d.

(** *** The pass as the claim describes it

    One comparison of an ordered pair of slots, both strings read from
    the dictionary as it is when the comparison happens. *)
Definition merge_step (d : Dict.t Keywords) (p : Slot * Slot)
  : Dict.t Keywords :=
  let '((link1, i), (link2, j)) := p in
  if bool_decide (link1 = link2 ∧ i = j) then d
  else
    match slot_get d link1 i, slot_get d link2 j with
    | Some (kw1, str1), Some (kw2, str2) =>
        if bool_decide (THRESHOLD < fuzz_ratio kw1 kw2)%Z then
          slot_set (slot_set d link1 i (shorter kw1 kw2, str1))
                   link2 j (shorter kw1 kw2, str2)
        else d
    | _, _ => d
    end.

(** [kw] is the string of some slot of [d]. *)
Definition holds (d : Dict.t Keywords) (kw : string) : Prop :=
  ∃ l i sc, slot_get d l i = Some (kw, sc).

(** No keyword of the corpus can take the place of ["ERROR"] in a
    comparison: a string other than ["ERROR"] whose ratio with it exceeds
    the threshold is longer than 5 characters where ties go to it (as the
    first string), and not shorter than 5 where they do not. *)
Definition sentinel_safe (d : Dict.t Keywords) : Prop :=
  ∀ kw, holds d kw → kw ≠ "ERROR" →
    ((THRESHOLD < fuzz_ratio "ERROR" kw)%Z → 5 ≤ String.length kw) ∧
    ((THRESHOLD < fuzz_ratio kw "ERROR")%Z → 5 < String.length kw).

(** All slots of the corpus, links in dictionary order, positions
    ascending. *)
Definition slots (d : Dict.t Keywords) : list Slot :=
  kv ← d; (λ i, (kv.1, i)) <$> seq 0 (length kv.2).

(** All ordered pairs of slots, in the order the four loops visit them. *)
Definition ordered_pairs (d : Dict.t Keywords) : list (Slot * Slot) :=
  s1 ← slots d; (λ s2, (s1, s2)) <$> slots d.
End merge.

(** ** [simplify_keywords]: the reduction (lines 177-182) *)

(** [ys] is a possible value of [list(set(xs))]: the distinct elements of
    [xs], each once, in an order Python leaves open. *)
Definition list_of_set (xs ys : list string) : Prop :=
  NoDup ys ∧ ∀ x, x ∈ ys ↔ x ∈ xs.

(** Line 180 for one link: [list(set([x[0] for x in kwds]))]. *)
Definition reduced (kwds : Keywords) (ys : list string) : Prop :=
  list_of_set (kwds.*1) ys.

(** [out] is a possible value of [keywords_no_strength] for the (merged)
    dictionary [d]: the same links in the same order, each with a
    listing of its distinct keyword strings. *)
Definition reduction (d : Dict.t Keywords) (out : Dict.t (list string))
  : Prop :=
  Forall2 (λ kv kv', kv.1 = kv'.1 ∧ reduced kv.2 kv'.2) d out.

(** The order in which [list(set(xs))] lists the elements is a function
    of the interpreter (hashing), taken as an oracle; [set_order_ok] is
    what Python promises about it. *)
Class SetOrder := list_set : list string → list string.

Definition set_order_ok `{!SetOrder} : Prop :=
  ∀ xs, list_of_set xs (list_set xs).

(** Lines 177-180 as a function. *)
Definition reduce `{!SetOrder} (d : Dict.t Keywords) : Dict.t (list string) :=
  (λ kv, (kv.1, list_set (kv.2.*1))) <$> d.

Section simplify.
Context `{!Similarity, !SetOrder}.

(** [simplify_keywords] takes the dictionary by reference: a call leaves
    the argument in the state [mutated] and returns [returned]. *)
Record simplified := {
  mutated : Dict.t Keywords;
  returned : Dict.t (list string)
}.

Definition simplify_keywords_spec (keywords : Dict.t Keywords)
    (r : simplified) : Prop :=
  mutated r = merge_pass keywords ∧ reduction (mutated r) (returned r).

Definition simplify_keywords (keywords : Dict.t Keywords) : simplified :=
  let d := merge_pass keywords in
  {| mutated := d; returned := reduce d |}.
End simplify.

(** ** Exceptions *)

(** The outcome of a call that may raise; [e] names the exception. *)
Inductive result (A : Type) : Type :=
| Ok (a : A)
| Raise (e : string).
Arguments Ok {A} a.
Arguments Raise {A} e.

Global Instance result_ret : MRet result := λ A, Ok.
Global Instance result_bind : MBind result := λ A B f r,
  match r with Ok a => f a | Raise e => Raise e end.

(** ** [get_content] (lines 70-85) *)

Record response := { status_code : nat; content : string }.

(** [requests], [readability] and [BeautifulSoup]. *)
Class Web := {
  (** [requests.get(link, headers=header)] *)
  requests_get : string → list (string * string) → result response;
  (** [response.raise_for_status()] *)
  raise_for_status : response → result ();
  (** [Document(content).summary()] *)
  summary : string → result string;
  (** [Document(content).title()] *)
  title : string → string;
  (** [BeautifulSoup(html, features='html.parser').get_text()] *)
  get_text : string → string
}.

Definition USER_AGENT : string :=
  "Mozilla/5.0 (X11; Linux x86_64) AppleWebKit/537.36 (KHTML, like Gecko) Chrome/85.0.4183.121 Safari/537.36".

Definition get_content `{!Web} (link : string) : result string :=
  let header := [("User-Agent", USER_AGENT)] in
  response ← requests_get link header;
  _ ← raise_for_status response;
  html ← summary (content response);
  let text := get_text html in
  if bool_decide (String.length text < 500)
  then Ok (title (content response))
  else Ok text.

(** ** [get_keywords] (lines 102-105) *)

(** [KeyBERT().extract_keywords(content, top_n=n)] *)
Class Extractor := extract_keywords : string → nat → result Keywords.

Definition get_keywords `{!Extractor} (content : string) : result Keywords :=
  extract_keywords content 5.

(** ** The cache store (lines 24-67) *)

(** JSON documents, and the [json] module as an oracle on their text:
    [json_dumps] is [json.dumps(_, indent=4)] on a document whose keys
    are already in order, [json_loads] is [json.loads]. *)
Inductive json : Type :=
| JNull
| JBool (b : bool)
| JNumber (x : float)
| JString (s : string)
| JArray (xs : list json)
| JObject (kvs : list (string * json)).

Class Json := {
  json_dumps : json → string;
  json_loads : string → option json
}.

(** How a cached value is written as JSON and read back. *)
Class Jsonable (V : Type) := {
  to_json : V → json;
  of_json : json → option V
}.

Global Instance string_jsonable : Jsonable string := {|
  to_json := JString;
  of_json j := match j with JString s => Some s | _ => None end
|}.

Definition keyword_to_json (kw : Keyword) : json :=
  JArray [JString kw.1; JNumber kw.2].

Definition keyword_of_json (j : json) : option Keyword :=
  match j with
  | JArray [JString kw; JNumber sc] => Some (kw, sc)
  | _ => None
  end.

Global Instance keywords_jsonable : Jsonable Keywords := {|
  to_json kws := JArray (keyword_to_json <$> kws);
  of_json j := match j with
               | JArray xs => mapM keyword_of_json xs
               | _ => None
               end
|}.

Global Instance strings_jsonable : Jsonable (list string) := {|
  to_json xs := JArray (JString <$> xs);
  of_json j := match j with
               | JArray xs =>
                   mapM (λ x, match x with JString s => Some s | _ => None end) xs
               | _ => None
               end
|}.

(** [sort_keys=True]: members in ascending key order. *)
Definition key_le {A} : relation (string * A) :=
  λ kv1 kv2, String.leb kv1.1 kv2.1.

Definition sort_keys {A} (kvs : list (string * A)) : list (string * A) :=
  merge_sort key_le kvs.

Section cache_store.
Context `{!Json} {V : Type} `{!Jsonable V}.

(** The document [json.dumps(cache, sort_keys=True)] prints: the items
    are sorted, then each value is encoded. *)
Definition encode_dict (cache : Dict.t V) : json :=
  JObject ((λ kv, (kv.1, to_json kv.2)) <$> sort_keys cache).

(** The items of a loaded mapping as items of [Dict[str, V]], the type
    lines 24 and 47 declare: every key a string, every value of the
    cached type. *)
Definition typed_items (items : list (option string * json))
  : option (list (string * V)) :=
  mapM (λ kv, k ← kv.1; v ← of_json kv.2; Some (k, v)) items.
End cache_store.

(** [d.update(x)] (lines 31 and 54) for one element [x] of a sequence: the
    key and the value it stores, the key [None] when it is not a string.
    An element has to be a sequence of two: a list of two, a string of
    two characters, or a dictionary of two keys (which gives its keys). *)
Definition update_item (x : json) : result (option string * json) :=
  match x with
  | JArray [k; v] =>
      match k with
      | JString s => Ok (Some s, v)
      | JNull | JBool _ | JNumber _ => Ok (None, v)
      | JArray _ | JObject _ => Raise "TypeError"
      end
  | JArray _ => Raise "ValueError"
  | JString (String a (String b EmptyString)) =>
      Ok (Some (String a ""), JString (String b ""))
  | JString _ => Raise "ValueError"
  | JObject kvs =>
      match Dict.keys (Dict.update [] kvs) with
      | [k1; k2] => Ok (Some k1, JString k2)
      | _ => Raise "ValueError"
      end
  | JNull | JBool _ | JNumber _ => Raise "TypeError"
  end.

(** [d.update(x)] for the parsed document [x]: the items it stores, in
    order, or the exception of the first element it cannot take. *)
Definition update_items (x : json) : result (list (option string * json)) :=
  match x with
  | JObject kvs => Ok ((λ kv, (Some kv.1, kv.2)) <$> kvs)
  | JArray xs => mapM update_item xs
  | JString EmptyString => Ok []
  | JString _ => Raise "ValueError"
  | JNull | JBool _ | JNumber _ => Raise "TypeError"
  end.

(** Where a loaded mapping has a key that is not a string or a value
    that is not of the cached type, the code goes on with it: lines 31
    and 54 do not look at the items.  A mapping of the declared type
    cannot hold it, and the typed model ends there, with this label in
    the place of an exception; it is no exception of the code. *)
Definition UNTYPED : string := "not of the declared type".

(** The files of the working directory: path to text. *)
Abbreviation filesystem := (Dict.t string).

(** What the dispatcher holds after loading a cache: the plain [{}] of
    lines 26 and 49 when there is no file, else a [manager.dict()] proxy.
    A plain dictionary handed to [apply_async] is pickled, so each task works
    on a copy of its own; a proxy reaches the one dictionary in the manager
    process. *)
Inductive mapping (V : Type) : Type :=
| PlainDict (d : Dict.t V)
| ManagerDict (d : Dict.t V).
Arguments PlainDict {V} d.
Arguments ManagerDict {V} d.

(** Whether a mapping is the proxy of a manager dictionary. *)
Definition is_proxy {V} (m : mapping V) : bool :=
  match m with ManagerDict _ => true | PlainDict _ => false end.

(** [dict(m)] *)
Definition dict_of {V} (m : mapping V) : Dict.t V :=
  match m with PlainDict d | ManagerDict d => d end.

Section cache_files.
Context `{!Json}.

(** Lines 24-32 and 47-55: the plain [{}] when there is no file; else
    [json.loads] of its text, which raises [JSONDecodeError] on text that
    is not JSON, and [d.update] of the parsed document on a new proxy. *)
Definition load_cache {V} `{!Jsonable V} (path : string) (fs : filesystem)
  : result (mapping V) :=
  match Dict.get fs path with
  | None => Ok (PlainDict [])
  | Some text =>
      match json_loads text with
      | None => Raise "JSONDecodeError"
      | Some x =>
          items ← update_items x;
          match typed_items items with
          | Some kvs => Ok (ManagerDict (Dict.update [] kvs))
          | None => Raise UNTYPED
          end
      end
  end.

(** Lines 35-41 and 58-64.  The lock orders concurrent writers; the
    dispatcher is the only caller, so the write is all that remains. *)
Definition update_cache {V} `{!Jsonable V} (path : string) (cache : Dict.t V)
    (fs : filesystem) : filesystem :=
  Dict.set fs path (json_dumps (encode_dict cache)).

Definition load_content_cache : filesystem → result (mapping string) :=
  load_cache "content_cache.txt".

Definition update_content_cache : Dict.t string → filesystem → filesystem :=
  update_cache "content_cache.txt".

Definition load_keywords_cache : filesystem → result (mapping Keywords) :=
  load_cache "keywords_cache.txt".

Definition update_keywords_cache
  : Dict.t Keywords → filesystem → filesystem :=
  update_cache "keywords_cache.txt".
End cache_files.

(** ** [process_link] (lines 108-114)

    A task runs in a worker process, next to the other tasks and to the
    dispatcher, and meets them only at the operations on the two mappings.
    Its steps are cut at those operations. *)

Inductive pc : Type :=
| AtContentCheck            (* line 110: [link not in contents] *)
| AtFetch                   (* line 111: [contents[link] = get_content(link)] *)
| AtKeywordCheck            (* line 113: [link not in keywords] *)
| AtExtract                 (* line 114: [get_keywords(contents[link])] *)
| AtStore (kws : Keywords)  (* line 114: [keywords[link] = ...] *)
| Returned                  (* the task ended, [res.successful()] *)
| Raised (e : string).      (* the task ended with exception [e] *)

(** A task: its argument [link], where it stands, and its own copies of
    the mappings, which it uses in place of a mapping that is a plain
    dictionary. *)
Record task := {
  t_link : string;
  t_pc : pc;
  t_contents : Dict.t string;
  t_keywords : Dict.t Keywords
}.

(** The two mappings of the dispatcher. *)
Record caches := {
  contents : mapping string;
  keywords : mapping Keywords
}.

(** Calls of the extractors, for counting them. *)
Inductive event : Type :=
| Fetch (link : string)
| Extract (link : string).

(** The dictionary a task reads through its argument. *)
Definition view {V} (m : mapping V) (own : Dict.t V) : Dict.t V :=
  match m with ManagerDict d => d | PlainDict _ => own end.

(** [m[k] = v] by a task: on the proxy it reaches the shared dictionary, on
    a plain dictionary the task's copy. *)
Definition store {V} (m : mapping V) (own : Dict.t V) (k : string) (v : V)
  : mapping V * Dict.t V :=
  match m with
  | ManagerDict d => (ManagerDict (Dict.set d k v), own)
  | PlainDict d => (PlainDict d, Dict.set own k v)
  end.

Definition at_pc (t : task) (p : pc) : task :=
  {| t_link := t_link t; t_pc := p;
     t_contents := t_contents t; t_keywords := t_keywords t |}.

Section process_link.
Context `{!Web, !Extractor}.

(** One step of [process_link(link, contents, keywords)]. *)
Definition process_link (sh : caches) (t : task)
  : caches * task * list event :=
  let link := t_link t in
  match t_pc t with
  | AtContentCheck =>
      if Dict.mem (view (contents sh) (t_contents t)) link
      then (sh, at_pc t AtKeywordCheck, [])
      else (sh, at_pc t AtFetch, [])
  | AtFetch =>
      match get_content link with
      | Ok text =>
          let '(m, own) := store (contents sh) (t_contents t) link text in
          ({| contents := m; keywords := keywords sh |},
           {| t_link := link; t_pc := AtKeywordCheck;
              t_contents := own; t_keywords := t_keywords t |},
           [Fetch link])
      | Raise e => (sh, at_pc t (Raised e), [Fetch link])
      end
  | AtKeywordCheck =>
      if Dict.mem (view (keywords sh) (t_keywords t)) link
      then (sh, at_pc t Returned, [])
      else (sh, at_pc t AtExtract, [])
  | AtExtract =>
      match Dict.get (view (contents sh) (t_contents t)) link with
      | Some text =>
          match get_keywords text with
          | Ok kws => (sh, at_pc t (AtStore kws), [Extract link])
          | Raise e => (sh, at_pc t (Raised e), [Extract link])
          end
      | None => (sh, at_pc t (Raised "KeyError"), [])
      end
  | AtStore kws =>
      let '(m, own) := store (keywords sh) (t_keywords t) link kws in
      ({| contents := contents sh; keywords := m |},
       {| t_link := link; t_pc := Returned;
          t_contents := t_contents t; t_keywords := own |},
       [])
  | Returned | Raised _ => (sh, t, [])
  end.
End process_link.

(** ** [process_links] (lines 117-157) *)

(** [res.ready()] and [res.successful()] *)
Definition ready (t : task) : bool :=
  match t_pc t with Returned | Raised _ => true | _ => false end.

Definition successful (t : task) : bool :=
  match t_pc t with Returned => true | _ => false end.

(** The sentinel of line 148. *)
Definition ERROR : Keywords := [("ERROR", 0%float)].

(** [m[k] = v] by the dispatcher, on its own object. *)
Definition put {V} (m : mapping V) (k : string) (v : V) : mapping V :=
  match m with
  | ManagerDict d => ManagerDict (Dict.set d k v)
  | PlainDict d => PlainDict (Dict.set d k v)
  end.

(** Where the dispatcher stands: before the test of line 134, between
    the loop of lines 141-148 and the filter of line 150, or returned. *)
Inductive control_point : Type :=
| AtWhile
| AtFilter
| Finished (ret : Dict.t Keywords).

(** The state of a run.  [results] pairs the index of a task in [tasks]
    with its link. *)
Record pool := {
  shared : caches;
  tasks : list task;
  results : list (nat * string);
  control : control_point;
  disk : filesystem;
  log : list event
}.

(** Who moves next: the worker that runs task [k], or the dispatcher.
    Every interleaving is a schedule; [Pool(12)] allows only some of
    them. *)
Inductive action : Type :=
| Worker (k : nat)
| Dispatcher.

Section process_links.
Context `{!Web, !Extractor, !Json}.

(** Lines 122-124. *)
Definition update_caches (sh : caches) (fs : filesystem) : filesystem :=
  update_keywords_cache (dict_of (keywords sh))
    (update_content_cache (dict_of (contents sh)) fs).

(** Lines 142-148 for one pair [(res, link)]: [res.get()] re-raises the
    exception of a failed task into the [try], and the handler stores the
    sentinels. *)
Definition poll_result (ts : list task) (sh : caches) (r : nat * string)
  : caches :=
  match t_pc <$> ts !! r.1 with
  | Some (Raised e) =>
      {| contents := put (contents sh) r.2 "";
         keywords := put (keywords sh) r.2 ERROR |}
  | _ => sh
  end.

(** Line 150. *)
Definition pending (ts : list task) (r : nat * string) : bool :=
  match ts !! r.1 with Some t => negb (ready t) | None => false end.

Definition worker_step (k : nat) (st : pool) : pool :=
  match tasks st !! k with
  | Some t =>
      let '(sh, t', evs) := process_link (shared st) t in
      {| shared := sh; tasks := <[k := t']> (tasks st);
         results := results st; control := control st;
         disk := disk st; log := log st ++ evs |}
  | None => st
  end.

Definition dispatcher_step (st : pool) : pool :=
  match control st with
  | AtWhile =>
      match results st with
      | [] =>
          (* lines 154-157: [pool.join()], the last flush, the return *)
          {| shared := shared st; tasks := tasks st; results := [];
             control := Finished (dict_of (keywords (shared st)));
             disk := update_caches (shared st) (disk st); log := log st |}
      | _ =>
          (* lines 135-148: the sleep, the report, the loop over results *)
          {| shared := foldl (poll_result (tasks st)) (shared st) (results st);
             tasks := tasks st; results := results st;
             control := AtFilter; disk := disk st; log := log st |}
      end
  | AtFilter =>
      (* lines 150-152 *)
      {| shared := shared st; tasks := tasks st;
         results := filter (λ r, pending (tasks st) r) (results st);
         control := AtWhile;
         disk := update_caches (shared st) (disk st); log := log st |}
  | Finished _ => st
  end.

Definition step (st : pool) (a : action) : pool :=
  match a with
  | Worker k => worker_step k st
  | Dispatcher => dispatcher_step st
  end.

Definition run (st : pool) (schedule : list action) : pool :=
  foldl step st schedule.

(** Lines 126-130: one task per link; a plain dictionary is copied into
    the task. *)
Definition submit (sh : caches) (link : string) : task :=
  {| t_link := link; t_pc := AtContentCheck;
     t_contents := dict_of (contents sh);
     t_keywords := dict_of (keywords sh) |}.

(** Lines 118-132: the state when the [while] loop is reached, or the
    exception of a cache that cannot be loaded. *)
Definition process_links_start (parsed_links : Dict.t string)
    (fs : filesystem) : result pool :=
  c ← load_content_cache fs;
  k ← load_keywords_cache fs;
  let sh := {| contents := c; keywords := k |} in
  let links := parsed_links.*2 in
  Ok {| shared := sh; tasks := submit sh <$> links;
        results := imap (λ i link, (i, link)) links;
        control := AtWhile; disk := fs; log := [] |}.

(** [process_links(parsed_links)] under a schedule. *)
Definition process_links (parsed_links : Dict.t string) (fs : filesystem)
    (schedule : list action) : result pool :=
  st ← process_links_start parsed_links fs;
  Ok (run st schedule).

(** What the call returned, once the dispatcher has returned. *)
Definition return_value (st : pool) : option (Dict.t Keywords) :=
  match control st with Finished ret => Some ret | _ => None end.

(** A schedule in which no worker moves between the loop of lines 141-148
    and the filter of line 150. *)
Fixpoint atomic_polls (st : pool) (schedule : list action) : Prop :=
  match schedule with
  | [] => True
  | a :: rest =>
      (control st = AtFilter → a = Dispatcher) ∧ atomic_polls (step st a) rest
  end.

(** A schedule that lets every task run to its end and the dispatcher
    poll until it returns. *)
Definition run_to_completion (st : pool) : list action :=
  (k ← seq 0 (length (tasks st)); replicate 5 (Worker k))
  ++ replicate 3 Dispatcher.

(** The same with one more step of the dispatcher, for a start between
    the loop and the filter. *)
Definition finish (st : pool) : list action :=
  (k ← seq 0 (length (tasks st)); replicate 5 (Worker k))
  ++ replicate 4 Dispatcher.
End process_links.

(** Lines 110-114 run without interruption on the dictionaries [c] and
    [k] of two proxies: the dictionaries afterwards, how the call ended,
    and the calls of the extractors. *)
Definition process_link_seq `{!Web, !Extractor} (c : Dict.t string)
    (k : Dict.t Keywords) (link : string)
  : Dict.t string * Dict.t Keywords * result () * list event :=
  let fetched :=
    if Dict.mem c link then (c, Ok (), [])
    else match get_content link with
         | Ok text => (Dict.set c link text, Ok (), [Fetch link])
         | Raise e => (c, Raise e, [Fetch link])
         end in
  match fetched with
  | (c', Raise e, evs) => (c', k, Raise e, evs)
  | (c', Ok _, evs) =>
      if Dict.mem k link then (c', k, Ok (), evs)
      else
        match Dict.get c' link with
        | Some text =>
            match get_keywords text with
            | Ok kws => (c', Dict.set k link kws, Ok (), evs ++ [Extract link])
            | Raise e => (c', k, Raise e, evs ++ [Extract link])
            end
        | None => (c', k, Raise "KeyError", evs)
        end
  end.

(** How a task stands after a call that ended with [r]. *)
Definition pc_of (r : result ()) : pc :=
  match r with Ok _ => Returned | Raise e => Raised e end.

(** [n] steps of one task in a row, the calls added to [evs]. *)
Fixpoint task_steps `{!Web, !Extractor} (n : nat) (sh : caches) (t : task)
    (evs : list event) : caches * task * list event :=
  match n with
  | 0 => (sh, t, evs)
  | S n' =>
      let '(sh', t', evs') := process_link sh t in
      task_steps n' sh' t' (evs ++ evs')
  end.

(** *** Invariants of a run *)

(** The tasks are those of the submitted links, in order, and every pair
    still in [results] names its task. *)
Definition tasks_of (links : list string) (st : pool) : Prop :=
  t_link <$> tasks st = links ∧
  ∀ k l, (k, l) ∈ results st → links !! k = Some l.

(** Every entry of the loaded keyword cache [k0] keeps its link, and an
    entry of a link that was not submitted keeps its value. *)
Definition keeps_cache (links : list string) (k0 : Dict.t Keywords)
    (st : pool) : Prop :=
  (∀ key, key ∈ Dict.keys k0 →
          key ∈ Dict.keys (dict_of (keywords (shared st)))) ∧
  (∀ key, key ∉ links →
          Dict.get (dict_of (keywords (shared st))) key = Dict.get k0 key).

(** Every task still sees the entries of the loaded caches [c0] and [k0];
    a task about to fetch, and a fetch in the log, is for a link without
    an entry in [c0]; likewise for extraction and [k0]. *)
Definition hits_cache (links : list string) (c0 : Dict.t string)
    (k0 : Dict.t Keywords) (st : pool) : Prop :=
  (∀ k t, tasks st !! k = Some t →
     (∀ key, key ∈ Dict.keys c0 →
        key ∈ Dict.keys (view (contents (shared st)) (t_contents t))) ∧
     (∀ key, key ∈ Dict.keys k0 →
        key ∈ Dict.keys (view (keywords (shared st)) (t_keywords t))) ∧
     (t_pc t = AtFetch → t_link t ∉ Dict.keys c0) ∧
     (t_pc t = AtExtract → t_link t ∉ Dict.keys k0)) ∧
  (∀ link, Fetch link ∈ log st → (link ∉ Dict.keys c0) ∧ link ∈ links) ∧
  (∀ link, Extract link ∈ log st → (link ∉ Dict.keys k0) ∧ link ∈ links).

(** Link [l] carries the two sentinels of lines 147-148. *)
Definition sentinel (st : pool) (l : string) : Prop :=
  Dict.get (dict_of (contents (shared st))) l = Some "" ∧
  Dict.get (dict_of (keywords (shared st))) l = Some ERROR.

(** What the polls have settled: a task whose pair has left [results]
    has ended, with its sentinels if it failed; between the loop and the
    filter every failed task has its sentinels; and what the dispatcher
    returned is the keyword mapping, all pairs gone. *)
Definition polls_sound (st : pool) : Prop :=
  (∀ k t, tasks st !! k = Some t → (k, t_link t) ∉ results st →
     ready t = true ∧ ∀ e, t_pc t = Raised e → sentinel st (t_link t)) ∧
  (control st = AtFilter →
     ∀ k t e, tasks st !! k = Some t → t_pc t = Raised e →
       sentinel st (t_link t)) ∧
  (∀ ret, control st = Finished ret →
     results st = [] ∧ ret = dict_of (keywords (shared st))).

(** A task past the first test sees content for its link, and a task that
    returned sees keywords for it. *)
Definition results_present (st : pool) : Prop :=
  ∀ k t, tasks st !! k = Some t →
    (t_pc t = AtKeywordCheck ∨ t_pc t = AtExtract ∨
     (∃ kws, t_pc t = AtStore kws) ∨ t_pc t = Returned →
     t_link t ∈ Dict.keys (view (contents (shared st)) (t_contents t))) ∧
    (t_pc t = Returned →
     t_link t ∈ Dict.keys (view (keywords (shared st)) (t_keywords t))).

(** The steps a task has left at most. *)
Definition remaining (p : pc) : nat :=
  match p with
  | AtContentCheck => 5
  | AtFetch => 4
  | AtKeywordCheck => 3
  | AtExtract => 2
  | AtStore _ => 1
  | Returned | Raised _ => 0
  end.

(** [key] is the link of a failed task among the pairs [rs]. *)
Definition failed_in (ts : list task) (rs : list (nat * string))
    (key : string) : Prop :=
  ∃ k t e, (k, key) ∈ rs ∧ ts !! k = Some t ∧ t_pc t = Raised e.

(** The single-writer discipline as the specification words it: in a
    run, only a step of the dispatcher changes a mapping. *)
Definition dispatcher_only_writer `{!Web, !Extractor, !Json} : Prop :=
  ∀ parsed_links fs schedule st a,
    process_links parsed_links fs schedule = Ok st →
    shared (step st a) ≠ shared st → a = Dispatcher.

(** With a plain keyword dictionary, every entry of the dispatcher's
    mapping is the sentinel of a failed task. *)
Definition only_failures (st : pool) : Prop :=
  is_proxy (keywords (shared st)) = false ∧
  (∀ link kws, Dict.get (dict_of (keywords (shared st))) link = Some kws →
     kws = ERROR ∧
     ∃ k t e, tasks st !! k = Some t ∧ t_link t = link ∧ t_pc t = Raised e) ∧
  (∀ ret, control st = Finished ret → ret = dict_of (keywords (shared st))).

(** What a run leaves on a disk that was [fs0]: a task whose pair has left
    [results] has ended; only the two cache files change; and once the
    dispatcher has returned, they hold the two mappings. *)
Definition flushed `{!Json} (fs0 : filesystem) (st : pool) : Prop :=
  (∀ k t, tasks st !! k = Some t → (k, t_link t) ∉ results st →
     ready t = true) ∧
  (∀ path, path ≠ "content_cache.txt" → path ≠ "keywords_cache.txt" →
     Dict.get (disk st) path = Dict.get fs0 path) ∧
  (∀ ret, control st = Finished ret →
     results st = [] ∧ ret = dict_of (keywords (shared st)) ∧
     Dict.get (disk st) "keywords_cache.txt"
       = Some (json_dumps (encode_dict ret)) ∧
     Dict.get (disk st) "content_cache.txt"
       = Some (json_dumps (encode_dict (dict_of (contents (shared st)))))).


(** ** [group_links_by_domain] (lines 185-191) *)

(** [s] without the prefix [p], if it starts with it. *)
Fixpoint strip_prefix (p s : string) : option string :=
  match p, s with
  | EmptyString, _ => Some s
  | String a p', String b s' =>
      if decide (a = b) then strip_prefix p' s' else None
  | String _ _, EmptyString => None
  end.

(** Character [c] occurs in [s]. *)
Fixpoint occurs (c : ascii) (s : string) : bool :=
  match s with
  | EmptyString => false
  | String a s' => bool_decide (a = c) || occurs c s'
  end.

(** The longest prefix without ["/"]: what [[^/]+] consumes. *)
Fixpoint until_slash (s : string) : string :=
  match s with
  | EmptyString => EmptyString
  | String a s' =>
      if decide (a = "/"%char) then EmptyString else String a (until_slash s')
  end.

(** [re.match(r'https?://([^/]+)', link)], group 1; [None] when there is
    no match. *)
Definition match_domain (link : string) : option string :=
  rest ← strip_prefix "http" link;
  let rest := default rest (strip_prefix "s" rest) in
  rest ← strip_prefix "://" rest;
  let host := until_slash rest in
  if decide (host = "") then None else Some host.

(** [result_domain[domain].append(link)] on a [defaultdict(list)]. *)
Definition append_link (acc : Dict.t (list string)) (domain link : string)
  : Dict.t (list string) :=
  Dict.set acc domain (default [] (Dict.get acc domain) ++ [link]).

(** The loop over [links.values()]; a link without a match raises
    ([None] has no [group]). *)
Fixpoint group_links (links : list string) (acc : Dict.t (list string))
  : result (Dict.t (list string)) :=
  match links with
  | [] => Ok acc
  | link :: rest =>
      match match_domain link with
      | Some domain => group_links rest (append_link acc domain link)
      | None => Raise "AttributeError"
      end
  end.

Definition group_links_by_domain (links : Dict.t string)
  : result (Dict.t (list string)) :=
  group_links (links.*2) [].

(** First-seen order, in the words of the specification: going through
    [xs], an element joins the end of the list when it is seen for the
    first time. *)
Definition first_seen (xs : list string) : list string :=
  foldl (λ seen x, if decide (x ∈ seen) then seen else seen ++ [x]) [] xs.






(** ** [parse_markdown_links] (lines 88-99) *)

(** The line feed, the one character [.] does not match. *)
Definition LF : ascii := ascii_of_nat 10.

(** A greedy group of any characters followed by the rest [k] of the
    pattern: the group takes as many characters other than the line feed
    as it can and gives them back one by one until the rest matches. *)
Fixpoint dot_star {R} (k : string → option R) (s : string)
  : option (string * R) :=
  match s with
  | String a s' =>
      if decide (a = LF) then r ← k s; Some ("", r)
      else
        match dot_star k s' with
        | Some (g, r) => Some (String a g, r)
        | None => r ← k s; Some ("", r)
        end
  | EmptyString => r ← k ""; Some ("", r)
  end.

(** The pattern of line 93 at the start of [s]: an opening bracket, the
    greedy group 1, a closing bracket and an opening parenthesis, the
    greedy group 2, a closing parenthesis.  The result is groups 1 and 2
    and what follows the match. *)
Definition after_link (s : string) : option string := strip_prefix ")" s.

Definition after_text (s : string) : option (string * string) :=
  s' ← strip_prefix "](" s; dot_star after_link s'.

Definition match_link (s : string) : option (string * (string * string)) :=
  s' ← strip_prefix "[" s; dot_star after_text s'.

(** [re.finditer(pattern, content)]: the matches from left to right, the
    search resuming where a match ended.  [fuel] bounds the positions
    tried. *)
Fixpoint finditer (fuel : nat) (s : string) : list (string * string) :=
  match fuel with
  | 0 => []
  | S fuel' =>
      match match_link s with
      | Some (text, (link, rest)) => (text, link) :: finditer fuel' rest
      | None =>
          match s with
          | String _ s' => finditer fuel' s'
          | EmptyString => []
          end
      end
  end.

Definition matches (content : string) : list (string * string) :=
  finditer (S (String.length content)) content.

(** The file is read whole; [links[text] = link] for every match, in
    order. *)
Definition parse_markdown_links (fs : filesystem) (file_path : string)
  : result (Dict.t string) :=
  match Dict.get fs file_path with
  | None => Raise "FileNotFoundError"
  | Some content => Ok (Dict.update [] (matches content))
  end.

(** ["]("] occurs in [s]. *)
Fixpoint has_separator (s : string) : bool :=
  match s with
  | String a s' =>
      match s' with
      | String b _ => bool_decide (a = "]"%char ∧ b = "("%char)
      | EmptyString => false
      end || has_separator s'
  | EmptyString => false
  end.

(** The first line of [s] is free of the character [c]. *)
Fixpoint line_free (c : ascii) (s : string) : Prop :=
  match s with
  | EmptyString => True
  | String a s' => a = LF ∨ (a ≠ c ∧ line_free c s')
  end.

(** The number of line feeds in [s]. *)
Fixpoint line_feeds (s : string) : nat :=
  match s with
  | EmptyString => 0
  | String a s' => (if decide (a = LF) then 1 else 0) + line_feeds s'
  end.

(** ** [main] (lines 210-221) *)

(** [print_to_md], the report collaborator: the text it leaves in
    [result.md] and how it ended. *)
Class Report :=
  print_to_md : Dict.t string → Dict.t (list string) → Dict.t (list string) →
                string * result ().

Section main.
Context `{!Web, !Extractor, !Json, !Similarity, !SetOrder, !Report}.

(** [main] from the parsed links on (line 212 belongs to the input
    collaborator): the files it leaves and how it ended, or [None] while
    the schedule has not brought the dispatcher to its return. *)
Definition main (parsed_links : Dict.t string) (fs : filesystem)
    (schedule : list action) : option (filesystem * result ()) :=
  match process_links_start parsed_links fs with
  | Raise e => Some (fs, Raise e)
  | Ok st0 =>
      let st := run st0 schedule in
      match control st with
      | Finished keywords =>
          let keywords := returned (simplify_keywords keywords) in
          let fs := Dict.set (disk st) "keywords.json"
                      (json_dumps (encode_dict keywords)) in
          match group_links_by_domain parsed_links with
          | Ok domains =>
              let report := print_to_md parsed_links domains keywords in
              Some (Dict.set fs "result.md" report.1, report.2)
          | Raise e => Some (fs, Raise e)
          end
      | _ => None
      end
  end.
End main.

(** Lines 211-221: [main] from the path given on the command line. *)
Definition main_argv `{!Web, !Extractor, !Json, !Similarity, !SetOrder,
    !Report} (file_path : string) (fs : filesystem) (schedule : list action)
  : option (filesystem * result ()) :=
  match parse_markdown_links fs file_path with
  | Ok parsed_links => main parsed_links fs schedule
  | Raise e => Some (fs, Raise e)
  end.

(** ** [print_to_md] (lines 194-207) *)

Module Md.

Definition newline : string := String LF "".

(** Line 198: [{v: k for k, v in title_to_link.items()}]. *)
Definition link_to_title (title_to_link : Dict.t string) : Dict.t string :=
  Dict.update [] ((λ kv, (kv.2, kv.1)) <$> title_to_link).

(** Line 202: [f'# {domain} ({len(links)})\n']. *)
Definition header (domain : string) (links : list string) : string :=
  "# " +:+ domain +:+ " (" +:+ pretty (length links) +:+ ")" +:+ newline.

(** Lines 205-206: [f'- [{link_title}]({link}) - {keywords_str}\n'] with
    [keywords_str = ', '.join(keywords[link])]. *)
Definition link_line (link_title link : string) (kws : list string)
  : string :=
  "- [" +:+ link_title +:+ "](" +:+ link +:+ ") - "
  +:+ String.concat ", " kws +:+ newline.

(** Lines 203-206, from the text written so far: a link without a title
    or without keywords ends the call with [KeyError], what was written
    staying in the file. *)
Fixpoint write_links (titles : Dict.t string)
    (keywords : Dict.t (list string)) (links : list string) (text : string)
  : string * result () :=
  match links with
  | [] => (text, Ok ())
  | link :: rest =>
      match Dict.get titles link with
      | None => (text, Raise "KeyError")
      | Some link_title =>
          match Dict.get keywords link with
          | None => (text, Raise "KeyError")
          | Some kws =>
              write_links titles keywords rest
                (text +:+ link_line link_title link kws)
          end
      end
  end.

(** Lines 201-207. *)
Fixpoint write_domains (titles : Dict.t string)
    (keywords : Dict.t (list string)) (domains : Dict.t (list string))
    (text : string) : string * result () :=
  match domains with
  | [] => (text, Ok ())
  | (domain, links) :: rest =>
      match write_links titles keywords links (text +:+ header domain links)
      with
      | (text', Ok _) => write_domains titles keywords rest (text' +:+ newline)
      | (text', Raise e) => (text', Raise e)
      end
  end.

(** The text left in [result.md] and how the call ended. *)
Definition print_to_md (title_to_link : Dict.t string)
    (domain_to_link : Dict.t (list string)) (keywords : Dict.t (list string))
  : string * result () :=
  write_domains (link_to_title title_to_link) keywords domain_to_link "".

End Md.

(** [main] with the module's own [print_to_md]. *)
Definition md_report : Report := Md.print_to_md.

(** ** Reference instances of the other oracles, for the examples *)

Fixpoint replicate_string (n : nat) (s : string) : string :=
  match n with 0 => "" | S n' => s +:+ replicate_string n' s end.

(** A web with two pages: a short one and one of 500 characters. *)
Definition demo_web : Web := {|
  requests_get link _ :=
    if decide (link = "https://a.com/short")
    then Ok {| status_code := 200; content := "<title>Short</title>tiny" |}
    else if decide (link = "https://a.com/long")
    then Ok {| status_code := 200;
               content := "<title>Long</title>" +:+ replicate_string 500 "a" |}
    else Raise "ConnectionError";
  raise_for_status r :=
    if bool_decide (400 ≤ status_code r) then Raise "HTTPError" else Ok ();
  summary c := Ok c;
  title c := if decide (c = "<title>Short</title>tiny") then "Short" else "Long";
  get_text c :=
    default c (strip_prefix "<title>Long</title>"
                 (default c (strip_prefix "<title>Short</title>" c)))
|}.

(** An extractor that answers by content. *)
Definition demo_extractor : Extractor := λ content n,
  if decide (content = "Short") then Ok (take n [("EROR", 0.5%float)])
  else if decide (content = "") then Raise "ValueError"
  else Ok (take n [("alpha", 0.75%float); ("beta", 0.5%float)]).

(** A [json] that prints on one line, without escapes and with every
    number as [0.0], and that reads flat objects of strings and of empty
    arrays. *)
Definition dquote : ascii := ascii_of_nat 34.

Definition quoted (s : string) : string :=
  String dquote (s +:+ String dquote "").

Fixpoint print_value (j : json) : string :=
  match j with
  | JNull => "null"
  | JBool b => if b then "true" else "false"
  | JNumber _ => "0.0"
  | JString s => quoted s
  | JArray xs =>
      "[" +:+
      (fix items (xs : list json) : string :=
         match xs with
         | [] => ""
         | [x] => print_value x
         | x :: rest => print_value x +:+ ", " +:+ items rest
         end) xs
      +:+ "]"
  | JObject kvs =>
      "{" +:+
      (fix members (kvs : list (string * json)) : string :=
         match kvs with
         | [] => ""
         | [(k, v)] => quoted k +:+ ": " +:+ print_value v
         | (k, v) :: rest =>
             quoted k +:+ ": " +:+ print_value v +:+ ", " +:+ members rest
         end) kvs
      +:+ "}"
  end.

Definition demo_dumps (j : json) : string := print_value j.

Fixpoint until_quote (s : string) : option (string * string) :=
  match s with
  | EmptyString => None
  | String a s' =>
      if decide (a = dquote) then Some ("", s')
      else p ← until_quote s'; Some (String a p.1, p.2)
  end.

Definition parse_quoted (s : string) : option (string * string) :=
  match s with
  | String a s' => if decide (a = dquote) then until_quote s' else None
  | EmptyString => None
  end.

Definition parse_value (s : string) : option (json * string) :=
  match strip_prefix "[]" s with
  | Some r => Some (JArray [], r)
  | None => p ← parse_quoted s; Some (JString p.1, p.2)
  end.

Fixpoint parse_members (fuel : nat) (s : string)
  : option (list (string * json)) :=
  match fuel with
  | 0 => None
  | S fuel' =>
      k ← parse_quoted s;
      r ← strip_prefix ": " k.2;
      v ← parse_value r;
      match strip_prefix ", " v.2 with
      | Some r' => rest ← parse_members fuel' r'; Some ((k.1, v.1) :: rest)
      | None => if decide (v.2 = "}") then Some [(k.1, v.1)] else None
      end
  end.

Definition demo_loads (s : string) : option json :=
  if decide (s = "{}") then Some (JObject [])
  else r ← strip_prefix "{" s;
       kvs ← parse_members (String.length s) r;
       Some (JObject kvs).

Definition demo_json : Json :=
  {| json_dumps := demo_dumps; json_loads := demo_loads |}.

(** A [json] that reads every text as the document [x]. *)
Definition reads_as (x : json) : Json :=
  {| json_dumps := demo_dumps; json_loads := λ _, Some x |}.

(** A working directory with two empty caches, and two links to
    process: one whose fetch raises, one whose page is short. *)
Definition demo_disk : filesystem :=
  [("content_cache.txt", "{}"); ("keywords_cache.txt", "{}")].

Definition demo_parsed_links : Dict.t string :=
  [("gone", "https://a.com/gone"); ("short", "https://a.com/short")].

(** The same directory after the short page has been fetched. *)
Definition warm_disk : filesystem :=
  [("content_cache.txt",
    demo_dumps (JObject [("https://a.com/short", JString "Short")]));
   ("keywords_cache.txt", "{}")].

(** A directory whose keyword cache has an entry, without keywords, for a
    link that is not submitted. *)
Definition old_disk : filesystem :=
  [("content_cache.txt", "{}");
   ("keywords_cache.txt", demo_dumps (JObject [("https://old.org/", JArray [])]))].

(** The schedule that runs the two tasks to their ends, one after the
    other, and then lets the dispatcher poll. *)
Definition demo_schedule : list action :=
  replicate 5 (Worker 0) ++ replicate 5 (Worker 1) ++ replicate 3 Dispatcher.

(** The run from [old_disk]: its first state and what it returns. *)
Definition old_start : pool := Eval vm_compute in
  match @process_links_start demo_json demo_parsed_links old_disk with
  | Ok st => st
  | Raise _ =>
      {| shared := {| contents := PlainDict []; keywords := PlainDict [] |};
         tasks := []; results := []; control := AtWhile;
         disk := []; log := [] |}
  end.

Definition old_return : Dict.t Keywords := Eval vm_compute in
  default [] (return_value
                (@run demo_web demo_extractor demo_json old_start demo_schedule)).

(** The run from [demo_disk]: its first state and what it returns. *)
Definition demo_start : pool := Eval vm_compute in
  match @process_links_start demo_json demo_parsed_links demo_disk with
  | Ok st => st
  | Raise _ =>
      {| shared := {| contents := PlainDict []; keywords := PlainDict [] |};
         tasks := []; results := []; control := AtWhile;
         disk := []; log := [] |}
  end.

Definition demo_return : Dict.t Keywords := Eval vm_compute in
  default [] (return_value
                (@run demo_web demo_extractor demo_json demo_start
                   demo_schedule)).

(** A run without cache files: its first state, what it returns, and the
    task of the short page at the end. *)
Definition cold_start : pool := Eval vm_compute in
  match @process_links_start demo_json demo_parsed_links [] with
  | Ok st => st
  | Raise _ =>
      {| shared := {| contents := PlainDict []; keywords := PlainDict [] |};
         tasks := []; results := []; control := AtWhile;
         disk := []; log := [] |}
  end.

Definition cold_return : Dict.t Keywords := Eval vm_compute in
  default [] (return_value
                (@run demo_web demo_extractor demo_json cold_start
                   demo_schedule)).

Definition cold_task : task :=
  {| t_link := "https://a.com/short"; t_pc := Returned;
     t_contents := [("https://a.com/short", "Short")];
     t_keywords := [("https://a.com/short", [("EROR", 0.5%float)])] |}.

(** An extractor that finds no keyword, and a run over the short page
    alone. *)
Definition silent_extractor : Extractor := λ _ _, Ok [].

Definition one_link : Dict.t string := [("short", "https://a.com/short")].

Definition one_schedule : list action :=
  replicate 5 (Worker 0) ++ replicate 3 Dispatcher.

Definition one_start : pool := Eval vm_compute in
  match @process_links_start demo_json one_link demo_disk with
  | Ok st => st
  | Raise _ =>
      {| shared := {| contents := PlainDict []; keywords := PlainDict [] |};
         tasks := []; results := []; control := AtWhile;
         disk := []; log := [] |}
  end.

Definition one_return : Dict.t Keywords := Eval vm_compute in
  default [] (return_value
                (@run demo_web silent_extractor demo_json one_start
                   one_schedule)).









(** A directory whose caches hold both entries of the short page, and
    the first state of a run over that page from it. *)
Definition full_disk : filesystem :=
  [("content_cache.txt",
    demo_dumps (JObject [("https://a.com/short", JString "Short")]));
   ("keywords_cache.txt",
    demo_dumps (JObject [("https://a.com/short", JArray [])]))].

Definition full_start : pool := Eval vm_compute in
  match @process_links_start demo_json one_link full_disk with
  | Ok st => st
  | Raise _ =>
      {| shared := {| contents := PlainDict []; keywords := PlainDict [] |};
         tasks := []; results := []; control := AtWhile;
         disk := []; log := [] |}
  end.

(** The run from [demo_disk] once the task of the short page has tested
    the content cache. *)
Definition fetching : pool := Eval vm_compute in
  @run demo_web demo_extractor demo_json demo_start [Worker 1].

(** A report that only counts the domains. *)
Definition demo_report : Report := λ _ domains _,
  (replicate_string (length domains) "#", Ok ()).

(** The links of the grouping example. *)
Definition demo_links : Dict.t string :=
  [("x", "https://a.com/x"); ("y", "https://a.com/y"); ("z", "https://b.com/z")].

(** ** A reference instance of the similarity oracle

    With [python-Levenshtein] installed, [fuzz.ratio] is the normalised
    indel similarity [2 * lcs / (len s1 + len s2)] scaled to 0..100 and
    rounded, after the shortcuts for equal and for empty strings.  The
    theorems hold for every oracle; this instance serves the examples. *)

Fixpoint lcs (xs ys : list ascii) : nat :=
  match xs with
  | [] => 0
  | x :: xs' =>
      (fix go (ys : list ascii) : nat :=
         match ys with
         | [] => 0
         | y :: ys' =>
             if decide (x = y) then S (lcs xs' ys')
             else Nat.max (lcs xs' ys) (go ys')
         end) ys
  end.

Definition indel_ratio (s1 s2 : string) : Z :=
  if decide (s1 = s2) then 100%Z
  else if bool_decide (String.length s1 = 0 ∨ String.length s2 = 0) then 0%Z
  else
    let total := Z.of_nat (String.length s1 + String.length s2) in
    let common :=
      Z.of_nat (lcs (list_ascii_of_string s1) (list_ascii_of_string s2)) in
    ((400 * common + total) / (2 * total))%Z.

Definition indel_similarity : Similarity := indel_ratio.

(** One order for [list(set(xs))]: the last occurrence of each element. *)
Definition remove_dups_order : SetOrder := remove_dups.

(** The corpus of the merge example: two links with one keyword each. *)
Definition neural_corpus : Dict.t Keywords :=
  [("https://a.com/x", [("neural network", 0.75%float)]);
   ("https://b.com/z", [("neural networks", 0.5%float)])].

(** Two links whose keywords are far apart, and a failed link next to a
    link with one keyword. *)
Definition plain_corpus : Dict.t Keywords :=
  [("https://a.com/x", [("compiler", 0.75%float)]);
   ("https://b.com/z", [("database", 0.5%float)])].

Definition failed_corpus : Dict.t Keywords :=
  [("https://a.com/gone", [("ERROR", 0%float)]);
   ("https://a.com/x", [("neural network", 0.75%float)])].

(* ===================================================================== *)
(** * Part II: lemmas and theorems                                         *)
(* ===================================================================== *)

(** ** Dictionaries *)

Section dict_facts.
Context {V : Type}.
Implicit Types (d : Dict.t V) (k : string) (v : V).

Lemma get_set_eq d k v : Dict.get (Dict.set d k v) k = Some v.
Proof.
  induction d as [|[k' v'] r IH]; simpl.
  - by rewrite decide_True.
  - destruct (decide (k = k')) as [->|Hne]; simpl.
    + by rewrite decide_True.
    + by rewrite decide_False.
Qed.

Lemma get_set_ne d k k' v :
  k ≠ k' → Dict.get (Dict.set d k v) k' = Dict.get d k'.
Proof.
  intros Hne. induction d as [|[k0 v0] r IH]; simpl.
  - by rewrite decide_False.
  - destruct (decide (k = k0)) as [->|Hk]; simpl.
    + by rewrite !decide_False.
    + destruct (decide (k' = k0)); done.
Qed.

Lemma get_set d k k' v :
  Dict.get (Dict.set d k v) k' =
  if decide (k = k') then Some v else Dict.get d k'.
Proof.
  destruct (decide (k = k')) as [->|Hne];
    [apply get_set_eq | by apply get_set_ne].
Qed.

Lemma keys_set_present d k v :
  is_Some (Dict.get d k) → Dict.keys (Dict.set d k v) = Dict.keys d.
Proof.
  unfold Dict.keys. induction d as [|[k' v'] r IH]; csimpl.
  - by intros [? ?].
  - destruct (decide (k = k')) as [->|Hne]; csimpl; [done|].
    intros Hs. by rewrite IH.
Qed.

Lemma keys_set_absent d k v :
  Dict.get d k = None → Dict.keys (Dict.set d k v) = Dict.keys d ++ [k].
Proof.
  unfold Dict.keys. induction d as [|[k' v'] r IH]; csimpl; [done|].
  destruct (decide (k = k')) as [->|Hne]; csimpl; [done|].
  intros Hs. by rewrite IH.
Qed.

Lemma get_Some_keys d k v : Dict.get d k = Some v → k ∈ Dict.keys d.
Proof.
  unfold Dict.keys. induction d as [|[k' v'] r IH]; csimpl; [done|].
  destruct (decide (k = k')) as [->|Hne]; [left|right; auto].
Qed.

Lemma get_None_keys d k : Dict.get d k = None ↔ k ∉ Dict.keys d.
Proof.
  unfold Dict.keys. induction d as [|[k' v'] r IH]; csimpl.
  - split; [intros _; apply not_elem_of_nil | done].
  - rewrite not_elem_of_cons.
    destruct (decide (k = k')) as [->|Hne].
    + split; [done | intros [? _]; done].
    + rewrite IH. split; [by intros ? | by intros [_ ?]].
Qed.

Lemma keys_get_is_Some d k : k ∈ Dict.keys d ↔ is_Some (Dict.get d k).
Proof.
  destruct (Dict.get d k) eqn:E.
  - split; [eauto | intros _; by eapply get_Some_keys].
  - split; [by apply get_None_keys in E | by intros [? ?]].
Qed.

Lemma mem_true d k : Dict.mem d k = true ↔ k ∈ Dict.keys d.
Proof.
  rewrite keys_get_is_Some. unfold Dict.mem.
  destruct (Dict.get d k); [split; eauto | split; [done | by intros [? ?]]].
Qed.

Lemma mem_set d k k' v :
  Dict.mem (Dict.set d k v) k' = true ↔ k = k' ∨ Dict.mem d k' = true.
Proof.
  unfold Dict.mem. rewrite get_set.
  destruct (decide (k = k')); destruct (Dict.get d k'); intuition congruence.
Qed.

Lemma NoDup_keys_set d k v :
  NoDup (Dict.keys d) → NoDup (Dict.keys (Dict.set d k v)).
Proof.
  intros Hnd. destruct (Dict.get d k) eqn:E.
  - by rewrite keys_set_present.
  - rewrite keys_set_absent by done.
    apply NoDup_app. split_and!; [done| |apply NoDup_singleton].
    intros x Hx ->%list_elem_of_singleton. by apply get_None_keys in E.
Qed.

Lemma get_elem_of d k v :
  NoDup (Dict.keys d) → (k, v) ∈ d → Dict.get d k = Some v.
Proof.
  unfold Dict.keys. induction d as [|[k' v'] r IH]; csimpl.
  - by intros _ ?%elem_of_nil.
  - intros [Hni Hnd]%NoDup_cons [Heq|Hin]%elem_of_cons.
    + injection Heq as -> ->. by rewrite decide_True.
    + destruct (decide (k = k')) as [->|Hne]; [|auto].
      exfalso. apply Hni. apply list_elem_of_fmap. by exists (k', v).
Qed.

Lemma elem_of_get d k v : Dict.get d k = Some v → (k, v) ∈ d.
Proof.
  induction d as [|[k' v'] r IH]; simpl; [done|].
  destruct (decide (k = k')) as [->|Hne].
  - intros [= ->]. left.
  - right. auto.
Qed.
End dict_facts.

(** ** Folds *)

Lemma foldl_bind {A B C} (f : A → C → A) (g : B → list C) (l : list B) a :
  foldl f a (l ≫= g) = foldl (λ a b, foldl f a (g b)) a l.
Proof.
  revert a. induction l as [|b l IH]; intros a; [done|].
  rewrite bind_cons, foldl_app. apply IH.
Qed.

Lemma foldl_ext {A B} (f g : A → B → A) (l : list B) a :
  (∀ a b, f a b = g a b) → foldl f a l = foldl g a l.
Proof.
  intros Hfg. revert a. induction l as [|b l IH]; intros a; simpl; [done|].
  by rewrite Hfg, IH.
Qed.

Lemma list_bind_bind {A B C} (f : A → list B) (g : B → list C) (l : list A) :
  (l ≫= f) ≫= g = l ≫= λ x, f x ≫= g.
Proof.
  induction l as [|x l IH]; csimpl; [done|]. by rewrite bind_app, IH.
Qed.

Lemma foldl_invariant {A B} (P : A → Prop) (f : A → B → A) (l : list B) a :
  P a → (∀ a b, b ∈ l → P a → P (f a b)) → P (foldl f a l).
Proof.
  revert a. induction l as [|b l IH]; intros a Ha Hf; simpl; [done|].
  apply IH.
  - apply Hf; [left | done].
  - intros a' b' Hb'. apply Hf. by right.
Qed.

(** A nested loop whose inner range is recomputed from the state equals
    the loop over the ranges of the initial state, when no step changes
    the range. *)
Lemma foldl_nested_stable {A B C} (f : A → C → A) (g : A → B → list C)
    (l : list B) (a : A) :
  (∀ a c b, g (f a c) b = g a b) →
  foldl (λ a b, foldl f a (g a b)) a l = foldl f a (l ≫= g a).
Proof.
  intros Hg.
  assert (Hfold : ∀ cs a b, g (foldl f a cs) b = g a b).
  { induction cs as [|c cs IH]; intros a' b; simpl; [done|].
    by rewrite IH, Hg. }
  rewrite foldl_bind.
  enough (Hgen : ∀ a1, (∀ b, g a1 b = g a b) →
     foldl (λ a b, foldl f a (g a b)) a1 l =
     foldl (λ a0 b, foldl f a0 (g a b)) a1 l) by auto.
  induction l as [|b l IH]; intros a1 Ha1; simpl; [done|].
  rewrite Ha1. apply IH. intros b'. by rewrite Hfold.
Qed.

(** ** The merge pass *)

(** Settles the equality tests on keys and slots that the hypotheses
    decide. *)
Ltac resolve_tests :=
  repeat (simpl;
          first [ rewrite decide_True by done
                | rewrite decide_False by done
                | rewrite bool_decide_eq_true_2 by done
                | rewrite bool_decide_eq_false_2 by (intros [? ?]; done) ]).


Section merge_facts.
Context `{!Similarity}.
Implicit Types (d : Dict.t Keywords) (link : string) (x : Keyword).

Lemma kwds_of_slot_set d link i x link' :
  kwds_of (slot_set d link i x) link' =
  if decide (link = link') then <[i := x]> (kwds_of d link')
  else kwds_of d link'.
Proof.
  unfold slot_set, kwds_of.
  destruct (decide (link = link')) as [<-|Hne].
  - destruct (Dict.get d link) eqn:E; [|by rewrite E].
    by rewrite get_set_eq.
  - destruct (Dict.get d link) eqn:E; [|done].
    by rewrite get_set_ne.
Qed.

Lemma keys_slot_set d link i x :
  Dict.keys (slot_set d link i x) = Dict.keys d.
Proof.
  unfold slot_set. destruct (Dict.get d link) eqn:E; [|done].
  apply keys_set_present. eauto.
Qed.

Lemma length_kwds_of_slot_set d link i x link' :
  length (kwds_of (slot_set d link i x) link') = length (kwds_of d link').
Proof.
  rewrite kwds_of_slot_set. case_decide; [apply length_insert | done].
Qed.

Lemma slot_get_slot_set d link i x link' j :
  slot_get (slot_set d link i x) link' j =
  if decide (link = link' ∧ i = j ∧ i < length (kwds_of d link))
  then Some x else slot_get d link' j.
Proof.
  unfold slot_get. rewrite kwds_of_slot_set.
  destruct (decide (link = link')) as [<-|Hne].
  - destruct (decide (i = j)) as [<-|Hij].
    + destruct (decide (i < length (kwds_of d link))) as [Hlt|Hge].
      * rewrite decide_True by done. by apply list_lookup_insert_eq.
      * rewrite decide_False by tauto.
        rewrite list_insert_ge by lia. done.
    + rewrite decide_False by tauto.
      by apply list_lookup_insert_ne.
  - by rewrite decide_False by tauto.
Qed.

Lemma slots_live_eq d : NoDup (Dict.keys d) → slots_live d = slots d.
Proof.
  intros Hnd. unfold slots_live, slots, Dict.keys.
  assert (Hin : ∀ kv, kv ∈ d → kwds_of d kv.1 = kv.2).
  { intros [k v] Hkv. unfold kwds_of. by erewrite get_elem_of. }
  enough (Hgen : ∀ r : Dict.t Keywords,
    (∀ kv, kv ∈ r → kwds_of d kv.1 = kv.2) →
    r.*1 ≫= positions d =
    r ≫= λ kv, (λ i, (kv.1, i)) <$> seq 0 (length kv.2)) by auto.
  clear. induction r as [|kv r IH]; intros Hin; csimpl; [done|].
  rewrite IH by (intros; apply Hin; by right).
  unfold positions at 1. rewrite Hin by left. done.
Qed.

Lemma compare_slots_shape link1 i str1 link2 j kw2 str2 s :
  let s' := compare_slots link1 i str1 link2 j kw2 str2 s in
  Dict.keys s'.1 = Dict.keys s.1 ∧
  ∀ l, length (kwds_of s'.1 l) = length (kwds_of s.1 l).
Proof.
  destruct s as [d kw1]. unfold compare_slots.
  repeat case_bool_decide; simpl; try done.
  split; [by rewrite !keys_slot_set|].
  intros l. by rewrite !length_kwds_of_slot_set.
Qed.

Lemma scan_step_shape link1 i str1 s p :
  Dict.keys (scan_step link1 i str1 s p).1 = Dict.keys s.1 ∧
  ∀ l, length (kwds_of (scan_step link1 i str1 s p).1 l)
       = length (kwds_of s.1 l).
Proof.
  unfold scan_step. destruct (slot_get s.1 p.1 p.2) as [[kw2 str2]|]; [|done].
  apply compare_slots_shape.
Qed.

Lemma positions_ext d d' link :
  (∀ l, length (kwds_of d' l) = length (kwds_of d l)) →
  positions d' link = positions d link.
Proof. intros Hlen. unfold positions. by rewrite Hlen. Qed.

Lemma slots_live_ext d d' :
  Dict.keys d' = Dict.keys d →
  (∀ l, length (kwds_of d' l) = length (kwds_of d l)) →
  slots_live d' = slots_live d.
Proof.
  intros Hk Hlen. unfold slots_live. rewrite Hk.
  apply list_bind_ext; [|done]. intros l. by apply positions_ext.
Qed.

Lemma scan_list_flat link1 i str1 link2 s :
  scan_list link1 i str1 link2 s =
  foldl (scan_step link1 i str1) s (positions s.1 link2).
Proof. unfold scan_list, positions. by rewrite foldl_fmap. Qed.

Lemma scan_corpus_flat link1 i str1 s :
  scan_corpus link1 i str1 s =
  foldl (scan_step link1 i str1) s (slots_live s.1).
Proof.
  unfold scan_corpus, slots_live.
  rewrite <- (foldl_nested_stable (scan_step link1 i str1)
                (λ s link2, positions s.1 link2)).
  - apply foldl_ext. intros. apply scan_list_flat.
  - intros a c b. apply positions_ext, scan_step_shape.
Qed.

(** While slot [(link1, i)] is being compared against the corpus, the
    local [kw1] is the string that slot holds and [str1] its score: the
    loop with the local variable is the loop that reads the slot. *)
Lemma scan_step_spec link1 i str1 d kw1 p :
  slot_get d link1 i = Some (kw1, str1) →
  let r := scan_step link1 i str1 (d, kw1) p in
  r.1 = merge_step d ((link1, i), p) ∧
  slot_get r.1 link1 i = Some (r.2, str1).
Proof.
  destruct p as [link2 j]. intros Hs1. unfold scan_step. simpl.
  rewrite Hs1.
  destruct (slot_get d link2 j) as [[kw2 str2]|] eqn:Hs2; simpl.
  - case_bool_decide as Hdiag; [done|].
    case_bool_decide as Hr; [|done]. simpl. split; [done|].
    rewrite !slot_get_slot_set, !length_kwds_of_slot_set.
    rewrite (decide_False (P := link2 = link1 ∧ _)) by (intros (?&?&?); auto).
    rewrite decide_True; [done|].
    split_and!; [done..|]. eapply lookup_lt_Some, Hs1.
  - by case_bool_decide.
Qed.

Lemma scan_fold_spec link1 i str1 ss : ∀ d kw1,
  slot_get d link1 i = Some (kw1, str1) →
  let r := foldl (scan_step link1 i str1) (d, kw1) ss in
  r.1 = foldl merge_step d ((λ s2, ((link1, i), s2)) <$> ss) ∧
  slot_get r.1 link1 i = Some (r.2, str1).
Proof.
  induction ss as [|p ss IH]; intros d kw1 Hs1; [done|].
  cbn [foldl fmap list_fmap].
  destruct (scan_step_spec link1 i str1 d kw1 p Hs1) as [Hd Hk].
  destruct (scan_step link1 i str1 (d, kw1) p) as [d' kw1'].
  cbn [fst snd] in Hd, Hk. rewrite <- Hd. by apply IH.
Qed.

Lemma merge_step_no_slot1 d link1 i ss :
  slot_get d link1 i = None →
  foldl merge_step d ((λ s2, ((link1, i), s2)) <$> ss) = d.
Proof.
  intros Hn. induction ss as [|[link2 j] ss IH]; simpl; [done|].
  rewrite Hn. by case_bool_decide.
Qed.

Lemma merge_slot_flat link1 i d :
  merge_slot link1 i d =
  foldl merge_step d ((λ s2, ((link1, i), s2)) <$> slots_live d).
Proof.
  unfold merge_slot.
  destruct (slot_get d link1 i) as [[kw1 str1]|] eqn:Hs1.
  - rewrite scan_corpus_flat. simpl.
    by apply (scan_fold_spec link1 i str1 (slots_live d) d kw1).
  - by rewrite merge_step_no_slot1.
Qed.

Lemma merge_step_shape d p :
  Dict.keys (merge_step d p) = Dict.keys d ∧
  ∀ l, length (kwds_of (merge_step d p) l) = length (kwds_of d l).
Proof.
  destruct p as [[link1 i] [link2 j]]. unfold merge_step.
  case_bool_decide; [done|].
  destruct (slot_get d link1 i) as [[kw1 str1]|]; [|done].
  destruct (slot_get d link2 j) as [[kw2 str2]|]; [|done].
  case_bool_decide; [|done].
  split; [by rewrite !keys_slot_set|].
  intros l. by rewrite !length_kwds_of_slot_set.
Qed.

Lemma merge_list_flat link1 d :
  merge_list link1 d =
  foldl merge_step d
    (positions d link1 ≫= λ s1, (λ s2, (s1, s2)) <$> slots_live d).
Proof.
  unfold merge_list.
  rewrite <- (foldl_nested_stable merge_step
                (λ d s1, (λ s2, (s1, s2)) <$> slots_live d)).
  - unfold positions. rewrite foldl_fmap.
    apply foldl_ext. intros. apply merge_slot_flat.
  - intros a c b. f_equal. apply slots_live_ext; apply merge_step_shape.
Qed.

(** The four nested loops are one left fold of [merge_step] over the
    ordered pairs of slots. *)
Lemma merge_pass_flat d :
  NoDup (Dict.keys d) →
  merge_pass d = foldl merge_step d (ordered_pairs d).
Proof.
  intros Hnd. unfold merge_pass, ordered_pairs.
  rewrite <- slots_live_eq by done.
  change (slots_live d ≫= λ s1, (λ s2, (s1, s2)) <$> slots_live d)
    with ((Dict.keys d ≫= positions d)
            ≫= λ s1, (λ s2, (s1, s2)) <$> slots_live d).
  rewrite list_bind_bind.
  rewrite <- (foldl_nested_stable merge_step
    (λ d link1, positions d link1 ≫= λ s1, (λ s2, (s1, s2)) <$> slots_live d)).
  - apply foldl_ext. intros. apply merge_list_flat.
  - intros a c b. apply list_bind_ext.
    + intros s1. f_equal. apply slots_live_ext; apply merge_step_shape.
    + apply positions_ext, merge_step_shape.
Qed.
Lemma slot_get_is_Some d link i :
  is_Some (slot_get d link i) ↔ i < length (kwds_of d link).
Proof. unfold slot_get. apply lookup_lt_is_Some. Qed.

Lemma elem_of_slots_live d link i :
  (link, i) ∈ slots_live d ↔ is_Some (slot_get d link i).
Proof.
  rewrite slot_get_is_Some. unfold slots_live, positions.
  rewrite list_elem_of_bind. split.
  - intros (l & Hin & _). apply list_elem_of_fmap in Hin as (k & [= -> ->] & Hk).
    apply elem_of_seq in Hk. lia.
  - intros Hlt. exists link. split.
    + apply list_elem_of_fmap. exists i. split; [done|].
      apply elem_of_seq. lia.
    + apply keys_get_is_Some. unfold kwds_of in Hlt.
      destruct (Dict.get d link); [eauto | simpl in Hlt; lia].
Qed.

Lemma elem_of_slots d s :
  NoDup (Dict.keys d) → s ∈ slots d ↔ is_Some (slot_get d s.1 s.2).
Proof.
  intros Hnd. rewrite <- slots_live_eq by done. destruct s as [link i].
  apply elem_of_slots_live.
Qed.

Lemma elem_of_ordered_pairs d s1 s2 :
  (s1, s2) ∈ ordered_pairs d ↔ s1 ∈ slots d ∧ s2 ∈ slots d.
Proof.
  unfold ordered_pairs. rewrite list_elem_of_bind. split.
  - intros (s & Hin & Hs). apply list_elem_of_fmap in Hin as (s' & [= -> ->] & Hs').
    done.
  - intros [H1 H2]. exists s1. split; [|done].
    apply list_elem_of_fmap. by exists s2.
Qed.

(** Reading a slot after the two writes of lines 174-175. *)
Lemma slot_get_two_writes d link1 i x link2 j y l k :
  is_Some (slot_get d link1 i) → is_Some (slot_get d link2 j) →
  slot_get (slot_set (slot_set d link1 i x) link2 j y) l k =
  if decide ((link2, j) = (l, k)) then Some y
  else if decide ((link1, i) = (l, k)) then Some x
  else slot_get d l k.
Proof.
  intros H1%slot_get_is_Some H2%slot_get_is_Some.
  rewrite !slot_get_slot_set, !length_kwds_of_slot_set.
  destruct (decide ((link2, j) = (l, k))) as [[= -> ->]|Hne2].
  - by rewrite decide_True.
  - rewrite decide_False by (intros (-> & -> & _); done).
    destruct (decide ((link1, i) = (l, k))) as [[= -> ->]|Hne1].
    + by rewrite decide_True.
    + by rewrite decide_False by (intros (-> & -> & _); done).
Qed.

(** One comparison, as the innermost loop body performs it. *)
Lemma merge_step_spec d link1 i link2 j kw1 str1 kw2 str2 :
  (link1, i) ≠ (link2, j) →
  slot_get d link1 i = Some (kw1, str1) →
  slot_get d link2 j = Some (kw2, str2) →
  let d' := merge_step d ((link1, i), (link2, j)) in
  let canon :=
    if bool_decide (String.length kw1 ≤ String.length kw2) then kw1 else kw2 in
  ((THRESHOLD < fuzz_ratio kw1 kw2)%Z →
     slot_get d' link1 i = Some (canon, str1) ∧
     slot_get d' link2 j = Some (canon, str2) ∧
     ∀ l k, (l, k) ≠ (link1, i) → (l, k) ≠ (link2, j) →
            slot_get d' l k = slot_get d l k) ∧
  ((fuzz_ratio kw1 kw2 ≤ THRESHOLD)%Z → d' = d).
Proof.
  intros Hne Hs1 Hs2. simpl. rewrite Hs1, Hs2.
  rewrite bool_decide_eq_false_2 by (intros [-> ->]; done).
  assert (Hcanon : shorter kw1 kw2 =
    if bool_decide (String.length kw1 ≤ String.length kw2) then kw1 else kw2).
  { unfold shorter. repeat case_bool_decide; done || lia. }
  rewrite <- Hcanon. split.
  - intros Hr. rewrite bool_decide_eq_true_2 by done.
    split_and!.
    + rewrite slot_get_two_writes by (rewrite ?Hs1, ?Hs2; eauto).
      rewrite decide_False by done. by rewrite decide_True.
    + rewrite slot_get_two_writes by (rewrite ?Hs1, ?Hs2; eauto).
      by rewrite decide_True.
    + intros l k Hn1 Hn2.
      rewrite slot_get_two_writes by (rewrite ?Hs1, ?Hs2; eauto).
      by rewrite !decide_False by done.
  - intros Hr. by rewrite bool_decide_eq_false_2 by lia.
Qed.
(** A write that keeps the score of the slot keeps all scores. *)
Lemma slot_set_scores d link i kw kw' sc l :
  slot_get d link i = Some (kw', sc) →
  (kwds_of (slot_set d link i (kw, sc)) l).*2 = (kwds_of d l).*2.
Proof.
  intros Hs. rewrite kwds_of_slot_set. case_decide as Hl; [subst l|done].
  rewrite list_fmap_insert. apply list_insert_id.
  unfold slot_get in Hs. by rewrite list_lookup_fmap, Hs.
Qed.

Lemma merge_step_scores d p l :
  (kwds_of (merge_step d p) l).*2 = (kwds_of d l).*2.
Proof.
  destruct p as [[link1 i] [link2 j]]. unfold merge_step.
  case_bool_decide as Hdiag; [done|].
  destruct (slot_get d link1 i) as [[kw1 str1]|] eqn:Hs1; [|done].
  destruct (slot_get d link2 j) as [[kw2 str2]|] eqn:Hs2; [|done].
  case_bool_decide; [|done].
  rewrite (slot_set_scores _ _ _ _ kw2).
  - by rewrite (slot_set_scores _ _ _ _ kw1).
  - rewrite slot_get_slot_set. by rewrite decide_False by (intros (->&->&_); auto).
Qed.

(** A comparison invents no string: it copies one slot's string into
    another. *)
Lemma merge_step_holds d p kw : holds (merge_step d p) kw → holds d kw.
Proof.
  destruct p as [[link1 i] [link2 j]]. unfold merge_step.
  case_bool_decide as Hdiag; [done|].
  destruct (slot_get d link1 i) as [[kw1 str1]|] eqn:Hs1; [|done].
  destruct (slot_get d link2 j) as [[kw2 str2]|] eqn:Hs2; [|done].
  case_bool_decide; [|done].
  intros (l & k & sc & Hget).
  rewrite slot_get_two_writes in Hget by (rewrite ?Hs1, ?Hs2; eauto).
  assert (Hsh : holds d (shorter kw1 kw2)).
  { unfold shorter. case_bool_decide; [by exists link2, j, str2|by exists link1, i, str1]. }
  repeat case_decide; simplify_eq; try done.
  by exists l, k, sc.
Qed.

(** Induction over the comparisons of the pass. *)
Lemma merge_pass_ind (P : Dict.t Keywords → Prop) d :
  NoDup (Dict.keys d) →
  P d → (∀ c p, p ∈ ordered_pairs d → P c → P (merge_step c p)) →
  P (merge_pass d).
Proof.
  intros Hnd Hd Hstep. rewrite merge_pass_flat by done.
  by apply foldl_invariant.
Qed.

Lemma merge_pass_keys d :
  NoDup (Dict.keys d) → Dict.keys (merge_pass d) = Dict.keys d.
Proof.
  intros Hnd. apply (merge_pass_ind (λ c, Dict.keys c = Dict.keys d)); [done..|].
  intros c p _ <-. apply merge_step_shape.
Qed.

Lemma merge_pass_length d l :
  NoDup (Dict.keys d) →
  length (kwds_of (merge_pass d) l) = length (kwds_of d l).
Proof.
  intros Hnd.
  apply (merge_pass_ind (λ c, length (kwds_of c l) = length (kwds_of d l)));
    [done..|].
  intros c p _ <-. apply merge_step_shape.
Qed.

Lemma merge_pass_scores d l :
  NoDup (Dict.keys d) → (kwds_of (merge_pass d) l).*2 = (kwds_of d l).*2.
Proof.
  intros Hnd.
  apply (merge_pass_ind (λ c, (kwds_of c l).*2 = (kwds_of d l).*2)); [done..|].
  intros c p _ <-. apply merge_step_scores.
Qed.

Lemma merge_pass_holds d kw :
  NoDup (Dict.keys d) → holds (merge_pass d) kw → holds d kw.
Proof.
  intros Hnd.
  apply (merge_pass_ind (λ c, holds c kw → holds d kw)); [done..|].
  intros c p _ IH Hc. by apply IH, (merge_step_holds c p).
Qed.

(** Two links with one keyword each: after the pass both slots hold the
    shorter string, whatever the oracle says about the later comparison
    of the rewritten slots. *)
Lemma merge_pass_two_links link1 link2 a b s1 s2 :
  link1 ≠ link2 → (THRESHOLD < fuzz_ratio a b)%Z →
  merge_pass [(link1, [(a, s1)]); (link2, [(b, s2)])] =
  [(link1, [(shorter a b, s1)]); (link2, [(shorter a b, s2)])].
Proof.
  intros Hne Hr. rewrite merge_pass_flat.
  2:{ cbn. apply NoDup_cons. split; [by intros ->%list_elem_of_singleton|].
      apply NoDup_singleton. }
  cbn [ordered_pairs slots mbind list_bind fmap list_fmap length seq app
       foldl fst snd].
  assert (Hne' : link2 ≠ link1) by auto.
  assert (Hcc : shorter (shorter a b) (shorter a b) = shorter a b).
  { generalize (shorter a b). intros c. unfold shorter. by case_bool_decide. }
  assert (Hget1 : ∀ x y, slot_get [(link1, [x]); (link2, [y])] link1 0 = Some x).
  { intros x y. unfold slot_get, kwds_of. simpl. by rewrite decide_True. }
  assert (Hget2 : ∀ x y, slot_get [(link1, [x]); (link2, [y])] link2 0 = Some y).
  { intros x y. unfold slot_get, kwds_of. simpl.
    rewrite decide_False by done. by rewrite decide_True. }
  assert (Hset1 : ∀ x y z, slot_set [(link1, [x]); (link2, [y])] link1 0 z
                           = [(link1, [z]); (link2, [y])]).
  { intros x y z. unfold slot_set. simpl. rewrite decide_True by done.
    simpl. by rewrite decide_True. }
  assert (Hset2 : ∀ x y z, slot_set [(link1, [x]); (link2, [y])] link2 0 z
                           = [(link1, [x]); (link2, [z])]).
  { intros x y z. unfold slot_set. simpl. rewrite decide_False by done.
    rewrite decide_True by done. simpl. rewrite decide_False by done.
    by rewrite decide_True. }
  unfold merge_step.
  rewrite (bool_decide_eq_true_2 (link1 = link1 ∧ 0 = 0)) by done.
  rewrite (bool_decide_eq_false_2 (link1 = link2 ∧ 0 = 0)) by (by intros [? _]).
  rewrite Hget1, Hget2, (bool_decide_eq_true_2 _ Hr), Hset1, Hset2.
  rewrite (bool_decide_eq_false_2 (link2 = link1 ∧ 0 = 0)) by (by intros [? _]).
  rewrite Hget1, Hget2.
  rewrite (bool_decide_eq_true_2 (link2 = link2 ∧ 0 = 0)) by done.
  case_bool_decide; [|done]. by rewrite Hcc, Hset2, Hset1.
Qed.
End merge_facts.

(** ** The reduction *)

Lemma reduction_keys d out : reduction d out → Dict.keys out = Dict.keys d.
Proof.
  unfold Dict.keys. induction 1 as [|kv kv' d out [Hk _] _ IH]; csimpl; [done|].
  by rewrite Hk, IH.
Qed.

Lemma reduction_get d out link ys :
  reduction d out → Dict.get out link = Some ys →
  ∃ ks, Dict.get d link = Some ks ∧ reduced ks ys.
Proof.
  induction 1 as [|[k ks] [k' ys'] d out [Hk Hr] _ IH]; simpl; [done|].
  simpl in Hk, Hr. subst k'.
  destruct (decide (link = k)); [|done].
  intros [= ->]. eauto.
Qed.

Lemma reduce_reduction `{!SetOrder} d :
  set_order_ok → reduction d (reduce d).
Proof.
  intros Hok. unfold reduction, reduce.
  apply Forall2_fmap_r, Forall_Forall2_diag.
  apply Forall_forall. intros [k ks] _. simpl. split; [done|]. apply Hok.
Qed.

Lemma reduce_keys `{!SetOrder} d : Dict.keys (reduce d) = Dict.keys d.
Proof.
  unfold reduce, Dict.keys. rewrite <- list_fmap_compose.
  by apply list_fmap_ext.
Qed.

Lemma remove_dups_order_ok : @set_order_ok remove_dups_order.
Proof.
  intros xs. split; [apply NoDup_remove_dups|].
  intros x. apply elem_of_remove_dups.
Qed.

Lemma reduced_length ks ys : reduced ks ys → length ys ≤ length ks.
Proof.
  intros [Hnd Hin]. rewrite <- (length_fmap fst ks).
  apply submseteq_length, NoDup_submseteq; [done|].
  intros x. apply Hin.
Qed.

Section simplify_facts.
Context `{!Similarity}.

(** The executable [simplify_keywords] is one of the behaviours the
    relation allows. *)
Lemma simplify_keywords_sound `{!SetOrder} keywords :
  set_order_ok →
  simplify_keywords_spec keywords (simplify_keywords keywords).
Proof. split; [done | by apply reduce_reduction]. Qed.

(** C1.  The merge pass is the left fold, over all ordered pairs of slots
    in loop order, of one comparison; every ordered pair of slots of the
    corpus is among them.  A comparison of two distinct slots whose strings
    have a ratio above 88 rewrites both slots to the shorter string (the
    first on equal lengths), each slot keeping its score, and touches no
    other slot; at a ratio of 88 or less it leaves the dictionary as it
    is. *)
Theorem merge_pass_pairwise (d : Dict.t Keywords) :
  NoDup (Dict.keys d) →
  merge_pass d = foldl merge_step d (ordered_pairs d) ∧
  (∀ s1 s2, (s1, s2) ∈ ordered_pairs d ↔
            is_Some (slot_get d s1.1 s1.2) ∧ is_Some (slot_get d s2.1 s2.2)) ∧
  ∀ (c : Dict.t Keywords) link1 i link2 j kw1 str1 kw2 str2,
    (link1, i) ≠ (link2, j) →
    slot_get c link1 i = Some (kw1, str1) →
    slot_get c link2 j = Some (kw2, str2) →
    let c' := merge_step c ((link1, i), (link2, j)) in
    let canon :=
      if bool_decide (String.length kw1 ≤ String.length kw2) then kw1 else kw2
    in
    ((88 < fuzz_ratio kw1 kw2)%Z →
       slot_get c' link1 i = Some (canon, str1) ∧
       slot_get c' link2 j = Some (canon, str2) ∧
       ∀ l k, (l, k) ≠ (link1, i) → (l, k) ≠ (link2, j) →
              slot_get c' l k = slot_get c l k) ∧
    ((fuzz_ratio kw1 kw2 ≤ 88)%Z → c' = c).
Proof.
  intros Hnd. split_and!.
  - by apply merge_pass_flat.
  - intros s1 s2. rewrite elem_of_ordered_pairs.
    by rewrite !elem_of_slots.
  - intros c link1 i link2 j kw1 str1 kw2 str2 Hne Hs1 Hs2.
    by apply merge_step_spec.
Qed.

(** C7.  [simplify_keywords] returns a mapping with the links of the
    input.  For every link, the returned list is a listing without
    repetition of exactly the strings its slots hold after the merge
    pass: it is no longer than the raw list, it is not empty when the raw
    list is not, and each of its elements sits in one of the link's slots
    (same position and score as in the raw list) and was the keyword of
    some slot of the raw corpus. *)
Theorem final_keywords_bounded `{!SetOrder} (keywords : Dict.t Keywords) :
  NoDup (Dict.keys keywords) →
  set_order_ok →
  let r := simplify_keywords keywords in
  Dict.keys (returned r) = Dict.keys keywords ∧
  ∀ link raw, Dict.get keywords link = Some raw →
    ∃ final, Dict.get (returned r) link = Some final ∧
      NoDup final ∧
      length final ≤ length raw ∧
      (∀ y, y ∈ final ↔
            ∃ i sc, slot_get (merge_pass keywords) link i = Some (y, sc)) ∧
      (raw ≠ [] → final ≠ []) ∧
      ∀ y, y ∈ final →
        (∃ i kw sc, raw !! i = Some (kw, sc) ∧
                    slot_get (mutated r) link i = Some (y, sc)) ∧
        holds keywords y.
Proof.
  intros Hnd Hset r.
  pose proof (reduce_reduction (merge_pass keywords) Hset) as Hred.
  change (reduction (mutated r) (returned r)) in Hred.
  assert (Hm : mutated r = merge_pass keywords) by done.
  assert (Hkeys : Dict.keys (returned r) = Dict.keys keywords).
  { rewrite (reduction_keys _ _ Hred), Hm. by apply merge_pass_keys. }
  split; [done|].
  intros link raw Hraw.
  assert (Hin : link ∈ Dict.keys (returned r)).
  { rewrite Hkeys. by eapply get_Some_keys. }
  apply keys_get_is_Some in Hin as [final Hfin]. exists final.
  destruct (reduction_get _ _ _ _ Hred Hfin) as (ks & Hks & Hr).
  assert (Hk1 : kwds_of (mutated r) link = ks)
    by (unfold kwds_of; by rewrite Hks).
  assert (Hk0 : kwds_of keywords link = raw)
    by (unfold kwds_of; by rewrite Hraw).
  assert (Hlen : length ks = length raw).
  { rewrite <- Hk1, <- Hk0, Hm. by apply merge_pass_length. }
  assert (Hslots : ∀ y, y ∈ final ↔
            ∃ i sc, slot_get (merge_pass keywords) link i = Some (y, sc)).
  { intros y. rewrite (proj2 Hr y), <- Hm. unfold slot_get. rewrite Hk1.
    rewrite list_elem_of_fmap. split.
    - intros ([y' sc] & -> & [i Hi]%list_elem_of_lookup). by exists i, sc.
    - intros (i & sc & Hi). exists (y, sc). split; [done|].
      by eapply list_elem_of_lookup_2. }
  split_and!; [done|apply Hr| |done| |].
  - rewrite <- Hlen. by apply reduced_length.
  - intros Hne ->. destruct ks as [|[kw sc] ks].
    + destruct raw; [done|]. simpl in Hlen. lia.
    + eapply not_elem_of_nil. apply (Hslots kw). exists 0, sc.
      rewrite <- Hm. unfold slot_get. by rewrite Hk1.
  - intros y Hy. apply Hr in Hy.
    apply list_elem_of_fmap in Hy as ([y' sc] & -> & Hy). simpl.
    apply list_elem_of_lookup in Hy as [i Hi].
    assert (Hs : slot_get (mutated r) link i = Some (y', sc)).
    { unfold slot_get. by rewrite Hk1. }
    split.
    * pose proof (merge_pass_scores keywords link Hnd) as Hsc.
      rewrite <- Hm, Hk1, Hk0 in Hsc.
      assert (Hri : raw.*2 !! i = Some sc).
      { rewrite <- Hsc, list_lookup_fmap, Hi. done. }
      rewrite list_lookup_fmap in Hri.
      destruct (raw !! i) as [[kw sc']|] eqn:Hrawi; [|done].
      simpl in Hri. injection Hri as ->. by exists i, kw, sc.
    * apply merge_pass_holds; [done|]. rewrite <- Hm. by exists link, i, sc.
Qed.

(** C10.  [simplify_keywords] changes its argument: afterwards the
    argument is what the comparisons, taken in loop order, made of it,
    under the old links, lengths and scores, and the returned mapping
    lists, per link, the strings of the changed argument.  On two links
    with one keyword each and a ratio above 88 the argument ends with the
    shorter string in both slots, so it differs from the raw input
    whenever the second string is not the shorter one. *)
Theorem simplify_keywords_in_place `{!SetOrder} (keywords : Dict.t Keywords) :
  NoDup (Dict.keys keywords) →
  set_order_ok →
  let r := simplify_keywords keywords in
  mutated r = foldl merge_step keywords (ordered_pairs keywords) ∧
  Dict.keys (mutated r) = Dict.keys keywords ∧
  (∀ link, (kwds_of (mutated r) link).*2 = (kwds_of keywords link).*2) ∧
  (∀ link final, Dict.get (returned r) link = Some final →
     ∀ y, y ∈ final ↔ y ∈ (kwds_of (mutated r) link).*1) ∧
  (∀ link1 link2 a b s1 s2,
     keywords = [(link1, [(a, s1)]); (link2, [(b, s2)])] →
     (88 < fuzz_ratio a b)%Z →
     mutated r = [(link1, [(shorter a b, s1)]); (link2, [(shorter a b, s2)])] ∧
     (String.length a ≤ String.length b → a ≠ b → mutated r ≠ keywords)).
Proof.
  intros Hnd Hset r.
  pose proof (reduce_reduction (merge_pass keywords) Hset) as Hred.
  change (reduction (mutated r) (returned r)) in Hred.
  assert (Hm : mutated r = merge_pass keywords) by done.
  split_and!.
  - rewrite Hm. by apply merge_pass_flat.
  - rewrite Hm. by apply merge_pass_keys.
  - intros link. rewrite Hm. by apply merge_pass_scores.
  - intros link final Hfin y.
    destruct (reduction_get _ _ _ _ Hred Hfin) as (ks & Hks & Hr).
    unfold kwds_of. rewrite Hks. apply Hr.
  - intros link1 link2 a b s1 s2 Hkw Hr.
    assert (Hne : link1 ≠ link2).
    { rewrite Hkw in Hnd. cbn in Hnd. apply NoDup_cons in Hnd as [Hni _].
      intros ->. apply Hni. left. }
    rewrite Hm, Hkw, merge_pass_two_links by done. split; [done|].
    intros Hlen Hab [= _ Heq]. apply Hab.
    unfold shorter in Heq. by rewrite bool_decide_eq_false_2 in Heq by lia.
Qed.
End simplify_facts.

Lemma neural_corpus_wf : NoDup (Dict.keys neural_corpus).
Proof. by apply (bool_decide_unpack _). Qed.

Lemma merge_pass_pairwise_witness :
  @merge_pass indel_similarity neural_corpus =
  foldl (@merge_step indel_similarity) neural_corpus
        (ordered_pairs neural_corpus).
Proof.
  exact (proj1 (@merge_pass_pairwise indel_similarity neural_corpus
                  neural_corpus_wf)).
Defined.

Lemma final_keywords_bounded_witness :
  ∃ final,
    Dict.get (returned (@simplify_keywords indel_similarity remove_dups_order
                          neural_corpus)) "https://b.com/z" = Some final ∧
    "neural network" ∈ final ∧ final ≠ [] ∧ length final ≤ 1.
Proof.
  destruct (proj2 (@final_keywords_bounded indel_similarity remove_dups_order
                     neural_corpus neural_corpus_wf remove_dups_order_ok)
              "https://b.com/z" [("neural networks", 0.5%float)] eq_refl)
    as (final & Hget & _ & Hlen & Hslots & Hne & _).
  exists final. split_and!; [exact Hget| |by apply Hne|exact Hlen].
  apply Hslots. exists 0, 0.5%float. vm_compute. reflexivity.
Defined.

Lemma simplify_keywords_in_place_witness :
  mutated (@simplify_keywords indel_similarity remove_dups_order
             neural_corpus)
  = [("https://a.com/x", [("neural network", 0.75%float)]);
     ("https://b.com/z", [("neural network", 0.5%float)])] ∧
  mutated (@simplify_keywords indel_similarity remove_dups_order
             neural_corpus) ≠ neural_corpus.
Proof.
  destruct (proj2 (proj2 (proj2 (proj2
              (@simplify_keywords_in_place indel_similarity remove_dups_order
                 neural_corpus neural_corpus_wf remove_dups_order_ok))))
              "https://a.com/x" "https://b.com/z"
              "neural network" "neural networks" 0.75%float 0.5%float
              eq_refl) as [Hmut Hdiff].
  - vm_compute. reflexivity.
  - split; [exact Hmut|]. apply Hdiff; [vm_compute; lia | discriminate].
Defined.

(** The merge example of the specification, run on the code. *)
Example neural_merge :
  mutated (@simplify_keywords indel_similarity remove_dups_order
             neural_corpus) =
  [("https://a.com/x", [("neural network", 0.75%float)]);
   ("https://b.com/z", [("neural network", 0.5%float)])].
Proof. vm_compute. reflexivity. Qed.

Example neural_ratio :
  indel_ratio "neural network" "neural networks" = 97%Z ∧
  indel_ratio "neural network" "database index" = 29%Z.
Proof. vm_compute. done. Qed.

(** ** More about the merge pass *)

Lemma reduction_get_inv d out link ks :
  reduction d out → Dict.get d link = Some ks →
  ∃ ys, Dict.get out link = Some ys ∧ reduced ks ys.
Proof.
  induction 1 as [|[k ks'] [k' ys'] d out [Hk Hr] _ IH]; simpl; [done|].
  simpl in Hk, Hr. subst k'.
  destruct (decide (link = k)); [|done].
  intros [= ->]. eauto.
Qed.

Lemma reduced_singleton kw sc ys : reduced [(kw, sc)] ys → ys = [kw].
Proof.
  intros [Hnd Hin]. cbn in Hin.
  destruct ys as [|y ys].
  - exfalso. eapply not_elem_of_nil. apply Hin. left.
  - assert (y = kw) as ->.
    { apply list_elem_of_singleton, Hin. left. }
    destruct ys as [|z ys]; [done|]. exfalso.
    assert (z = kw) as ->.
    { apply list_elem_of_singleton, Hin. right. left. }
    apply NoDup_cons in Hnd as [Hni _]. apply Hni. left.
Qed.

Lemma shorter_length a b :
  String.length (shorter a b) ≤ String.length a ∧
  String.length (shorter a b) ≤ String.length b.
Proof. unfold shorter. case_bool_decide; lia. Qed.

Section merge_extras.
Context `{!Similarity}.

(** X11.  A corpus without near-duplicates passes unchanged: when no two
    distinct slots hold strings with a ratio above 88, the merge pass
    leaves the argument as it was, and the returned lists are listings of
    the raw strings. *)
Theorem merge_pass_without_duplicates (keywords : Dict.t Keywords)
    (r : simplified) :
  NoDup (Dict.keys keywords) →
  (∀ l1 i l2 j kw1 s1 kw2 s2,
     (l1, i) ≠ (l2, j) →
     slot_get keywords l1 i = Some (kw1, s1) →
     slot_get keywords l2 j = Some (kw2, s2) →
     (fuzz_ratio kw1 kw2 ≤ 88)%Z) →
  simplify_keywords_spec keywords r →
  mutated r = keywords ∧ reduction keywords (returned r).
Proof.
  intros Hnd Hfar [Hm Hred].
  assert (Hsame : merge_pass keywords = keywords).
  { apply (merge_pass_ind (λ c, c = keywords)); [done..|].
    intros c [[l1 i] [l2 j]] _ ->. unfold merge_step.
    case_bool_decide as Hdiag; [done|].
    destruct (slot_get keywords l1 i) as [[kw1 s1]|] eqn:Hs1; [|done].
    destruct (slot_get keywords l2 j) as [[kw2 s2]|] eqn:Hs2; [|done].
    rewrite bool_decide_eq_false_2; [done|].
    assert ((fuzz_ratio kw1 kw2 ≤ 88)%Z); [|unfold THRESHOLD; lia].
    eapply (Hfar l1 i l2 j); [|done..].
    intros [= -> ->]. by apply Hdiag. }
  rewrite Hm, Hsame in *. done.
Qed.

(** Under [sentinel_safe] the merge pass leaves every slot that holds
    ["ERROR"] as it is, and so the one-keyword list of a failed link. *)
Lemma merge_pass_keeps_sentinel (keywords : Dict.t Keywords) :
  NoDup (Dict.keys keywords) →
  sentinel_safe keywords →
  ∀ l i sc, slot_get keywords l i = Some ("ERROR", sc) →
            slot_get (merge_pass keywords) l i = Some ("ERROR", sc).
Proof.
  intros Hnd Hsafe.
  assert (Hinv : (∀ kw, holds (merge_pass keywords) kw → holds keywords kw) ∧
                 ∀ l i sc, slot_get keywords l i = Some ("ERROR", sc) →
                           slot_get (merge_pass keywords) l i
                           = Some ("ERROR", sc)); [|by destruct Hinv].
  apply (merge_pass_ind (λ c,
    (∀ kw, holds c kw → holds keywords kw) ∧
    ∀ l i sc, slot_get keywords l i = Some ("ERROR", sc) →
              slot_get c l i = Some ("ERROR", sc))); [done..|].
  intros c p _ [Hheld Hkeep]. split.
  { intros kw Hkw. by apply Hheld, (merge_step_holds c p). }
  intros l i sc Hs. specialize (Hkeep l i sc Hs).
  destruct p as [[l1 i1] [l2 i2]]. unfold merge_step.
  case_bool_decide as Hdiag; [done|].
  destruct (slot_get c l1 i1) as [[kw1 s1]|] eqn:Hs1; [|done].
  destruct (slot_get c l2 i2) as [[kw2 s2]|] eqn:Hs2; [|done].
  case_bool_decide as Hratio; [|done].
  rewrite slot_get_two_writes by (rewrite ?Hs1, ?Hs2; eauto).
  assert (Hh1 : holds keywords kw1) by (apply Hheld; by exists l1, i1, s1).
  assert (Hh2 : holds keywords kw2) by (apply Hheld; by exists l2, i2, s2).
  destruct (decide ((l2, i2) = (l, i))) as [[= -> ->]|Hne2].
  - rewrite Hs2 in Hkeep. injection Hkeep as -> ->.
    destruct (decide (kw1 = "ERROR")) as [->|Hkw]; [done|].
    destruct (Hsafe kw1 Hh1 Hkw) as [_ Hlen]. specialize (Hlen Hratio).
    unfold shorter. rewrite bool_decide_eq_true_2; [done|]. cbn. lia.
  - destruct (decide ((l1, i1) = (l, i))) as [[= -> ->]|Hne1]; [|done].
    rewrite Hs1 in Hkeep. injection Hkeep as -> ->.
    destruct (decide (kw2 = "ERROR")) as [->|Hkw]; [done|].
    destruct (Hsafe kw2 Hh2 Hkw) as [Hlen _]. specialize (Hlen Hratio).
    unfold shorter. rewrite bool_decide_eq_false_2; [done|]. cbn. lia.
Qed.

Lemma merge_pass_keeps_failed (keywords : Dict.t Keywords) (link : string) :
  NoDup (Dict.keys keywords) →
  sentinel_safe keywords →
  Dict.get keywords link = Some [("ERROR", 0%float)] →
  Dict.get (merge_pass keywords) link = Some [("ERROR", 0%float)].
Proof.
  intros Hnd Hsafe Hlink.
  pose proof (merge_pass_keeps_sentinel keywords Hnd Hsafe) as Hkeep.
  assert (Hin : link ∈ Dict.keys (merge_pass keywords)).
  { rewrite merge_pass_keys by done. by eapply get_Some_keys. }
  apply keys_get_is_Some in Hin as [ks Hks]. rewrite Hks. f_equal.
  pose proof (merge_pass_length keywords link Hnd) as Hlen.
  specialize (Hkeep link 0 0%float).
  unfold slot_get, kwds_of in Hkeep, Hlen. rewrite Hks, Hlink in Hkeep, Hlen.
  simpl in Hkeep, Hlen. specialize (Hkeep eq_refl).
  destruct ks as [|x [|y ks]]; simplify_eq/=. done.
Qed.

(** X12.  The keyword list of a failed link survives the call when no
    keyword of the corpus can win a comparison against ["ERROR"]
    ([sentinel_safe]): the argument still holds [("ERROR", 0.0)] under the
    link, and the returned list is [["ERROR"]]. *)
Theorem sentinel_survives_merge (keywords : Dict.t Keywords) (r : simplified)
    (link : string) :
  NoDup (Dict.keys keywords) →
  sentinel_safe keywords →
  simplify_keywords_spec keywords r →
  Dict.get keywords link = Some [("ERROR", 0%float)] →
  Dict.get (mutated r) link = Some [("ERROR", 0%float)] ∧
  Dict.get (returned r) link = Some ["ERROR"].
Proof.
  intros Hnd Hsafe [Hm Hred] Hlink.
  assert (Hm0 : Dict.get (mutated r) link = Some [("ERROR", 0%float)]).
  { rewrite Hm. by apply merge_pass_keeps_failed. }
  split; [done|].
  destruct (reduction_get_inv _ _ _ _ Hred Hm0) as (ys & Hys & Hr).
  by rewrite Hys, (reduced_singleton _ _ _ Hr).
Qed.

(** X13.  Without that condition the sentinel can be rewritten: next to a
    link whose only keyword is shorter than ["ERROR"] and has a ratio
    above 88 with it, the failed link comes back with that keyword. *)
Theorem sentinel_can_be_rewritten (failed other kw : string) (sc : float)
    (r : simplified) :
  failed ≠ other →
  (88 < fuzz_ratio "ERROR" kw)%Z →
  String.length kw < 5 →
  simplify_keywords_spec
    [(failed, [("ERROR", 0%float)]); (other, [(kw, sc)])] r →
  Dict.get (returned r) failed = Some [kw].
Proof.
  intros Hne Hratio Hlen [Hm Hred].
  rewrite merge_pass_two_links in Hm by done.
  assert (Hsh : shorter "ERROR" kw = kw).
  { unfold shorter. rewrite bool_decide_eq_true_2; [done|]. cbn. lia. }
  rewrite Hsh in Hm.
  destruct (reduction_get_inv (mutated r) (returned r) failed
              [(kw, 0%float)] Hred) as (ys & Hys & Hr).
  { rewrite Hm. simpl. by rewrite decide_True. }
  by rewrite Hys, (reduced_singleton _ _ _ Hr).
Qed.

(** X14.  The pass only shortens: the string a slot holds afterwards is
    no longer than the one it held before, under the same score. *)
Theorem merge_pass_shortens (keywords : Dict.t Keywords) (link : string)
    (i : nat) (kw : string) (sc : float) :
  NoDup (Dict.keys keywords) →
  slot_get (merge_pass keywords) link i = Some (kw, sc) →
  ∃ raw, slot_get keywords link i = Some (raw, sc) ∧
         String.length kw ≤ String.length raw.
Proof.
  intros Hnd. revert link i kw sc.
  apply (merge_pass_ind (λ c, ∀ link i kw sc,
    slot_get c link i = Some (kw, sc) →
    ∃ raw, slot_get keywords link i = Some (raw, sc) ∧
           String.length kw ≤ String.length raw)); [done|eauto|].
  intros c [[l1 i1] [l2 i2]] _ IH link i kw sc. unfold merge_step.
  case_bool_decide as Hdiag; [apply IH|].
  destruct (slot_get c l1 i1) as [[kw1 s1]|] eqn:Hs1; [|apply IH].
  destruct (slot_get c l2 i2) as [[kw2 s2]|] eqn:Hs2; [|apply IH].
  case_bool_decide as Hratio; [|apply IH].
  rewrite slot_get_two_writes by (rewrite ?Hs1, ?Hs2; eauto).
  destruct (shorter_length kw1 kw2) as [Hl1 Hl2].
  destruct (decide ((l2, i2) = (link, i))) as [[= -> ->]|Hne2].
  - intros [= <- <-]. destruct (IH _ _ _ _ Hs2) as (raw & Hraw & Hlen).
    exists raw. split; [done|lia].
  - destruct (decide ((l1, i1) = (link, i))) as [[= -> ->]|Hne1]; [|apply IH].
    intros [= <- <-]. destruct (IH _ _ _ _ Hs1) as (raw & Hraw & Hlen).
    exists raw. split; [done|lia].
Qed.
End merge_extras.

Lemma plain_corpus_far l1 i l2 j kw1 s1 kw2 s2 :
  (l1, i) ≠ (l2, j) →
  @slot_get plain_corpus l1 i = Some (kw1, s1) →
  @slot_get plain_corpus l2 j = Some (kw2, s2) →
  (indel_ratio kw1 kw2 ≤ 88)%Z.
Proof.
  assert (Hslots : ∀ l n kw s, @slot_get plain_corpus l n = Some (kw, s) →
            (l, n, kw) = ("https://a.com/x", 0, "compiler") ∨
            (l, n, kw) = ("https://b.com/z", 0, "database")).
  { clear. intros l n kw s. unfold slot_get, kwds_of, plain_corpus.
    cbn [Dict.get].
    destruct (decide (l = "https://a.com/x")) as [->|_];
      [|destruct (decide (l = "https://b.com/z")) as [->|_]];
      cbn [default]; destruct n as [|[|n]]; intros [=]; subst; auto. }
  intros Hne [[= -> -> ->]|[= -> -> ->]]%Hslots
             [[= -> -> ->]|[= -> -> ->]]%Hslots.
  - by destruct Hne.
  - vm_compute. by intros ?.
  - vm_compute. by intros ?.
  - by destruct Hne.
Qed.

Lemma merge_pass_without_duplicates_witness :
  mutated (@simplify_keywords indel_similarity remove_dups_order plain_corpus)
  = plain_corpus.
Proof.
  refine (proj1 (@merge_pass_without_duplicates indel_similarity plain_corpus
                   _ _ plain_corpus_far
                   (@simplify_keywords_sound indel_similarity
                      remove_dups_order plain_corpus remove_dups_order_ok))).
  by apply (bool_decide_unpack _).
Defined.

Lemma failed_corpus_safe : @sentinel_safe indel_similarity failed_corpus.
Proof.
  intros kw (l & i & sc & Hs) Hkw.
  assert (kw = "neural network") as ->.
  { revert Hs. unfold slot_get, kwds_of, failed_corpus. cbn [Dict.get].
    destruct (decide (l = "https://a.com/gone")) as [->|_];
      [|destruct (decide (l = "https://a.com/x")) as [->|_]];
      cbn [default]; destruct i as [|[|i]]; intros [=]; subst; done. }
  split; vm_compute; by intros ?.
Qed.

Lemma sentinel_survives_merge_witness :
  Dict.get (returned (@simplify_keywords indel_similarity remove_dups_order
                        failed_corpus)) "https://a.com/gone"
  = Some ["ERROR"].
Proof.
  refine (proj2 (@sentinel_survives_merge indel_similarity failed_corpus _
                   "https://a.com/gone" _ failed_corpus_safe
                   (@simplify_keywords_sound indel_similarity
                      remove_dups_order failed_corpus remove_dups_order_ok)
                   _)).
  - by apply (bool_decide_unpack _).
  - reflexivity.
Defined.

Lemma sentinel_can_be_rewritten_witness :
  Dict.get
    (returned (@simplify_keywords indel_similarity remove_dups_order
                 [("https://a.com/gone", [("ERROR", 0%float)]);
                  ("https://a.com/short", [("EROR", 0.5%float)])]))
    "https://a.com/gone"
  = Some ["EROR"].
Proof.
  refine (@sentinel_can_be_rewritten indel_similarity "https://a.com/gone"
            "https://a.com/short" "EROR" 0.5%float _ _ _ _
            (@simplify_keywords_sound indel_similarity remove_dups_order _
               remove_dups_order_ok)).
  - done.
  - vm_compute. reflexivity.
  - vm_compute. lia.
Defined.

Lemma merge_pass_shortens_witness :
  ∃ raw, @slot_get neural_corpus "https://b.com/z" 0 = Some (raw, 0.5%float) ∧
         String.length "neural network" ≤ String.length raw.
Proof.
  refine (@merge_pass_shortens indel_similarity neural_corpus
            "https://b.com/z" 0 "neural network" 0.5%float
            neural_corpus_wf _).
  vm_compute. reflexivity.
Defined.

(** ** [get_content] *)

(** C4.  For a page that was fetched and reduced without an exception, the
    extractor returns the title when the plain text has fewer than 500
    characters, and the plain text itself when it has 500 or more. *)
Theorem get_content_fallback `{!Web} (link : string) (r : response)
    (html : string) :
  requests_get link [("User-Agent", USER_AGENT)] = Ok r →
  raise_for_status r = Ok () →
  summary (content r) = Ok html →
  (String.length (get_text html) < 500 →
     get_content link = Ok (title (content r))) ∧
  (500 ≤ String.length (get_text html) →
     get_content link = Ok (get_text html)).
Proof.
  intros Hget Hstatus Hsum. unfold get_content.
  rewrite Hget. simpl. rewrite Hstatus. simpl. rewrite Hsum. simpl.
  split; intros Hlen.
  - by rewrite bool_decide_eq_true_2.
  - by rewrite bool_decide_eq_false_2 by lia.
Qed.

Lemma get_content_fallback_witness :
  @get_content demo_web "https://a.com/short" = Ok "Short".
Proof.
  refine (proj1 (@get_content_fallback demo_web "https://a.com/short"
                   {| status_code := 200;
                      content := "<title>Short</title>tiny" |}
                   "<title>Short</title>tiny" _ _ _) _).
  - reflexivity.
  - reflexivity.
  - reflexivity.
  - vm_compute. lia.
Defined.

Example get_content_long :
  @get_content demo_web "https://a.com/long" = Ok (replicate_string 500 "a") ∧
  String.length (replicate_string 500 "a") = 500.
Proof. vm_compute. done. Qed.

Example get_content_raises :
  @get_content demo_web "https://a.com/gone" = Raise "ConnectionError".
Proof. reflexivity. Qed.

(** ** [group_links_by_domain] *)

Lemma append_nil_l (s : string) : "" +:+ s = s.
Proof. reflexivity. Qed.

Lemma append_cons a (p s : string) : String a p +:+ s = String a (p +:+ s).
Proof. reflexivity. Qed.

(** Unfolds the appends of concrete prefixes. *)
Ltac push_append := rewrite ?append_cons, ?append_nil_l.

Tactic Notation "push_append" "in" hyp(H) :=
  rewrite ?append_cons, ?append_nil_l in H.

Lemma strip_prefix_Some p s r : strip_prefix p s = Some r ↔ s = p +:+ r.
Proof.
  revert s. induction p as [|a p IH]; intros s; simpl; push_append.
  - split; congruence.
  - destruct s as [|b s]; [split; discriminate|].
    destruct (decide (a = b)) as [->|Hne].
    + rewrite IH. split; congruence.
    + split; [discriminate | congruence].
Qed.







Lemma keys_append_link acc domain link :
  Dict.keys (append_link acc domain link) =
  if decide (domain ∈ Dict.keys acc) then Dict.keys acc
  else Dict.keys acc ++ [domain].
Proof.
  unfold append_link. case_decide as Hin.
  - apply keys_set_present. by apply keys_get_is_Some.
  - apply keys_set_absent. by apply get_None_keys.
Qed.

Lemma get_append_link acc domain link d :
  default [] (Dict.get (append_link acc domain link) d) =
  default [] (Dict.get acc d) ++ (if decide (domain = d) then [link] else []).
Proof.
  unfold append_link. rewrite get_set.
  case_decide as Hd; [by subst|]. by rewrite app_nil_r.
Qed.

Lemma group_links_raise links acc :
  Exists (λ l, match_domain l = None) links →
  group_links links acc = Raise "AttributeError".
Proof.
  intros Hex. revert acc. induction Hex as [l links Hl|l links _ IH];
    intros acc; simpl.
  - by rewrite Hl.
  - destruct (match_domain l); [apply IH | done].
Qed.

Lemma group_links_ok links : ∀ acc,
  Forall (λ l, is_Some (match_domain l)) links →
  ∃ buckets, group_links links acc = Ok buckets ∧
    Dict.keys buckets =
      foldl (λ seen x, if decide (x ∈ seen) then seen else seen ++ [x])
            (Dict.keys acc) (omap match_domain links) ∧
    ∀ d, default [] (Dict.get buckets d) =
         default [] (Dict.get acc d)
         ++ filter (λ l, match_domain l = Some d) links.
Proof.
  induction links as [|l links IH]; intros acc Hall; simpl.
  - exists acc. split_and!; [done..|]. intros d. by rewrite app_nil_r.
  - apply Forall_cons in Hall as [[dom Hdom] Hall].
    rewrite Hdom. simpl.
    destruct (IH (append_link acc dom l) Hall) as (b & Hb & Hkeys & Hget).
    exists b. split_and!; [done| |].
    + rewrite Hkeys, keys_append_link. done.
    + intros d. rewrite Hget, get_append_link, <- app_assoc. f_equal.
      rewrite filter_cons. rewrite Hdom.
      destruct (decide (dom = d)) as [->|Hne].
      * by rewrite decide_True.
      * by rewrite decide_False by congruence.
Qed.






(** The grouping example of the specification. *)
Example group_demo_links :
  group_links_by_domain demo_links =
  Ok [("a.com", ["https://a.com/x"; "https://a.com/y"]);
      ("b.com", ["https://b.com/z"])].
Proof. reflexivity. Qed.

Lemma concat_set_app (acc : Dict.t (list string)) k x :
  concat (Dict.set acc k (default [] (Dict.get acc k) ++ x)).*2
  ≡ₚ concat acc.*2 ++ x.
Proof.
  induction acc as [|[k' v'] acc IH]; csimpl.
  - by rewrite app_nil_r.
  - destruct (decide (k = k')) as [->|Hne]; csimpl.
    + rewrite <- !app_assoc. f_equiv. apply Permutation_app_comm.
    + by rewrite IH, app_assoc.
Qed.

Lemma group_links_partition links : ∀ acc buckets,
  group_links links acc = Ok buckets →
  concat buckets.*2 ≡ₚ concat acc.*2 ++ links ∧
  (Forall (λ kv, kv.2 ≠ []) acc → Forall (λ kv, kv.2 ≠ []) buckets).
Proof.
  induction links as [|l links IH]; intros acc buckets; simpl.
  - intros [= <-]. by rewrite app_nil_r.
  - destruct (match_domain l) as [dom|]; [|done].
    intros Hb. destruct (IH _ _ Hb) as [Hperm Hne]. split.
    + rewrite Hperm. unfold append_link. rewrite concat_set_app.
      by rewrite <- app_assoc.
    + intros Hacc. apply Hne. unfold append_link.
      clear -Hacc. induction acc as [|[k' v'] acc IHacc]; simpl.
      * by repeat constructor.
      * apply Forall_cons in Hacc as [Hv Hacc].
        destruct (decide (dom = k')) as [->|Hk]; simpl.
        -- constructor; [|done]. simpl. by destruct v'.
        -- constructor; [done|]. by apply IHacc.
Qed.

(** X15.  Grouping is a partition of the links: the buckets together hold
    exactly the links of the input, each as often as it occurs in it; no
    bucket is empty; and every link sits in the bucket of its own
    domain. *)
Theorem grouping_partitions (links : Dict.t string)
    (buckets : Dict.t (list string)) :
  group_links_by_domain links = Ok buckets →
  concat buckets.*2 ≡ₚ links.*2 ∧
  Forall (λ kv, kv.2 ≠ []) buckets ∧
  ∀ domain ls link, Dict.get buckets domain = Some ls → link ∈ ls →
    link ∈ links.*2 ∧ match_domain link = Some domain.
Proof.
  intros Hb. unfold group_links_by_domain in Hb.
  destruct (group_links_partition _ _ _ Hb) as [Hperm Hne].
  split_and!; [done|by apply Hne|].
  intros domain ls link Hget Hin.
  assert (Hall : Forall (λ l, is_Some (match_domain l)) links.*2).
  { apply Forall_forall. intros l Hl.
    destruct (match_domain l) eqn:Hm; [eauto|].
    rewrite group_links_raise in Hb; [done|].
    apply Exists_exists. eauto. }
  destruct (group_links_ok links.*2 [] Hall) as (b & Hb' & _ & Hfilter).
  rewrite Hb in Hb'. injection Hb' as <-.
  specialize (Hfilter domain). rewrite Hget in Hfilter. simpl in Hfilter.
  rewrite Hfilter in Hin. by apply list_elem_of_filter in Hin as [? ?].
Qed.

Lemma grouping_partitions_witness :
  concat [("a.com", ["https://a.com/x"; "https://a.com/y"]);
          ("b.com", ["https://b.com/z"])].*2 ≡ₚ demo_links.*2.
Proof.
  refine (proj1 (grouping_partitions demo_links _ _)). reflexivity.
Defined.

Example group_rejects :
  match_domain "ftp://a.com/x" = None ∧
  match_domain "http:///x" = None ∧
  match_domain "https://a.com" = Some "a.com" ∧
  match_domain "http://a.com:8080/x?y" = Some "a.com:8080".
Proof. done. Qed.

(** ** The cache store *)

Lemma set_absent_app {V} (d : Dict.t V) k v :
  k ∉ Dict.keys d → Dict.set d k v = d ++ [(k, v)].
Proof.
  unfold Dict.keys. induction d as [|[k' v'] r IH]; csimpl; [done|].
  intros [Hne Hni]%not_elem_of_cons.
  rewrite decide_False by done. by rewrite IH.
Qed.

Lemma update_app {V} (kvs : list (string * V)) : ∀ acc,
  NoDup (Dict.keys (acc ++ kvs)) → Dict.update acc kvs = acc ++ kvs.
Proof.
  unfold Dict.update.
  induction kvs as [|[k v] kvs IH]; intros acc Hnd; simpl.
  - by rewrite app_nil_r.
  - assert (Hni : k ∉ Dict.keys acc).
    { unfold Dict.keys in *. rewrite fmap_app in Hnd.
      apply NoDup_app in Hnd as (_ & Hdis & _).
      intros Hin. apply (Hdis k Hin). csimpl. left. }
    rewrite set_absent_app by done.
    rewrite IH; rewrite <- app_assoc; done.
Qed.

Lemma update_nil {V} (kvs : list (string * V)) :
  NoDup (Dict.keys kvs) → Dict.update [] kvs = kvs.
Proof. intros Hnd. by rewrite update_app. Qed.

Lemma get_Permutation {V} (d d' : Dict.t V) k :
  NoDup (Dict.keys d) → d ≡ₚ d' → Dict.get d k = Dict.get d' k.
Proof.
  intros Hnd Hp.
  assert (Hnd' : NoDup (Dict.keys d')).
  { unfold Dict.keys in *. by rewrite <- Hp. }
  destruct (Dict.get d k) as [v|] eqn:E.
  - symmetry. apply get_elem_of; [done|]. rewrite <- Hp. by apply elem_of_get.
  - destruct (Dict.get d' k) as [v'|] eqn:E'; [|done].
    apply elem_of_get in E'. rewrite <- Hp in E'.
    apply get_elem_of in E'; [congruence | done].
Qed.

Global Instance key_le_total {A} : Total (@key_le A).
Proof.
  intros [k1 v1] [k2 v2]. unfold key_le. simpl.
  destruct (String.leb_total k1 k2) as [-> | ->]; [by left | by right].
Qed.

Lemma sort_keys_spec {A} (kvs : list (string * A)) :
  Sorted key_le (sort_keys kvs) ∧ sort_keys kvs ≡ₚ kvs.
Proof.
  split; [apply Sorted_merge_sort, _ | apply merge_sort_Permutation].
Qed.

Lemma keywords_of_to_json (kws : Keywords) : of_json (to_json kws) = Some kws.
Proof.
  simpl. apply mapM_Some. apply Forall2_fmap_l, Forall_Forall2_diag.
  apply Forall_forall. by intros [kw sc] _.
Qed.

Section cache_facts.
Context `{!Json} {V : Type} `{!Jsonable V}.
Hypothesis of_to_json : ∀ v : V, of_json (to_json v) = Some v.

Lemma typed_encoded_items (cache : Dict.t V) :
  typed_items ((λ kv, (Some kv.1, kv.2)) <$>
               ((λ kv, (kv.1, to_json kv.2)) <$> sort_keys cache))
  = Some (sort_keys cache).
Proof.
  unfold typed_items. apply mapM_Some.
  rewrite <- list_fmap_compose.
  apply Forall2_fmap_l, Forall_Forall2_diag.
  apply Forall_forall. intros [k v] _. simpl. by rewrite of_to_json.
Qed.

Lemma load_update_cache path (cache : Dict.t V) (fs : filesystem) :
  NoDup (Dict.keys cache) →
  json_loads (json_dumps (encode_dict cache)) = Some (encode_dict cache) →
  ∃ d, load_cache path (update_cache path cache fs) = Ok (ManagerDict d) ∧
       Dict.equiv d cache.
Proof.
  intros Hnd Hcodec. unfold load_cache, update_cache.
  rewrite get_set_eq, Hcodec. unfold encode_dict.
  cbv beta iota delta [update_items mbind result_bind].
  rewrite typed_encoded_items.
  destruct (sort_keys_spec cache) as [_ Hperm].
  exists (sort_keys cache). split.
  - rewrite update_nil; [done|]. unfold Dict.keys. by rewrite Hperm.
  - intros k. symmetry. by apply get_Permutation.
Qed.

Lemma update_cache_sorted path (cache : Dict.t V) (fs : filesystem) :
  ∃ kvs, Dict.get (update_cache path cache fs) path
           = Some (json_dumps (JObject kvs)) ∧
         Sorted key_le kvs ∧
         kvs ≡ₚ (λ kv, (kv.1, to_json kv.2)) <$> cache.
Proof.
  exists ((λ kv, (kv.1, to_json kv.2)) <$> sort_keys cache).
  destruct (sort_keys_spec cache) as [Hs Hperm]. split_and!.
  - unfold update_cache. by rewrite get_set_eq.
  - clear Hperm. induction Hs as [|kv l Hl IH Hhd]; csimpl; constructor; [done|].
    destruct Hhd; csimpl; by constructor.
  - by rewrite Hperm.
Qed.
End cache_facts.

(** C6.  Loading finds the empty mapping when the file is absent.  A
    mapping that is persisted and loaded again comes back equal as a
    mapping, for both stores, whenever [json.loads] reads back the document
    [json.dumps] printed.  What is persisted is one JSON object with a
    member for every entry of the mapping, in ascending key order. *)
Theorem cache_round_trip `{!Json} (fs : filesystem) :
  (Dict.get fs "content_cache.txt" = None →
     load_content_cache fs = Ok (PlainDict [])) ∧
  (Dict.get fs "keywords_cache.txt" = None →
     load_keywords_cache fs = Ok (PlainDict [])) ∧
  (∀ cache : Dict.t string,
     NoDup (Dict.keys cache) →
     json_loads (json_dumps (encode_dict cache)) = Some (encode_dict cache) →
     ∃ d, load_content_cache (update_content_cache cache fs)
            = Ok (ManagerDict d) ∧ Dict.equiv d cache) ∧
  (∀ cache : Dict.t Keywords,
     NoDup (Dict.keys cache) →
     json_loads (json_dumps (encode_dict cache)) = Some (encode_dict cache) →
     ∃ d, load_keywords_cache (update_keywords_cache cache fs)
            = Ok (ManagerDict d) ∧ Dict.equiv d cache) ∧
  (∀ cache : Dict.t string,
     ∃ kvs, Dict.get (update_content_cache cache fs) "content_cache.txt"
              = Some (json_dumps (JObject kvs)) ∧
            Sorted key_le kvs ∧
            kvs ≡ₚ (λ kv, (kv.1, JString kv.2)) <$> cache) ∧
  (∀ cache : Dict.t Keywords,
     ∃ kvs, Dict.get (update_keywords_cache cache fs) "keywords_cache.txt"
              = Some (json_dumps (JObject kvs)) ∧
            Sorted key_le kvs ∧
            kvs ≡ₚ (λ kv, (kv.1, to_json kv.2)) <$> cache).
Proof.
  split_and!.
  - intros Hno. unfold load_content_cache, load_cache. by rewrite Hno.
  - intros Hno. unfold load_keywords_cache, load_cache. by rewrite Hno.
  - intros cache. by apply load_update_cache.
  - intros cache. apply load_update_cache. apply keywords_of_to_json.
  - intros cache. exact (update_cache_sorted "content_cache.txt" cache fs).
  - intros cache. exact (update_cache_sorted "keywords_cache.txt" cache fs).
Qed.

(** What [d.update] makes of documents that are not objects of the
    declared type. *)
Example load_cache_documents :
  @load_content_cache (reads_as (JArray [])) [("content_cache.txt", "[]")]
  = Ok (ManagerDict []) ∧
  @load_content_cache
    (reads_as (JArray [JArray [JString "k"; JString "v"]; JString "ab"]))
    [("content_cache.txt", "")]
  = Ok (ManagerDict [("k", "v"); ("a", "b")]) ∧
  @load_keywords_cache (reads_as (JObject [("a", JArray [])]))
    [("keywords_cache.txt", "")]
  = Ok (ManagerDict [("a", [])]) ∧
  @load_content_cache (reads_as (JObject [("a", JArray [])]))
    [("content_cache.txt", "")]
  = Raise UNTYPED ∧
  @load_content_cache (reads_as JNull) [("content_cache.txt", "null")]
  = Raise "TypeError" ∧
  @load_content_cache (reads_as (JArray [JArray [JString "k"]]))
    [("content_cache.txt", "")]
  = Raise "ValueError" ∧
  @load_content_cache demo_json [("content_cache.txt", "{")]
  = Raise "JSONDecodeError".
Proof. vm_compute. done. Qed.

(** ** [process_link] *)

Section store_facts.
Context {V : Type}.
Implicit Types (m : mapping V) (own d : Dict.t V).

Lemma dict_of_put m k v : dict_of (put m k v) = Dict.set (dict_of m) k v.
Proof. by destruct m. Qed.

Lemma get_put m k v key :
  Dict.get (dict_of (put m k v)) key =
  if decide (k = key) then Some v else Dict.get (dict_of m) key.
Proof. rewrite dict_of_put. apply get_set. Qed.

Lemma view_put_keys m own k v key :
  key ∈ Dict.keys (view m own) → key ∈ Dict.keys (view (put m k v) own).
Proof.
  destruct m; simpl; [done|].
  rewrite <- !mem_true, mem_set. auto.
Qed.

Lemma store_keys m own k v key :
  key ∈ Dict.keys (view m own) →
  key ∈ Dict.keys (view (store m own k v).1 (store m own k v).2).
Proof. destruct m; simpl; rewrite <- !mem_true, mem_set; auto. Qed.

Lemma store_keys_other m own own' k v key :
  key ∈ Dict.keys (view m own') →
  key ∈ Dict.keys (view (store m own k v).1 own').
Proof.
  destruct m; simpl; [done|]. rewrite <- !mem_true, mem_set; auto.
Qed.

Lemma store_keys_new m own k v :
  k ∈ Dict.keys (view (store m own k v).1 (store m own k v).2).
Proof. destruct m; simpl; rewrite <- !mem_true, mem_set; auto. Qed.

Lemma get_store m own k v key :
  k ≠ key →
  Dict.get (dict_of (store m own k v).1) key = Dict.get (dict_of m) key.
Proof. intros Hne. destruct m; simpl; [done|]. by apply get_set_ne. Qed.

Lemma store_plain d own k v : (store (PlainDict d) own k v).1 = PlainDict d.
Proof. done. Qed.

Lemma is_proxy_put m k v : is_proxy (put m k v) = is_proxy m.
Proof. by destruct m. Qed.

Lemma is_proxy_store m own k v : is_proxy (store m own k v).1 = is_proxy m.
Proof. by destruct m. Qed.

Lemma view_plain m own : is_proxy m = false → view m own = own.
Proof. by destruct m. Qed.

Lemma view_proxy m own : is_proxy m = true → view m own = dict_of m.
Proof. by destruct m. Qed.

Lemma store_manager d own k v :
  dict_of (store (ManagerDict d) own k v).1 = Dict.set d k v.
Proof. done. Qed.
End store_facts.

(** Takes a step of [process_link] apart, one goal per way through it. *)
Ltac step_cases sh t :=
  unfold process_link, at_pc;
  destruct (t_pc t) eqn:?; simpl;
  repeat (case_match; simpl);
  simplify_eq/=.

(** Replaces the components of a destructed [store] by the [store]. *)
Ltac restore :=
  repeat match goal with
  | H : store ?m ?own ?k ?v = (?m', ?own') |- _ =>
      assert (m' = (store m own k v).1) as -> by (by rewrite H);
      assert (own' = (store m own k v).2) as -> by (by rewrite H);
      clear H
  end.

Section process_link_facts.
Context `{!Web, !Extractor}.
Implicit Types (sh : caches) (t : task).

Lemma process_link_link sh t : t_link (process_link sh t).1.2 = t_link t.
Proof. step_cases sh t; done. Qed.

Lemma process_link_ready sh t :
  ready t = true → process_link sh t = (sh, t, []).
Proof. unfold ready. step_cases sh t; done. Qed.

(** A step changes no entry of another link. *)
Lemma process_link_frame sh t key :
  key ≠ t_link t →
  Dict.get (dict_of (contents (process_link sh t).1.1)) key
    = Dict.get (dict_of (contents sh)) key ∧
  Dict.get (dict_of (keywords (process_link sh t).1.1)) key
    = Dict.get (dict_of (keywords sh)) key.
Proof.
  intros Hne. step_cases sh t; restore; try done.
  - split; [|done]. by apply get_store.
  - split; [done|]. by apply get_store.
Qed.

(** What a step writes: nothing, or the fetched text, or the extracted
    keywords, under the task's own link, into the shared dictionary. *)
Lemma process_link_writes sh t key :
  (Dict.get (dict_of (contents (process_link sh t).1.1)) key
     = Dict.get (dict_of (contents sh)) key ∨
   key = t_link t ∧ t_pc t = AtFetch ∧
   (∃ d, contents sh = ManagerDict d) ∧
   ∃ text, get_content key = Ok text ∧
     Dict.get (dict_of (contents (process_link sh t).1.1)) key = Some text) ∧
  (Dict.get (dict_of (keywords (process_link sh t).1.1)) key
     = Dict.get (dict_of (keywords sh)) key ∨
   key = t_link t ∧
   (∃ d, keywords sh = ManagerDict d) ∧
   ∃ kws, t_pc t = AtStore kws ∧
     Dict.get (dict_of (keywords (process_link sh t).1.1)) key = Some kws).
Proof.
  destruct (decide (key = t_link t)) as [->|Hne].
  2:{ destruct (process_link_frame sh t key Hne). auto. }
  step_cases sh t; restore; auto.
  - split; [|auto]. destruct (contents sh) as [d|d] eqn:Hc; simpl; [auto|].
    right. split_and!; eauto. eexists. split; [done|]. apply get_set_eq.
  - split; [auto|]. destruct (keywords sh) as [d|d] eqn:Hk; simpl; [auto|].
    right. split_and!; eauto. eexists. split; [done|]. apply get_set_eq.
Qed.

(** A plain dictionary of the dispatcher is out of the tasks' reach. *)
Lemma process_link_plain sh t :
  (∀ d, contents sh = PlainDict d →
        contents (process_link sh t).1.1 = PlainDict d) ∧
  (∀ d, keywords sh = PlainDict d →
        keywords (process_link sh t).1.1 = PlainDict d).
Proof.
  step_cases sh t; restore; split; intros d Hd; try done.
  - by rewrite Hd.
  - by rewrite Hd.
Qed.

(** The views only gain entries: through the task's own step... *)
Lemma process_link_view_self sh t :
  (∀ key, key ∈ Dict.keys (view (contents sh) (t_contents t)) →
     key ∈ Dict.keys (view (contents (process_link sh t).1.1)
                           (t_contents (process_link sh t).1.2))) ∧
  (∀ key, key ∈ Dict.keys (view (keywords sh) (t_keywords t)) →
     key ∈ Dict.keys (view (keywords (process_link sh t).1.1)
                           (t_keywords (process_link sh t).1.2))).
Proof.
  step_cases sh t; restore; split; intros key Hkey; try done;
    by apply store_keys.
Qed.

(** ... and through the step of another task. *)
Lemma process_link_view_other sh t :
  (∀ own key, key ∈ Dict.keys (view (contents sh) own) →
     key ∈ Dict.keys (view (contents (process_link sh t).1.1) own)) ∧
  (∀ own key, key ∈ Dict.keys (view (keywords sh) own) →
     key ∈ Dict.keys (view (keywords (process_link sh t).1.1) own)).
Proof.
  step_cases sh t; restore; split; intros own key Hkey; try done;
    by apply store_keys_other.
Qed.

(** A task comes to fetch only past a failed membership test. *)
Lemma process_link_to_fetch sh t :
  t_pc (process_link sh t).1.2 = AtFetch →
  t_pc t = AtFetch ∨
  t_link t ∉ Dict.keys (view (contents sh) (t_contents t)).
Proof.
  step_cases sh t; restore; intros Hpc; try congruence; auto.
  right. rewrite <- mem_true. congruence.
Qed.

Lemma process_link_to_extract sh t :
  t_pc (process_link sh t).1.2 = AtExtract →
  t_pc t = AtExtract ∨
  t_link t ∉ Dict.keys (view (keywords sh) (t_keywords t)).
Proof.
  step_cases sh t; restore; intros Hpc; try congruence; auto.
  right. rewrite <- mem_true. congruence.
Qed.

Lemma process_link_events sh t ev :
  ev ∈ (process_link sh t).2 →
  ev = Fetch (t_link t) ∧ t_pc t = AtFetch ∨
  ev = Extract (t_link t) ∧ t_pc t = AtExtract.
Proof.
  step_cases sh t; restore;
    try (by intros ?%elem_of_nil);
    intros ->%list_elem_of_singleton; auto.
Qed.
End process_link_facts.

(** ** The dispatcher *)

Section dispatcher_facts.
Context `{!Web, !Extractor, !Json}.
Implicit Types (st : pool) (sh : caches) (ts : list task).

Lemma failed_in_cons ts r rs key :
  failed_in ts rs key → failed_in ts (r :: rs) key.
Proof. intros (k & t & e & Hin & Ht & He). exists k, t, e. by split; [right|]. Qed.

Lemma poll_result_cases ts sh r :
  (poll_result ts sh r = sh ∧ ¬ failed_in ts [r] r.2) ∨
  (poll_result ts sh r =
     {| contents := put (contents sh) r.2 "";
        keywords := put (keywords sh) r.2 ERROR |} ∧
   failed_in ts [r] r.2).
Proof.
  unfold poll_result. destruct r as [k l]. simpl.
  destruct (ts !! k) as [t|] eqn:Ht; simpl.
  - destruct (t_pc t) eqn:Hpc;
      try (left; split; [done|];
           intros (k' & t' & e' & Hin & Ht' & He');
           apply list_elem_of_singleton in Hin; simplify_eq; congruence).
    right. split; [done|]. exists k, t, e. by split; [left|].
  - left. split; [done|]. intros (k' & t' & e' & Hin & Ht' & He').
    apply list_elem_of_singleton in Hin. simplify_eq.
Qed.

(** The loop of lines 141-148 writes sentinels, under links of failed
    tasks, and nothing else. *)
Lemma poll_results_writes ts rs : ∀ sh key,
  let sh' := foldl (poll_result ts) sh rs in
  (Dict.get (dict_of (contents sh')) key = Dict.get (dict_of (contents sh)) key ∨
   Dict.get (dict_of (contents sh')) key = Some "" ∧ failed_in ts rs key) ∧
  (Dict.get (dict_of (keywords sh')) key = Dict.get (dict_of (keywords sh)) key ∨
   Dict.get (dict_of (keywords sh')) key = Some ERROR ∧ failed_in ts rs key).
Proof.
  induction rs as [|r rs IH]; intros sh key; simpl; [auto|].
  destruct (IH (poll_result ts sh r) key) as [Hc Hk].
  destruct (poll_result_cases ts sh r) as [[Heq _]|[Heq Hf]];
    rewrite Heq in *; clear Heq.
  - split; [destruct Hc as [?|[? ?]]|destruct Hk as [?|[? ?]]];
      auto using failed_in_cons.
  - simpl in Hc, Hk. rewrite get_put in Hc. rewrite get_put in Hk.
    assert (Hf' : failed_in ts (r :: rs) r.2).
    { destruct Hf as (k & t & e & Hin & Ht & He).
      apply list_elem_of_singleton in Hin.
      exists k, t, e. split; [|done]. rewrite Hin. left. }
    destruct (decide (r.2 = key)) as [<-|Hne].
    + split; [destruct Hc as [->|[? ?]]|destruct Hk as [->|[? ?]]];
        auto using failed_in_cons.
    + split; [destruct Hc as [?|[? ?]]|destruct Hk as [?|[? ?]]];
        auto using failed_in_cons.
Qed.

(** A sentinel, once under a link, outlasts the rest of the loop. *)
Lemma poll_results_keep ts rs : ∀ sh key,
  Dict.get (dict_of (contents sh)) key = Some "" →
  Dict.get (dict_of (keywords sh)) key = Some ERROR →
  let sh' := foldl (poll_result ts) sh rs in
  Dict.get (dict_of (contents sh')) key = Some "" ∧
  Dict.get (dict_of (keywords sh')) key = Some ERROR.
Proof.
  intros sh key Hc Hk.
  destruct (poll_results_writes ts rs sh key) as [[Hc'|[? _]] [Hk'|[? _]]];
    simpl; split; congruence.
Qed.

(** Every failed task among the pairs has its sentinels after the loop. *)
Lemma poll_results_sentinel ts rs : ∀ sh key,
  failed_in ts rs key →
  let sh' := foldl (poll_result ts) sh rs in
  Dict.get (dict_of (contents sh')) key = Some "" ∧
  Dict.get (dict_of (keywords sh')) key = Some ERROR.
Proof.
  induction rs as [|r rs IH]; intros sh key (k & t & e & Hin & Ht & He); simpl.
  - by apply elem_of_nil in Hin.
  - apply elem_of_cons in Hin as [<-|Hin].
    + apply poll_results_keep.
      * unfold poll_result. simpl. rewrite Ht. simpl. rewrite He. simpl.
        by rewrite get_put, decide_True.
      * unfold poll_result. simpl. rewrite Ht. simpl. rewrite He. simpl.
        by rewrite get_put, decide_True.
    + apply IH. by exists k, t, e.
Qed.

Lemma dispatcher_step_writes st key :
  let sh := shared st in
  let sh' := shared (dispatcher_step st) in
  (Dict.get (dict_of (contents sh')) key
     = Dict.get (dict_of (contents sh)) key ∨
   Dict.get (dict_of (contents sh')) key = Some "" ∧
   failed_in (tasks st) (results st) key) ∧
  (Dict.get (dict_of (keywords sh')) key
     = Dict.get (dict_of (keywords sh)) key ∨
   Dict.get (dict_of (keywords sh')) key = Some ERROR ∧
   failed_in (tasks st) (results st) key).
Proof.
  simpl. unfold dispatcher_step.
  destruct (control st) eqn:Hc; simpl; [|auto..].
  destruct (results st) as [|r rs] eqn:Hr; simpl; [auto|].
  apply (poll_results_writes (tasks st) (r :: rs)).
Qed.

(** The loop replaces no plain dictionary by a proxy or a proxy by a
    plain one. *)
Lemma poll_results_proxy ts rs : ∀ sh,
  let sh' := foldl (poll_result ts) sh rs in
  is_proxy (contents sh') = is_proxy (contents sh) ∧
  is_proxy (keywords sh') = is_proxy (keywords sh).
Proof.
  induction rs as [|r rs IH]; intros sh; simpl; [done|].
  destruct (IH (poll_result ts sh r)) as [Hc Hk]. rewrite Hc, Hk.
  destruct (poll_result_cases ts sh r) as [[Heq _]|[Heq _]];
    rewrite Heq; [done|].
  simpl. by rewrite !is_proxy_put.
Qed.
End dispatcher_facts.

(** ** Who writes the mappings *)

(** The dispatcher is not the only writer: with caches loaded from
    files, the worker that fetched the short page stores its text in the
    shared mapping itself. *)
Lemma worker_writes_cache :
  ¬ @dispatcher_only_writer demo_web demo_extractor demo_json.
Proof.
  intros Hclaim.
  pose (st := @run demo_web demo_extractor demo_json
                (match @process_links_start demo_json demo_parsed_links demo_disk
                 with Ok st0 => st0 | Raise _ =>
                   {| shared := {| contents := PlainDict []; keywords := PlainDict [] |};
                      tasks := []; results := []; control := AtWhile;
                      disk := []; log := [] |} end)
                [Worker 1]).
  assert (Hw : Worker 1 = Dispatcher); [|discriminate Hw].
  apply (Hclaim demo_parsed_links demo_disk [Worker 1] st); [reflexivity|].
  vm_compute. discriminate.
Qed.

(** X2.  A worker's step changes an entry of the mappings only
    by storing, under the link of its own task and in the shared
    dictionary of a proxy, the text it has just fetched or the keywords it
    has just extracted; a plain dictionary of the dispatcher it leaves
    alone.  A dispatcher's step changes an entry only by storing a
    sentinel under the link of a failed task. *)
Theorem cache_writers `{!Web, !Extractor, !Json} (st : pool) (key : string) :
  (∀ k t, tasks st !! k = Some t →
     let sh := shared st in
     let sh' := shared (step st (Worker k)) in
     (Dict.get (dict_of (contents sh')) key
        = Dict.get (dict_of (contents sh)) key ∨
      key = t_link t ∧ t_pc t = AtFetch ∧
      (∃ d, contents sh = ManagerDict d) ∧
      ∃ text, get_content key = Ok text ∧
        Dict.get (dict_of (contents sh')) key = Some text) ∧
     (Dict.get (dict_of (keywords sh')) key
        = Dict.get (dict_of (keywords sh)) key ∨
      key = t_link t ∧
      (∃ d, keywords sh = ManagerDict d) ∧
      ∃ kws, t_pc t = AtStore kws ∧
        Dict.get (dict_of (keywords sh')) key = Some kws) ∧
     (∀ d, contents sh = PlainDict d → contents sh' = PlainDict d) ∧
     (∀ d, keywords sh = PlainDict d → keywords sh' = PlainDict d)) ∧
  (∀ k, tasks st !! k = None → step st (Worker k) = st) ∧
  (let sh := shared st in
   let sh' := shared (step st Dispatcher) in
   (Dict.get (dict_of (contents sh')) key
      = Dict.get (dict_of (contents sh)) key ∨
    Dict.get (dict_of (contents sh')) key = Some "" ∧
    failed_in (tasks st) (results st) key) ∧
   (Dict.get (dict_of (keywords sh')) key
      = Dict.get (dict_of (keywords sh)) key ∨
    Dict.get (dict_of (keywords sh')) key = Some ERROR ∧
    failed_in (tasks st) (results st) key)).
Proof.
  split_and!.
  - intros k t Ht. simpl. unfold worker_step. rewrite Ht.
    destruct (process_link (shared st) t) as [[sh' t'] evs] eqn:Hstep. simpl.
    pose proof (process_link_writes (shared st) t key) as Hw.
    pose proof (process_link_plain (shared st) t) as Hp.
    rewrite Hstep in Hw, Hp. simpl in Hw, Hp.
    destruct Hw as [Hwc Hwk], Hp as [Hpc Hpk]. done.
  - intros k Ht. simpl. unfold worker_step. by rewrite Ht.
  - apply dispatcher_step_writes.
Qed.

(** ** Runs *)

Section run_facts.
Context `{!Web, !Extractor, !Json}.
Implicit Types (st : pool) (sh : caches) (ts : list task) (a : action).

Lemma worker_step_unfold k st t :
  tasks st !! k = Some t →
  worker_step k st =
  {| shared := (process_link (shared st) t).1.1;
     tasks := <[k := (process_link (shared st) t).1.2]> (tasks st);
     results := results st; control := control st; disk := disk st;
     log := log st ++ (process_link (shared st) t).2 |}.
Proof.
  intros Ht. unfold worker_step. rewrite Ht.
  by destruct (process_link (shared st) t) as [[sh' t'] evs].
Qed.

Lemma run_invariant (P : pool → Prop) st schedule :
  P st → (∀ st a, P st → P (step st a)) → P (run st schedule).
Proof. intros Hst Hstep. unfold run. apply foldl_invariant; auto. Qed.

Lemma run_app st s1 s2 : run st (s1 ++ s2) = run (run st s1) s2.
Proof. unfold run. apply foldl_app. Qed.

Lemma dispatcher_step_tasks st : tasks (dispatcher_step st) = tasks st.
Proof.
  unfold dispatcher_step. destruct (control st); [|done..].
  by destruct (results st).
Qed.

Lemma dispatcher_step_log st : log (dispatcher_step st) = log st.
Proof.
  unfold dispatcher_step. destruct (control st); [|done..].
  by destruct (results st).
Qed.

Lemma dispatcher_step_results st r :
  r ∈ results (dispatcher_step st) → r ∈ results st.
Proof.
  unfold dispatcher_step. destruct (control st); [|simpl|done].
  - by destruct (results st).
  - by intros [_ ?]%list_elem_of_filter.
Qed.

Lemma step_tasks_of links st a : tasks_of links st → tasks_of links (step st a).
Proof.
  intros [Hlinks Hres]. destruct a as [k|]; simpl.
  - destruct (tasks st !! k) as [t|] eqn:Ht.
    + rewrite (worker_step_unfold k st t Ht). split; simpl; [|done].
      rewrite list_fmap_insert, process_link_link.
      rewrite list_insert_id; [done|]. by rewrite list_lookup_fmap, Ht.
    + unfold worker_step. by rewrite Ht.
  - split.
    + by rewrite dispatcher_step_tasks.
    + intros k l Hin. by apply Hres, dispatcher_step_results.
Qed.

Lemma tasks_of_link links st k t :
  tasks_of links st → tasks st !! k = Some t → t_link t ∈ links.
Proof.
  intros [<- _] Ht. apply list_elem_of_fmap. exists t. split; [done|].
  by eapply list_elem_of_lookup_2.
Qed.

Lemma failed_in_links links st key :
  tasks_of links st → failed_in (tasks st) (results st) key → key ∈ links.
Proof.
  intros [_ Hres] (k & t & e & Hin & _). eapply list_elem_of_lookup_2, Hres, Hin.
Qed.

(** The loop of lines 141-148 takes no entry out of any view. *)
Lemma poll_results_view ts rs : ∀ sh,
  let sh' := foldl (poll_result ts) sh rs in
  (∀ (own : Dict.t string) key,
     key ∈ Dict.keys (view (contents sh) own) →
     key ∈ Dict.keys (view (contents sh') own)) ∧
  (∀ (own : Dict.t Keywords) key,
     key ∈ Dict.keys (view (keywords sh) own) →
     key ∈ Dict.keys (view (keywords sh') own)).
Proof.
  induction rs as [|r rs IH]; intros sh; simpl; [done|].
  destruct (IH (poll_result ts sh r)) as [Hc Hk].
  destruct (poll_result_cases ts sh r) as [[Heq _]|[Heq _]];
    rewrite Heq in *; clear Heq; [done|].
  simpl in *. split; intros own key Hkey.
  - by apply Hc, view_put_keys.
  - by apply Hk, view_put_keys.
Qed.

Lemma dispatcher_step_view st :
  (∀ (own : Dict.t string) key,
     key ∈ Dict.keys (view (contents (shared st)) own) →
     key ∈ Dict.keys (view (contents (shared (dispatcher_step st))) own)) ∧
  (∀ (own : Dict.t Keywords) key,
     key ∈ Dict.keys (view (keywords (shared st)) own) →
     key ∈ Dict.keys (view (keywords (shared (dispatcher_step st))) own)).
Proof.
  unfold dispatcher_step. destruct (control st); [|done..].
  destruct (results st) as [|r rs]; [done|]. simpl.
  apply (poll_results_view (tasks st) (r :: rs)).
Qed.

(** *** The loaded keyword cache survives (C9) *)

Lemma step_keeps_cache links k0 st a :
  tasks_of links st → keeps_cache links k0 st →
  keeps_cache links k0 (step st a).
Proof.
  intros Hwf [Hkeys Hvals]. destruct a as [k|]; simpl.
  - destruct (tasks st !! k) as [t|] eqn:Ht;
      [|unfold worker_step; by rewrite Ht].
    rewrite (worker_step_unfold k st t Ht). split; simpl.
    + intros key Hkey. specialize (Hkeys key Hkey).
      destruct (process_link_writes (shared st) t key) as [_ [Hw|Hw]].
      * apply keys_get_is_Some. rewrite Hw. by apply keys_get_is_Some.
      * destruct Hw as (_ & _ & kws & _ & Hget).
        apply keys_get_is_Some. rewrite Hget. eauto.
    + intros key Hkey. rewrite <- Hvals by done.
      apply process_link_frame. intros ->. apply Hkey.
      by eapply tasks_of_link.
  - pose proof (dispatcher_step_writes st) as Hw. split.
    + intros key Hkey. specialize (Hkeys key Hkey).
      destruct (Hw key) as (_ & [Hk|[Hk _]]); simpl in Hk;
        apply keys_get_is_Some; rewrite Hk; [by apply keys_get_is_Some|eauto].
    + intros key Hkey. rewrite <- Hvals by done.
      destruct (Hw key) as (_ & [Hk|[_ Hf]]); simpl in *; [done|].
      destruct Hkey. by eapply failed_in_links.
Qed.
(** *** Cached links are not processed again (C3) *)

Lemma step_hits_cache links c0 k0 st a :
  tasks_of links st → hits_cache links c0 k0 st →
  hits_cache links c0 k0 (step st a).
Proof.
  intros Hwf (Htasks & Hfetch & Hextract). destruct a as [k|]; simpl.
  - destruct (tasks st !! k) as [t|] eqn:Ht;
      [|unfold worker_step; by rewrite Ht].
    rewrite (worker_step_unfold k st t Ht).
    destruct (Htasks k t Ht) as (Hvc & Hvk & Hpf & Hpe).
    split_and!; simpl.
    + intros j tj Hj.
      apply list_lookup_insert_Some in Hj as [(<- & <- & _)|(Hne & Hj)].
      * rewrite process_link_link. split_and!.
        -- intros key Hkey. by apply process_link_view_self, Hvc.
        -- intros key Hkey. by apply process_link_view_self, Hvk.
        -- intros [?|Hni]%process_link_to_fetch; [auto|].
           intros Hin. by apply Hni, Hvc.
        -- intros [?|Hni]%process_link_to_extract; [auto|].
           intros Hin. by apply Hni, Hvk.
      * destruct (Htasks j tj Hj) as (Hvc' & Hvk' & Hpf' & Hpe').
        split_and!; [| |done..].
        -- intros key Hkey. by apply process_link_view_other, Hvc'.
        -- intros key Hkey. by apply process_link_view_other, Hvk'.
    + intros link [Hin|Hin]%elem_of_app; [auto|].
      apply process_link_events in Hin as [[[= ->] Hpc]|[[=] _]].
      split; [auto | by eapply tasks_of_link].
    + intros link [Hin|Hin]%elem_of_app; [auto|].
      apply process_link_events in Hin as [[[=] _]|[[= ->] Hpc]].
      split; [auto | by eapply tasks_of_link].
  - unfold hits_cache. rewrite dispatcher_step_log. split_and!; [|done..].
    intros j tj Hj. rewrite dispatcher_step_tasks in Hj.
    destruct (Htasks j tj Hj) as (Hvc & Hvk & Hpf & Hpe).
    split_and!; [| |done..].
    + intros key Hkey. by apply dispatcher_step_view, Hvc.
    + intros key Hkey. by apply dispatcher_step_view, Hvk.
Qed.

(** *** The state at the [while] loop *)

Lemma view_dict_of {V} (m : mapping V) : view m (dict_of m) = dict_of m.
Proof. by destruct m. Qed.

Lemma process_links_start_inv parsed_links fs st0 :
  process_links_start parsed_links fs = Ok st0 →
  let links := parsed_links.*2 in
  load_content_cache fs = Ok (contents (shared st0)) ∧
  load_keywords_cache fs = Ok (keywords (shared st0)) ∧
  tasks st0 = submit (shared st0) <$> links ∧
  results st0 = imap (λ i link, (i, link)) links ∧
  control st0 = AtWhile ∧ disk st0 = fs ∧ log st0 = [].
Proof.
  unfold process_links_start.
  destruct (load_content_cache fs) as [c|]; [|done].
  destruct (load_keywords_cache fs) as [k|]; [|done].
  simpl. by intros [= <-].
Qed.

Lemma start_tasks_of parsed_links fs st0 :
  process_links_start parsed_links fs = Ok st0 →
  tasks_of (parsed_links.*2) st0.
Proof.
  intros (_ & _ & Ht & Hr & _)%process_links_start_inv. split.
  - rewrite Ht, <- list_fmap_compose. apply list_fmap_id.
  - intros k l. rewrite Hr. by intros (? & ? & [= <- <-] & ?)%elem_of_lookup_imap.
Qed.

Lemma start_keeps_cache parsed_links fs st0 :
  process_links_start parsed_links fs = Ok st0 →
  keeps_cache (parsed_links.*2) (dict_of (keywords (shared st0))) st0.
Proof. done. Qed.

Lemma start_hits_cache parsed_links fs st0 :
  process_links_start parsed_links fs = Ok st0 →
  hits_cache (parsed_links.*2) (dict_of (contents (shared st0)))
             (dict_of (keywords (shared st0))) st0.
Proof.
  intros (_ & _ & Ht & _ & _ & _ & Hlog)%process_links_start_inv.
  split_and!.
  - intros k t. rewrite Ht, list_lookup_fmap.
    destruct (parsed_links.*2 !! k) as [l|]; [|done].
    intros [= <-]. simpl. by rewrite !view_dict_of.
  - intros link. rewrite Hlog. by intros ?%elem_of_nil.
  - intros link. rewrite Hlog. by intros ?%elem_of_nil.
Qed.

Lemma run_tasks_of parsed_links fs st0 schedule :
  process_links_start parsed_links fs = Ok st0 →
  tasks_of (parsed_links.*2) (run st0 schedule).
Proof.
  intros Hstart. apply run_invariant; [by eapply start_tasks_of|].
  intros st a. apply step_tasks_of.
Qed.
End run_facts.

(** ** The merge pass keeps the links, whatever the dictionary *)

Section merge_keys.
Context `{!Similarity}.

Lemma scan_corpus_keys link1 i str1 s :
  Dict.keys (scan_corpus link1 i str1 s).1 = Dict.keys s.1.
Proof.
  rewrite scan_corpus_flat.
  apply (foldl_invariant (λ s', Dict.keys s'.1 = Dict.keys s.1)); [done|].
  intros s' p _ <-. apply scan_step_shape.
Qed.

Lemma merge_slot_keys link1 i d :
  Dict.keys (merge_slot link1 i d) = Dict.keys d.
Proof.
  unfold merge_slot. destruct (slot_get d link1 i) as [[kw1 str1]|]; [|done].
  apply scan_corpus_keys.
Qed.

Lemma merge_list_keys link1 d : Dict.keys (merge_list link1 d) = Dict.keys d.
Proof.
  unfold merge_list.
  apply (foldl_invariant (λ d', Dict.keys d' = Dict.keys d)); [done|].
  intros d' i _ <-. apply merge_slot_keys.
Qed.

Lemma merge_pass_keys_any d : Dict.keys (merge_pass d) = Dict.keys d.
Proof.
  unfold merge_pass.
  apply (foldl_invariant (λ d', Dict.keys d' = Dict.keys d)); [done|].
  intros d' l _ <-. apply merge_list_keys.
Qed.

Lemma simplify_keywords_keys `{!SetOrder} d :
  Dict.keys (returned (simplify_keywords d)) = Dict.keys d.
Proof. simpl. by rewrite reduce_keys, merge_pass_keys_any. Qed.
End merge_keys.

Lemma encode_dict_keys {V} `{!Jsonable V} (d : Dict.t V) :
  ∃ kvs, encode_dict d = JObject kvs ∧ kvs.*1 ≡ₚ Dict.keys d.
Proof.
  eexists. split; [done|]. rewrite <- list_fmap_compose.
  destruct (sort_keys_spec d) as [_ Hp]. unfold Dict.keys.
  transitivity ((sort_keys d).*1); [|by rewrite Hp].
  erewrite list_fmap_ext; [reflexivity|done].
Qed.

(** ** Claims about whole runs *)

Section run_claims.
Context `{!Web, !Extractor, !Json}.

(** X1.  In every run, whatever the schedule: a link with an entry in the
    loaded content cache is never fetched, a link with an entry in the
    loaded keyword cache never has keywords extracted, and when every
    submitted link has both entries the run fetches and extracts
    nothing. *)
Theorem cached_links_not_processed (parsed_links : Dict.t string)
    (fs : filesystem) (schedule : list action) (st0 : pool) :
  process_links_start parsed_links fs = Ok st0 →
  let c0 := dict_of (contents (shared st0)) in
  let k0 := dict_of (keywords (shared st0)) in
  let st := run st0 schedule in
  (∀ link, link ∈ Dict.keys c0 → Fetch link ∉ log st) ∧
  (∀ link, link ∈ Dict.keys k0 → Extract link ∉ log st) ∧
  ((∀ link, link ∈ parsed_links.*2 →
      link ∈ Dict.keys c0 ∧ link ∈ Dict.keys k0) →
   log st = []).
Proof.
  intros Hstart c0 k0 st.
  assert (Hinv : tasks_of (parsed_links.*2) st ∧
                 hits_cache (parsed_links.*2) c0 k0 st).
  { apply run_invariant.
    - split; [by eapply start_tasks_of | by eapply start_hits_cache].
    - intros st' a [Hwf Hhit]. split;
        [by apply step_tasks_of | by apply step_hits_cache]. }
  destruct Hinv as (_ & _ & Hfetch & Hextract). split_and!.
  - intros link Hin Hlog. by apply Hfetch in Hlog as [? _].
  - intros link Hin Hlog. by apply Hextract in Hlog as [? _].
  - intros Hwarm. destruct (log st) as [|ev evs] eqn:Hlog; [done|].
    exfalso. destruct ev as [link|link].
    + destruct (Hfetch link) as [Hni Hin]; [left|].
      by apply Hni, Hwarm.
    + destruct (Hextract link) as [Hni Hin]; [left|].
      by apply Hni, Hwarm.
Qed.
End run_claims.

Lemma cached_links_not_processed_witness :
  Fetch "https://a.com/short" ∉
  log (@run demo_web demo_extractor demo_json
         {| shared := {| contents :=
                           ManagerDict [("https://a.com/short", "Short")];
                         keywords := ManagerDict [] |};
            tasks := @submit
                       {| contents :=
                            ManagerDict [("https://a.com/short", "Short")];
                          keywords := ManagerDict [] |}
                       <$> demo_parsed_links.*2;
            results := imap (λ i link, (i, link)) (demo_parsed_links.*2);
            control := AtWhile; disk := warm_disk; log := [] |}
         [Worker 1; Worker 1; Worker 1; Worker 1; Worker 1]).
Proof.
  refine (proj1 (@cached_links_not_processed demo_web demo_extractor demo_json
                   demo_parsed_links warm_disk
                   [Worker 1; Worker 1; Worker 1; Worker 1; Worker 1] _ _)
                "https://a.com/short" _).
  - reflexivity.
  - vm_compute. left.
Defined.

Example warm_run_log :
  log (@run demo_web demo_extractor demo_json
         (match @process_links_start demo_json demo_parsed_links warm_disk
          with Ok st0 => st0 | Raise _ =>
            {| shared := {| contents := PlainDict []; keywords := PlainDict [] |};
               tasks := []; results := []; control := AtWhile;
               disk := []; log := [] |} end)
         [Worker 0; Worker 0; Worker 1; Worker 1; Worker 1; Worker 1])
  = [Fetch "https://a.com/gone"; Extract "https://a.com/short"].
Proof. vm_compute. reflexivity. Qed.

Section main_claims.
Context `{!Web, !Extractor, !Json, !Similarity, !SetOrder, !Report}.

Lemma run_keeps_cache parsed_links fs st0 schedule :
  process_links_start parsed_links fs = Ok st0 →
  let k0 := dict_of (keywords (shared st0)) in
  ∀ ret, return_value (run st0 schedule) = Some ret →
    (∀ key, key ∈ Dict.keys k0 → key ∈ Dict.keys ret) ∧
    (∀ key, key ∉ parsed_links.*2 → Dict.get ret key = Dict.get k0 key).
Proof.
  intros Hstart k0.
  pose (P := λ st : pool,
    tasks_of (parsed_links.*2) st ∧ keeps_cache (parsed_links.*2) k0 st ∧
    ∀ ret, control st = Finished ret →
      (∀ key, key ∈ Dict.keys k0 → key ∈ Dict.keys ret) ∧
      (∀ key, key ∉ parsed_links.*2 → Dict.get ret key = Dict.get k0 key)).
  assert (HP : P (run st0 schedule)).
  { apply run_invariant.
    - split_and!; [by eapply start_tasks_of | by eapply start_keeps_cache|].
      apply process_links_start_inv in Hstart as (_ & _ & _ & _ & -> & _).
      done.
    - intros st a (Hwf & Hkeep & Hret).
      split_and!; [by apply step_tasks_of | by apply step_keeps_cache|].
      destruct a as [k|]; simpl.
      + destruct (tasks st !! k) as [t|] eqn:Ht;
          [|unfold worker_step; by rewrite Ht].
        by rewrite (worker_step_unfold k st t Ht).
      + unfold dispatcher_step.
        destruct (control st) eqn:Hc; simpl; [|done|by rewrite Hc].
        destruct (results st); simpl; [|done].
        intros ret [= <-]. apply Hkeep. }
  intros ret Hret. destruct HP as (_ & _ & HP). apply HP.
  unfold return_value in Hret. by destruct (control (run st0 schedule)); simplify_eq.
Qed.

(** X3.  The mapping [process_links] returns has every link of the
    loaded keyword cache, and the cached value of every link that was not
    submitted; [main] feeds that whole mapping to [simplify_keywords], and
    every cached link is a member of the object it writes to
    [keywords.json]. *)
Theorem cached_keywords_returned (parsed_links : Dict.t string)
    (fs : filesystem) (schedule : list action) (st0 : pool)
    (ret : Dict.t Keywords) :
  process_links_start parsed_links fs = Ok st0 →
  return_value (run st0 schedule) = Some ret →
  let k0 := dict_of (keywords (shared st0)) in
  let final := returned (simplify_keywords ret) in
  load_keywords_cache fs = Ok (keywords (shared st0)) ∧
  (∀ link, link ∈ Dict.keys k0 → link ∈ Dict.keys ret) ∧
  (∀ link, link ∉ parsed_links.*2 → Dict.get ret link = Dict.get k0 link) ∧
  (∀ link, link ∈ Dict.keys k0 → link ∈ Dict.keys final) ∧
  ∃ out members,
    main parsed_links fs schedule = Some out ∧
    Dict.get out.1 "keywords.json" = Some (json_dumps (JObject members)) ∧
    JObject members = encode_dict final ∧
    ∀ link, link ∈ Dict.keys k0 → link ∈ members.*1.
Proof.
  intros Hstart Hret k0 final.
  destruct (run_keeps_cache _ _ _ schedule Hstart ret Hret) as [Hkeys Hvals].
  assert (Hfinal : ∀ link, link ∈ Dict.keys k0 → link ∈ Dict.keys final).
  { intros link Hin. unfold final. rewrite simplify_keywords_keys. auto. }
  split_and!; [by apply process_links_start_inv in Hstart as (_ & ? & _)
              |done..|].
  destruct (encode_dict_keys final) as (members & Henc & Hperm).
  unfold main. rewrite Hstart. unfold return_value in Hret.
  destruct (control (run st0 schedule)) as [| |ret'] eqn:Hc; simplify_eq.
  fold final. rewrite Henc.
  assert (Hmem : ∀ link, link ∈ Dict.keys k0 → link ∈ members.*1).
  { intros link Hin. rewrite Hperm. auto. }
  destruct (group_links_by_domain parsed_links) as [domains|e].
  - eexists _, members. split_and!; [done| |done..]. simpl.
    rewrite get_set_ne by done. apply get_set_eq.
  - eexists _, members. split_and!; [done| |done..]. simpl. apply get_set_eq.
Qed.
End main_claims.

Lemma cached_keywords_returned_witness :
  "https://old.org/" ∈ Dict.keys old_return.
Proof.
  refine (proj1 (proj2 (@cached_keywords_returned demo_web demo_extractor
                          demo_json indel_similarity remove_dups_order
                          demo_report demo_parsed_links old_disk demo_schedule
                          old_start old_return _ _))
                "https://old.org/" _).
  - vm_compute. reflexivity.
  - vm_compute. reflexivity.
  - vm_compute. left.
Defined.

Example old_entry_written :
  ∃ out, @main demo_web demo_extractor demo_json indel_similarity
           remove_dups_order demo_report demo_parsed_links old_disk
           demo_schedule = Some out ∧
         Dict.get out.1 "keywords.json" =
         Some (demo_dumps (JObject [("https://a.com/gone", JArray [JString "EROR"]);
                                    ("https://a.com/short", JArray [JString "EROR"]);
                                    ("https://old.org/", JArray [])])).
Proof. eexists. split; vm_compute; reflexivity. Qed.

(** ** Error isolation *)

Lemma update_NoDup {V} (kvs : list (string * V)) (acc : Dict.t V) :
  NoDup (Dict.keys acc) → NoDup (Dict.keys (Dict.update acc kvs)).
Proof.
  intros Hnd. unfold Dict.update.
  apply (foldl_invariant (λ d, NoDup (Dict.keys d))); [done|].
  intros d kv _. apply NoDup_keys_set.
Qed.

Lemma load_cache_NoDup `{!Json} {V} `{!Jsonable V} path fs (m : mapping V) :
  load_cache path fs = Ok m → NoDup (Dict.keys (dict_of m)).
Proof.
  unfold load_cache. destruct (Dict.get fs path) as [text|].
  - destruct (json_loads text) as [x|]; [|done].
    destruct (update_items x) as [items|]; [|done]. simpl.
    destruct (typed_items items) as [kvs|]; [|done].
    intros [= <-]. simpl. apply update_NoDup. constructor.
  - intros [= <-]. constructor.
Qed.

Lemma put_NoDup {V} (m : mapping V) k v :
  NoDup (Dict.keys (dict_of m)) → NoDup (Dict.keys (dict_of (put m k v))).
Proof. rewrite dict_of_put. apply NoDup_keys_set. Qed.

Lemma store_NoDup {V} (m : mapping V) own k v :
  NoDup (Dict.keys (dict_of m)) →
  NoDup (Dict.keys (dict_of (store m own k v).1)).
Proof. destruct m; simpl; [done|]. apply NoDup_keys_set. Qed.

Section isolation.
Context `{!Web, !Extractor, !Json}.
Implicit Types (st : pool) (sh : caches) (ts : list task) (a : action).

Lemma process_link_NoDup sh t :
  NoDup (Dict.keys (dict_of (keywords sh))) →
  NoDup (Dict.keys (dict_of (keywords (process_link sh t).1.1))).
Proof. step_cases sh t; restore; try done. apply store_NoDup. Qed.

Lemma poll_results_NoDup ts rs : ∀ sh,
  NoDup (Dict.keys (dict_of (keywords sh))) →
  NoDup (Dict.keys (dict_of (keywords (foldl (poll_result ts) sh rs)))).
Proof.
  induction rs as [|r rs IH]; intros sh Hnd; simpl; [done|].
  apply IH. destruct (poll_result_cases ts sh r) as [[-> _]|[-> _]]; [done|].
  simpl. by apply put_NoDup.
Qed.

Lemma step_NoDup st a :
  NoDup (Dict.keys (dict_of (keywords (shared st)))) →
  NoDup (Dict.keys (dict_of (keywords (shared (step st a))))).
Proof.
  intros Hnd. destruct a as [k|]; simpl.
  - destruct (tasks st !! k) as [t|] eqn:Ht;
      [|unfold worker_step; by rewrite Ht].
    rewrite (worker_step_unfold k st t Ht). simpl. by apply process_link_NoDup.
  - unfold dispatcher_step. destruct (control st); [|done..].
    destruct (results st) as [|r rs]; [done|]. simpl.
    by apply (poll_results_NoDup (tasks st) (r :: rs)).
Qed.

Lemma run_NoDup parsed_links fs st0 schedule :
  process_links_start parsed_links fs = Ok st0 →
  NoDup (Dict.keys (dict_of (keywords (shared (run st0 schedule))))).
Proof.
  intros (_ & Hk & _)%process_links_start_inv.
  apply run_invariant; [|apply step_NoDup].
  by eapply (load_cache_NoDup "keywords_cache.txt").
Qed.

(** Induction along a schedule with atomic polls. *)
Lemma run_atomic_invariant (P : pool → Prop) schedule : ∀ st,
  atomic_polls st schedule →
  P st →
  (∀ st a, (control st = AtFilter → a = Dispatcher) → P st → P (step st a)) →
  P (run st schedule).
Proof.
  induction schedule as [|a schedule IH]; intros st Hat Hst Hstep; [done|].
  destruct Hat as [Ha Hat]. simpl. apply IH; auto.
Qed.

Lemma sentinel_frame st st' l :
  Dict.get (dict_of (contents (shared st'))) l
    = Dict.get (dict_of (contents (shared st))) l →
  Dict.get (dict_of (keywords (shared st'))) l
    = Dict.get (dict_of (keywords (shared st))) l →
  sentinel st l → sentinel st' l.
Proof. unfold sentinel. intros -> ->. done. Qed.

(** Distinct tasks have distinct links when the links are distinct. *)
Lemma tasks_of_inj links st j k tj tk :
  NoDup links → tasks_of links st →
  tasks st !! j = Some tj → tasks st !! k = Some tk →
  t_link tj = t_link tk → j = k.
Proof.
  intros Hnd [Hl _] Hj Hk Heq.
  apply (NoDup_lookup links j k (t_link tj)); [done| |].
  - by rewrite <- Hl, list_lookup_fmap, Hj.
  - by rewrite <- Hl, list_lookup_fmap, Hk, Heq.
Qed.

Lemma step_polls_sound links st a :
  NoDup links → tasks_of links st →
  (control st = AtFilter → a = Dispatcher) →
  polls_sound st → polls_sound (step st a).
Proof.
  intros Hnd Hwf Hatomic Hsound.
  pose proof Hsound as (Hgone & Hswept & Hret).
  destruct a as [j|]; simpl.
  - (* a worker moves: the dispatcher is not between loop and filter *)
    destruct (tasks st !! j) as [tj|] eqn:Hj;
      [|unfold worker_step; by rewrite Hj].
    destruct (ready tj) eqn:Hready.
    { rewrite (worker_step_unfold j st tj Hj), process_link_ready by done.
      simpl. rewrite app_nil_r, list_insert_id by done.
      by destruct st. }
    rewrite (worker_step_unfold j st tj Hj).
    split_and!; simpl.
    + intros k t Hk Hres.
      apply list_lookup_insert_Some in Hk as [(<- & <- & _)|(Hne & Hk)].
      * rewrite process_link_link in Hres.
        destruct (Hgone j tj Hj Hres) as [Hr _]. congruence.
      * destruct (Hgone k t Hk Hres) as [Hr Hs]. split; [done|].
        intros e He. specialize (Hs e He).
        assert (Hlinks : t_link t ≠ t_link tj).
        { intros Heq. apply Hne. symmetry.
          by eapply (tasks_of_inj links st k j). }
        destruct (process_link_frame (shared st) tj (t_link t) Hlinks).
        by eapply sentinel_frame.
    + intros Hc. specialize (Hatomic Hc). discriminate.
    + intros ret Hc. destruct (Hret ret Hc) as [Hres _].
      destruct (Hgone j tj Hj) as [Hr _]; [|congruence].
      rewrite Hres. apply not_elem_of_nil.
  - (* the dispatcher moves *)
    unfold dispatcher_step. destruct (control st) eqn:Hc.
    + destruct (results st) as [|r rs] eqn:Hrs.
      * split_and!; simpl; [|done|by intros ret [= <-]].
        intros k t Hk Hres. exact (Hgone k t Hk Hres).
      * split_and!; simpl; [| |done].
        -- intros k t Hk Hres.
           destruct (Hgone k t Hk Hres) as [Hr Hs]. split; [done|].
           intros e He. destruct (Hs e He) as [Hsc Hsk].
           apply (poll_results_keep (tasks st) (r :: rs)); done.
        -- intros _ k t e Hk He.
           destruct (decide ((k, t_link t) ∈ r :: rs)) as [Hin|Hni].
           ++ apply (poll_results_sentinel (tasks st) (r :: rs)).
              by exists k, t, e.
           ++ destruct (Hgone k t Hk Hni) as [_ Hs].
              destruct (Hs e He) as [Hsc Hsk].
              apply (poll_results_keep (tasks st) (r :: rs)); done.
    + split_and!; simpl; [|done..].
      intros k t Hk Hres.
      destruct (decide ((k, t_link t) ∈ results st)) as [Hin|Hni].
      * assert (Hr : ready t = true).
        { destruct (ready t) eqn:Hr; [done|]. destruct Hres.
          apply list_elem_of_filter. split; [|done].
          unfold pending. simpl. by rewrite Hk, Hr. }
        split; [done|]. intros e He. exact (Hswept eq_refl k t e Hk He).
      * exact (Hgone k t Hk Hni).
    + exact Hsound.
Qed.
End isolation.

(** ** Results are present; runs end *)

Section completion.
Context `{!Web, !Extractor, !Json}.
Implicit Types (st : pool) (sh : caches) (ts : list task) (a : action).

Lemma process_link_present sh t :
  let t' := (process_link sh t).1.2 in
  let sh' := (process_link sh t).1.1 in
  ((t_pc t = AtKeywordCheck ∨ t_pc t = AtExtract ∨
    (∃ kws, t_pc t = AtStore kws) ∨ t_pc t = Returned →
    t_link t ∈ Dict.keys (view (contents sh) (t_contents t))) ∧
   (t_pc t = Returned →
    t_link t ∈ Dict.keys (view (keywords sh) (t_keywords t)))) →
  (t_pc t' = AtKeywordCheck ∨ t_pc t' = AtExtract ∨
   (∃ kws, t_pc t' = AtStore kws) ∨ t_pc t' = Returned →
   t_link t' ∈ Dict.keys (view (contents sh') (t_contents t'))) ∧
  (t_pc t' = Returned →
   t_link t' ∈ Dict.keys (view (keywords sh') (t_keywords t'))).
Proof.
  step_cases sh t; restore; intros [Hc Hk]; split; intros Hpc;
    try match goal with
        | H : t_pc t = _, H' : context [t_pc t] |- _ => rewrite H in H'
        end;
    try (by apply mem_true);
    try (by apply store_keys_new);
    try (apply Hc; by eauto 6);
    try (by apply Hk);
    try (by destruct Hpc as [?|[?|[[? ?]|?]]]);
    try done.
Qed.

Lemma step_results_present st a :
  results_present st → results_present (step st a).
Proof.
  intros Hpres. destruct a as [j|]; simpl.
  - destruct (tasks st !! j) as [tj|] eqn:Hj;
      [|unfold worker_step; by rewrite Hj].
    rewrite (worker_step_unfold j st tj Hj).
    intros k t Hk. simpl in *.
    apply list_lookup_insert_Some in Hk as [(<- & <- & _)|(Hne & Hk)].
    + apply process_link_present. exact (Hpres j tj Hj).
    + destruct (Hpres k t Hk) as [Hc Hkw]. split; intros Hpc.
      * by apply process_link_view_other, Hc.
      * by apply process_link_view_other, Hkw.
  - intros k t Hk. rewrite dispatcher_step_tasks in Hk.
    destruct (Hpres k t Hk) as [Hc Hkw]. split; intros Hpc.
    + by apply dispatcher_step_view, Hc.
    + by apply dispatcher_step_view, Hkw.
Qed.

Lemma start_results_present parsed_links fs st0 :
  process_links_start parsed_links fs = Ok st0 → results_present st0.
Proof.
  intros (_ & _ & Ht & _)%process_links_start_inv k t.
  rewrite Ht, list_lookup_fmap.
  destruct (parsed_links.*2 !! k); [|done]. intros [= <-]. simpl.
  split; [intros [?|[?|[[? ?]|?]]]|]; done.
Qed.

Lemma start_polls_sound parsed_links fs st0 :
  process_links_start parsed_links fs = Ok st0 → polls_sound st0.
Proof.
  intros (_ & _ & Ht & Hr & Hc & _)%process_links_start_inv.
  split_and!.
  - intros k t Hk Hres. destruct Hres. rewrite Hr.
    apply elem_of_lookup_imap. exists k, (t_link t). split; [done|].
    rewrite Ht, list_lookup_fmap in Hk.
    destruct (parsed_links.*2 !! k); [|done]. by injection Hk as <-.
  - by rewrite Hc.
  - by rewrite Hc.
Qed.

(** *** Every run can be brought to its end *)

Lemma process_link_progress sh t :
  remaining (t_pc (process_link sh t).1.2) ≤ pred (remaining (t_pc t)).
Proof.
  step_cases sh t; restore;
    try match goal with H : t_pc t = _ |- _ => rewrite ?H end; simpl; lia.
Qed.

Lemma remaining_ready t : remaining (t_pc t) = 0 ↔ ready t = true.
Proof. unfold ready. destruct (t_pc t); simpl; split; done || lia. Qed.

Lemma worker_step_control k st :
  control (worker_step k st) = control st ∧
  results (worker_step k st) = results st ∧
  length (tasks (worker_step k st)) = length (tasks st).
Proof.
  destruct (tasks st !! k) as [t|] eqn:Ht;
    [|unfold worker_step; by rewrite Ht].
  rewrite (worker_step_unfold k st t Ht). simpl. by rewrite length_insert.
Qed.

(** What a worker's step does to the count of steps left, task by task. *)
Lemma worker_step_remaining k st j t' :
  tasks (worker_step k st) !! j = Some t' →
  ∃ t, tasks st !! j = Some t ∧
       remaining (t_pc t') ≤
       (if decide (j = k) then pred (remaining (t_pc t))
        else remaining (t_pc t)).
Proof.
  destruct (tasks st !! k) as [tk|] eqn:Hk.
  - rewrite (worker_step_unfold k st tk Hk). simpl.
    intros [(<- & <- & _)|(Hne & Hj)]%list_lookup_insert_Some.
    + exists tk. rewrite decide_True by done.
      split; [done | apply process_link_progress].
    + exists t'. by rewrite decide_False.
  - unfold worker_step. rewrite Hk. intros Hj. exists t'.
    split; [done|]. case_decide; [subst; congruence | lia].
Qed.

Lemma workers_run k n : ∀ st,
  let st' := run st (replicate n (Worker k)) in
  control st' = control st ∧ results st' = results st ∧
  length (tasks st') = length (tasks st) ∧
  ∀ j t', tasks st' !! j = Some t' →
    ∃ t, tasks st !! j = Some t ∧
         remaining (t_pc t') ≤
         (if decide (j = k) then remaining (t_pc t) - n
          else remaining (t_pc t)).
Proof.
  induction n as [|n IH]; intros st; simpl.
  - split_and!; [done..|]. intros j t' Hj. exists t'.
    split; [done|]. case_decide; lia.
  - destruct (IH (worker_step k st)) as (Hc & Hr & Hl & Hrem).
    destruct (worker_step_control k st) as (Hc' & Hr' & Hl').
    split_and!; [congruence..|].
    intros j t' Hj. destruct (Hrem j t' Hj) as (t1 & Hj1 & Hle).
    destruct (worker_step_remaining k st j t1 Hj1) as (t & Hj0 & Hle0).
    exists t. split; [done|]. case_decide; lia.
Qed.

Lemma all_workers_run n : ∀ st,
  let st' := run st (k ← seq 0 n; replicate 5 (Worker k)) in
  control st' = control st ∧ results st' = results st ∧
  length (tasks st') = length (tasks st) ∧
  ∀ j t', tasks st' !! j = Some t' →
    ∃ t, tasks st !! j = Some t ∧
         remaining (t_pc t') ≤
         (if decide (j < n) then 0 else remaining (t_pc t)).
Proof.
  induction n as [|n IH]; intros st.
  - simpl. split_and!; [done..|]. intros j t' Hj. exists t'.
    split; [done|]. try case_decide; lia.
  - rewrite seq_S, bind_app, run_app.
    assert (Hb : ([0 + n] ≫= λ k, replicate 5 (Worker k))
                 = replicate 5 (Worker n)) by done.
    rewrite Hb. clear Hb. cbv zeta.
    destruct (IH st) as (Hc & Hr & Hl & Hrem).
    destruct (workers_run n 5 (run st (k ← seq 0 n; replicate 5 (Worker k))))
      as (Hc' & Hr' & Hl' & Hrem').
    split_and!; [congruence..|].
    intros j t' Hj. destruct (Hrem' j t' Hj) as (t1 & Hj1 & Hle1).
    destruct (Hrem j t1 Hj1) as (t & Hj0 & Hle0).
    exists t. split; [done|].
    assert (remaining (t_pc t) ≤ 5) by (destruct (t_pc t); simpl; lia).
    repeat case_decide; lia.
Qed.

Lemma atomic_polls_app st s1 s2 :
  atomic_polls st s1 → atomic_polls (run st s1) s2 →
  atomic_polls st (s1 ++ s2).
Proof.
  revert st. induction s1 as [|a s1 IH]; intros st; simpl; [done|].
  intros [Ha Hs1] Hs2. split; [done|]. by apply IH.
Qed.

Lemma atomic_polls_workers (ws : list action) : ∀ st,
  control st = AtWhile → Forall (λ a, a ≠ Dispatcher) ws →
  atomic_polls st ws.
Proof.
  induction ws as [|a ws IH]; intros st Hc Hall; simpl; [done|].
  apply Forall_cons in Hall as [Ha Hall]. split; [congruence|].
  apply IH; [|done]. destruct a as [k|]; [|done]. simpl.
  destruct (worker_step_control k st) as (-> & _). done.
Qed.

Lemma atomic_polls_dispatcher n : ∀ st,
  atomic_polls st (replicate n Dispatcher).
Proof. induction n as [|n IH]; intros st; simpl; [done|]. by split. Qed.

Lemma pending_none ts (rs : list (nat * string)) :
  (∀ j t, ts !! j = Some t → ready t = true) →
  filter (λ r, pending ts r) rs = [].
Proof.
  intros Hready. induction rs as [|r rs IH]; [done|].
  rewrite filter_cons_False; [done|].
  unfold pending. destruct (ts !! r.1) as [t|] eqn:Ht; [|by intros []].
  rewrite (Hready _ _ Ht). by intros [].
Qed.

(** With every task at its end, three steps of the dispatcher suffice. *)
Lemma dispatcher_finishes st :
  control st = AtWhile →
  (∀ j t, tasks st !! j = Some t → ready t = true) →
  is_Some (return_value (run st (replicate 3 Dispatcher))).
Proof.
  intros Hc Hready. simpl. unfold return_value.
  destruct (results st) as [|r rs] eqn:Hrs.
  - assert (Hfin : control (dispatcher_step st)
                   = Finished (dict_of (keywords (shared st)))).
    { unfold dispatcher_step. by rewrite Hc, Hrs. }
    assert (Hidle : dispatcher_step (dispatcher_step st) = dispatcher_step st).
    { unfold dispatcher_step at 1. by rewrite Hfin. }
    rewrite !Hidle, Hfin. eauto.
  - set (st1 := dispatcher_step st).
    assert (Hst1 : control st1 = AtFilter ∧ tasks st1 = tasks st).
    { unfold st1, dispatcher_step. by rewrite Hc, Hrs. }
    destruct Hst1 as [Hc1 Ht1].
    set (st2 := dispatcher_step st1).
    assert (Hst2 : control st2 = AtWhile ∧ results st2 = []).
    { unfold st2, dispatcher_step. rewrite Hc1. simpl. split; [done|].
      rewrite Ht1. by apply pending_none. }
    destruct Hst2 as [Hc2 Hr2].
    unfold dispatcher_step at 1. rewrite Hc2, Hr2. simpl. eauto.
Qed.

(** From the state at the [while] loop, the schedule [run_to_completion]
    has atomic polls and brings the dispatcher to its return. *)
Lemma run_to_completion_returns parsed_links fs st0 :
  process_links_start parsed_links fs = Ok st0 →
  atomic_polls st0 (run_to_completion st0) ∧
  is_Some (return_value (run st0 (run_to_completion st0))).
Proof.
  intros (_ & _ & _ & _ & Hc & _)%process_links_start_inv.
  unfold run_to_completion.
  destruct (all_workers_run (length (tasks st0)) st0) as (Hc' & _ & Hl & Hrem).
  split.
  - apply atomic_polls_app; [|apply atomic_polls_dispatcher].
    apply atomic_polls_workers; [done|].
    apply Forall_forall. intros a Ha.
    apply list_elem_of_bind in Ha as (k & Ha & _).
    apply elem_of_replicate in Ha as [-> _]. done.
  - rewrite run_app. apply dispatcher_finishes; [congruence|].
    intros j t Hj. destruct (Hrem j t Hj) as (t0 & Hj0 & Hle).
    apply remaining_ready. apply lookup_lt_Some in Hj0.
    rewrite decide_True in Hle by done. lia.
Qed.
End completion.

(** ** Properties of whole runs *)

Section run_properties.
Context `{!Web, !Extractor, !Json}.
Implicit Types (st : pool) (sh : caches) (ts : list task) (a : action).

Lemma process_link_proxy sh t :
  is_proxy (contents (process_link sh t).1.1) = is_proxy (contents sh) ∧
  is_proxy (keywords (process_link sh t).1.1) = is_proxy (keywords sh).
Proof. step_cases sh t; restore; by rewrite ?is_proxy_store. Qed.

Lemma step_proxy st a :
  is_proxy (contents (shared (step st a))) = is_proxy (contents (shared st)) ∧
  is_proxy (keywords (shared (step st a))) = is_proxy (keywords (shared st)).
Proof.
  destruct a as [k|]; simpl.
  - destruct (tasks st !! k) as [t|] eqn:Ht;
      [|unfold worker_step; by rewrite Ht].
    rewrite (worker_step_unfold k st t Ht). apply process_link_proxy.
  - unfold dispatcher_step. destruct (control st); [|done..].
    destruct (results st) as [|r rs]; [done|].
    apply (poll_results_proxy (tasks st) (r :: rs)).
Qed.

Lemma run_proxy st schedule :
  is_proxy (contents (shared (run st schedule)))
    = is_proxy (contents (shared st)) ∧
  is_proxy (keywords (shared (run st schedule)))
    = is_proxy (keywords (shared st)).
Proof.
  apply (run_invariant (λ st',
    is_proxy (contents (shared st')) = is_proxy (contents (shared st)) ∧
    is_proxy (keywords (shared st')) = is_proxy (keywords (shared st))));
    [done|].
  intros st' a [<- <-]. apply step_proxy.
Qed.

Lemma run_settled parsed_links fs st0 schedule :
  process_links_start parsed_links fs = Ok st0 →
  NoDup (parsed_links.*2) →
  atomic_polls st0 schedule →
  tasks_of (parsed_links.*2) (run st0 schedule) ∧
  polls_sound (run st0 schedule) ∧
  results_present (run st0 schedule).
Proof.
  intros Hstart Hnd Hatomic. apply run_atomic_invariant; [done| |].
  - split_and!; [by eapply start_tasks_of | by eapply start_polls_sound
                | by eapply start_results_present].
  - intros st' a Ha (Hwf & Hsound & Hpres). split_and!.
    + by apply step_tasks_of.
    + by eapply step_polls_sound.
    + by apply step_results_present.
Qed.

(** X4.  Error isolation.  In a run over distinct links whose polls are
    atomic, once the dispatcher has returned: it returned the keyword
    mapping; every task has ended; the link of every failed task has the
    empty content and the keywords [("ERROR", 0.0)]; and, when the keyword
    cache was loaded from a file, the link of every task that returned has
    an entry in the returned mapping. *)
Theorem failed_tasks_get_sentinels (parsed_links : Dict.t string)
    (fs : filesystem) (schedule : list action) (st0 : pool)
    (ret : Dict.t Keywords) :
  process_links_start parsed_links fs = Ok st0 →
  NoDup (parsed_links.*2) →
  atomic_polls st0 schedule →
  return_value (run st0 schedule) = Some ret →
  let st := run st0 schedule in
  ret = dict_of (keywords (shared st)) ∧
  ∀ k t, tasks st !! k = Some t →
    ready t = true ∧
    (∀ e, t_pc t = Raised e →
       Dict.get (dict_of (contents (shared st))) (t_link t) = Some "" ∧
       Dict.get ret (t_link t) = Some ERROR) ∧
    (t_pc t = Returned → is_proxy (keywords (shared st0)) = true →
       t_link t ∈ Dict.keys ret).
Proof.
  intros Hstart Hnd Hatomic Hret st.
  destruct (run_settled _ _ _ _ Hstart Hnd Hatomic)
    as (Hwf & (Hgone & _ & Hfin) & Hpres).
  fold st in Hwf, Hgone, Hfin, Hpres.
  destruct (run_proxy st0 schedule) as [_ Hkind].
  change (return_value st = Some ret) in Hret.
  change (is_proxy (keywords (shared st))
          = is_proxy (keywords (shared st0))) in Hkind.
  clearbody st. unfold return_value in Hret.
  destruct (control st) as [| |ret'] eqn:Hc; simplify_eq.
  destruct (Hfin ret eq_refl) as [Hres ->]. split; [done|].
  intros k t Hk.
  destruct (Hgone k t Hk) as [Hready Hsent].
  { rewrite Hres. apply not_elem_of_nil. }
  split_and!; [done| |].
  - intros e He. exact (Hsent e He).
  - intros Hpc Hproxy. destruct (Hpres k t Hk) as [_ Hkw].
    specialize (Hkw Hpc).
    rewrite view_proxy in Hkw by congruence. done.
Qed.

Lemma finished_stays st ret n :
  control st = Finished ret →
  control (run st (replicate n Dispatcher)) = Finished ret.
Proof.
  intros Hc. induction n as [|n IH]; simpl; [done|].
  assert (Hidle : dispatcher_step st = st).
  { unfold dispatcher_step. by rewrite Hc. }
  by rewrite Hidle.
Qed.

Lemma dispatcher_finishes_any st :
  (∀ j t, tasks st !! j = Some t → ready t = true) →
  is_Some (return_value (run st (replicate 4 Dispatcher))).
Proof.
  intros Hready. destruct (control st) as [| |ret] eqn:Hc.
  - change (replicate 4 Dispatcher)
      with (replicate 3 Dispatcher ++ replicate 1 Dispatcher).
    rewrite run_app.
    destruct (dispatcher_finishes st Hc Hready) as [ret Hret].
    unfold return_value in *.
    destruct (control (run st (replicate 3 Dispatcher))) as [| |ret'] eqn:Hc';
      simplify_eq.
    rewrite (finished_stays _ ret 1 Hc'). eauto.
  - change (replicate 4 Dispatcher)
      with (replicate 1 Dispatcher ++ replicate 3 Dispatcher).
    rewrite run_app. apply dispatcher_finishes.
    + simpl. unfold dispatcher_step. by rewrite Hc.
    + simpl. intros j t. rewrite dispatcher_step_tasks. apply Hready.
  - unfold return_value. rewrite (finished_stays st ret 4 Hc). eauto.
Qed.

(** X5.  Every run can be brought to its end: from any state, when each
    task is given five steps and the dispatcher then four, the dispatcher
    has returned. *)
Theorem every_run_can_finish (st : pool) :
  is_Some (return_value (run st (finish st))).
Proof.
  unfold finish. rewrite run_app. apply dispatcher_finishes_any.
  destruct (all_workers_run (length (tasks st)) st) as (_ & _ & _ & Hrem).
  intros j t Hj. destruct (Hrem j t Hj) as (t0 & Hj0 & Hle).
  apply remaining_ready. apply lookup_lt_Some in Hj0.
  rewrite decide_True in Hle by done. lia.
Qed.
End run_properties.

(** ** A run without cache files *)

Section cold_cache.
Context `{!Web, !Extractor, !Json}.
Implicit Types (st : pool) (sh : caches) (ts : list task) (a : action).

Lemma step_only_failures links st a :
  tasks_of links st → only_failures st → only_failures (step st a).
Proof.
  intros Hwf (Hplain & Hent & Hfin). destruct a as [k|]; simpl.
  - destruct (tasks st !! k) as [t|] eqn:Ht;
      [|unfold worker_step; by rewrite Ht].
    rewrite (worker_step_unfold k st t Ht).
    destruct (keywords (shared st)) as [d|d] eqn:Hk; [|done].
    destruct (process_link_plain (shared st) t) as [_ Hsame].
    specialize (Hsame d Hk).
    split_and!; simpl; rewrite Hsame; simpl; [done| |done].
    intros link kws Hget.
    destruct (Hent link kws Hget) as [-> (k0 & t0 & e & Hk0 & Hl & He)].
    split; [done|]. exists k0, t0, e. split_and!; [|done..].
    destruct (decide (k = k0)) as [->|Hne].
    + simplify_eq. rewrite process_link_ready by (unfold ready; by rewrite He).
      simpl. by rewrite list_insert_id.
    + by rewrite list_lookup_insert_ne.
  - split_and!.
    + destruct (step_proxy st Dispatcher) as [_ Hp]. simpl in Hp. congruence.
    + intros link kws Hget. rewrite dispatcher_step_tasks.
      destruct (dispatcher_step_writes st link) as [_ [Heq|[Heq Hf]]];
        simpl in Heq; rewrite Heq in Hget; [eauto|].
      injection Hget as <-. split; [done|].
      destruct Hf as (k & t & e & Hin & Ht & He). exists k, t, e.
      split_and!; [done| |done].
      destruct Hwf as [Hl Hres]. specialize (Hres k link Hin).
      rewrite <- Hl, list_lookup_fmap, Ht in Hres. by injection Hres.
    + intros ret. unfold dispatcher_step.
      destruct (control st) eqn:Hc; simpl.
      * destruct (results st); simpl; [by intros [= <-] | done].
      * done.
      * rewrite Hc. apply Hfin.
Qed.

Lemma run_only_failures parsed_links fs st0 schedule :
  Dict.get fs "keywords_cache.txt" = None →
  process_links_start parsed_links fs = Ok st0 →
  only_failures (run st0 schedule).
Proof.
  intros Hno Hstart.
  assert (Hinv : tasks_of (parsed_links.*2) (run st0 schedule) ∧
                 only_failures (run st0 schedule)); [|by destruct Hinv].
  apply run_invariant.
  - split; [by eapply start_tasks_of|].
    apply process_links_start_inv in Hstart
      as (_ & Hk & _ & _ & Hc & _).
    unfold load_keywords_cache, load_cache in Hk. rewrite Hno in Hk.
    injection Hk as Hk. unfold only_failures. rewrite <- Hk, Hc.
    by split_and!.
  - intros st a [Hwf Honly]. split; [by apply step_tasks_of|].
    by eapply step_only_failures.
Qed.

(** X6.  A run that finds no keyword cache file works on a plain
    dictionary, which every task receives as a copy: whatever the
    schedule, each entry of the returned mapping is the sentinel of a
    failed task, and with distinct links the link of a task that returned
    has no entry at all. *)
Theorem cold_cache_keeps_only_failures (parsed_links : Dict.t string)
    (fs : filesystem) (schedule : list action) (st0 : pool)
    (ret : Dict.t Keywords) :
  Dict.get fs "keywords_cache.txt" = None →
  process_links_start parsed_links fs = Ok st0 →
  return_value (run st0 schedule) = Some ret →
  (∀ link kws, Dict.get ret link = Some kws →
     kws = ERROR ∧
     ∃ k t e, tasks (run st0 schedule) !! k = Some t ∧
              t_link t = link ∧ t_pc t = Raised e) ∧
  (NoDup (parsed_links.*2) →
   ∀ k t, tasks (run st0 schedule) !! k = Some t → t_pc t = Returned →
          Dict.get ret (t_link t) = None).
Proof.
  intros Hno Hstart Hret.
  destruct (run_only_failures parsed_links fs st0 schedule Hno Hstart)
    as (_ & Hent & Hfin).
  pose proof (run_tasks_of parsed_links fs st0 schedule Hstart) as Hwf.
  unfold return_value in Hret.
  destruct (control (run st0 schedule)) as [| |ret'] eqn:Hc; simplify_eq.
  rewrite (Hfin ret eq_refl). split; [exact Hent|].
  intros Hnd k t Hk Hpc.
  destruct (Dict.get (dict_of (keywords (shared (run st0 schedule))))
              (t_link t)) as [kws|] eqn:Hget; [|done].
  destruct (Hent _ _ Hget) as [_ (k' & t' & e & Hk' & Hl & He)].
  assert (k' = k) as -> by (by eapply tasks_of_inj).
  simplify_eq. congruence.
Qed.
End cold_cache.

(** ** What a run leaves on disk *)

Section flush.
Context `{!Web, !Extractor, !Json}.
Implicit Types (st : pool) (sh : caches) (ts : list task) (a : action).

Lemma update_caches_get sh fs :
  Dict.get (update_caches sh fs) "keywords_cache.txt"
    = Some (json_dumps (encode_dict (dict_of (keywords sh)))) ∧
  Dict.get (update_caches sh fs) "content_cache.txt"
    = Some (json_dumps (encode_dict (dict_of (contents sh)))) ∧
  ∀ path, path ≠ "content_cache.txt" → path ≠ "keywords_cache.txt" →
    Dict.get (update_caches sh fs) path = Dict.get fs path.
Proof.
  unfold update_caches, update_keywords_cache, update_content_cache,
    update_cache.
  split_and!.
  - apply get_set_eq.
  - rewrite get_set_ne by done. apply get_set_eq.
  - intros path Hc Hk. by rewrite !get_set_ne.
Qed.

Lemma step_flushed fs0 st a : flushed fs0 st → flushed fs0 (step st a).
Proof.
  intros (Hgone & Hrest & Hfin). destruct a as [k|]; simpl.
  - destruct (tasks st !! k) as [t|] eqn:Ht;
      [|unfold worker_step; by rewrite Ht].
    rewrite (worker_step_unfold k st t Ht). split_and!; simpl.
    + intros j tj Hj Hout. destruct (decide (k = j)) as [->|Hne].
      * rewrite list_lookup_insert_eq in Hj by (by eapply lookup_lt_Some).
        injection Hj as <-. rewrite process_link_link in Hout.
        specialize (Hgone j t Ht Hout).
        by rewrite (process_link_ready _ _ Hgone).
      * rewrite list_lookup_insert_ne in Hj by done.
        exact (Hgone j tj Hj Hout).
    + done.
    + intros ret Hc. destruct (Hfin ret Hc) as (Hres & Hret & Hkw & Hct).
      assert (Hidle : process_link (shared st) t = (shared st, t, [])).
      { apply process_link_ready, (Hgone k t Ht). rewrite Hres.
        apply not_elem_of_nil. }
      by rewrite Hidle.
  - unfold dispatcher_step. destruct (control st) eqn:Hc.
    + destruct (results st) as [|r rs] eqn:Hr; simpl.
      * destruct (update_caches_get (shared st) (disk st))
          as (Hkw & Hct & Hother).
        split_and!; simpl.
        -- exact Hgone.
        -- intros path Hp1 Hp2. rewrite Hother by done. by apply Hrest.
        -- by intros ret [= <-].
      * by split_and!.
    + destruct (update_caches_get (shared st) (disk st))
        as (Hkw & Hct & Hother).
      split_and!; simpl; [| |done].
      * intros j tj Hj Hout.
        destruct (decide ((j, t_link tj) ∈ results st)) as [Hin|Hnin];
          [|by apply (Hgone j tj)].
        destruct (ready tj) eqn:Hready; [done|]. exfalso. apply Hout.
        apply list_elem_of_filter. split; [|done].
        unfold pending. simpl. by rewrite Hj, Hready.
      * intros path Hp1 Hp2. rewrite Hother by done. by apply Hrest.
    + split_and!; [done..|]. by rewrite Hc.
Qed.

Lemma run_flushed parsed_links fs st0 schedule :
  process_links_start parsed_links fs = Ok st0 →
  flushed fs (run st0 schedule).
Proof.
  intros (_ & _ & Ht & Hr & Hc & Hd & _)%process_links_start_inv.
  apply run_invariant; [|intros st a; apply step_flushed].
  split_and!.
  - intros k t Hk Hout. exfalso. apply Hout. rewrite Hr.
    rewrite Ht, list_lookup_fmap in Hk.
    destruct (parsed_links.*2 !! k) as [l|] eqn:Hl; [|done].
    injection Hk as <-. simpl.
    apply elem_of_lookup_imap. by exists k, l.
  - intros path _ _. by rewrite Hd.
  - intros ret. by rewrite Hc.
Qed.

Lemma load_cache_dumped {V} `{!Jsonable V} path (cache : Dict.t V)
    (fs : filesystem) :
  (∀ v : V, of_json (to_json v) = Some v) →
  Dict.get fs path = Some (json_dumps (encode_dict cache)) →
  NoDup (Dict.keys cache) →
  json_loads (json_dumps (encode_dict cache)) = Some (encode_dict cache) →
  ∃ d, load_cache path fs = Ok (ManagerDict d) ∧ Dict.equiv d cache.
Proof.
  intros Hcodec Hfile Hnd Hjson.
  destruct (load_update_cache Hcodec path cache fs Hnd Hjson)
    as (d & Hload & Heq).
  exists d. split; [|done]. rewrite <- Hload.
  unfold load_cache, update_cache. by rewrite Hfile, get_set_eq.
Qed.

(** X7.  When the dispatcher has returned, whatever the schedule: every
    task has ended; [keywords_cache.txt] holds the returned mapping and
    [content_cache.txt] the content mapping, both as [update_*_cache]
    writes them; and every other file is as it was before the call. *)
Theorem returned_mapping_is_persisted (parsed_links : Dict.t string)
    (fs : filesystem) (schedule : list action) (st0 : pool)
    (ret : Dict.t Keywords) :
  process_links_start parsed_links fs = Ok st0 →
  return_value (run st0 schedule) = Some ret →
  let st := run st0 schedule in
  (∀ k t, tasks st !! k = Some t → ready t = true) ∧
  Dict.get (disk st) "keywords_cache.txt"
    = Some (json_dumps (encode_dict ret)) ∧
  Dict.get (disk st) "content_cache.txt"
    = Some (json_dumps (encode_dict (dict_of (contents (shared st))))) ∧
  ∀ path, path ≠ "content_cache.txt" → path ≠ "keywords_cache.txt" →
    Dict.get (disk st) path = Dict.get fs path.
Proof.
  intros Hstart Hret st.
  destruct (run_flushed parsed_links fs st0 schedule Hstart)
    as (Hgone & Hrest & Hfin).
  change (return_value st = Some ret) in Hret.
  fold st in Hgone, Hrest, Hfin. clearbody st.
  unfold return_value in Hret.
  destruct (control st) as [| |ret'] eqn:Hc; simplify_eq.
  destruct (Hfin ret eq_refl) as (Hres & Heq & Hkw & Hct).
  split_and!; [|done..].
  intros k t Hk. apply (Hgone k t Hk). rewrite Hres. apply not_elem_of_nil.
Qed.
End flush.

(** ** Two runs in a row *)

Section two_runs.
Context `{!Web, !Extractor, !Json}.
Implicit Types (st : pool) (sh : caches) (ts : list task) (a : action).

Lemma process_link_NoDup_contents sh t :
  NoDup (Dict.keys (dict_of (contents sh))) →
  NoDup (Dict.keys (dict_of (contents (process_link sh t).1.1))).
Proof. step_cases sh t; restore; try done. apply store_NoDup. Qed.

Lemma poll_results_NoDup_contents ts rs : ∀ sh,
  NoDup (Dict.keys (dict_of (contents sh))) →
  NoDup (Dict.keys (dict_of (contents (foldl (poll_result ts) sh rs)))).
Proof.
  induction rs as [|r rs IH]; intros sh Hnd; simpl; [done|].
  apply IH. destruct (poll_result_cases ts sh r) as [[-> _]|[-> _]]; [done|].
  simpl. by apply put_NoDup.
Qed.

Lemma step_NoDup_contents st a :
  NoDup (Dict.keys (dict_of (contents (shared st)))) →
  NoDup (Dict.keys (dict_of (contents (shared (step st a))))).
Proof.
  intros Hnd. destruct a as [k|]; simpl.
  - destruct (tasks st !! k) as [t|] eqn:Ht;
      [|unfold worker_step; by rewrite Ht].
    rewrite (worker_step_unfold k st t Ht). simpl.
    by apply process_link_NoDup_contents.
  - unfold dispatcher_step. destruct (control st); [|done..].
    destruct (results st) as [|r rs]; [done|]. simpl.
    by apply (poll_results_NoDup_contents (tasks st) (r :: rs)).
Qed.

Lemma run_NoDup_contents parsed_links fs st0 schedule :
  process_links_start parsed_links fs = Ok st0 →
  NoDup (Dict.keys (dict_of (contents (shared (run st0 schedule))))).
Proof.
  intros (Hc & _)%process_links_start_inv.
  apply run_invariant; [|apply step_NoDup_contents].
  by eapply (load_cache_NoDup "content_cache.txt").
Qed.

Lemma run_hits_cache parsed_links fs st0 schedule :
  process_links_start parsed_links fs = Ok st0 →
  hits_cache (parsed_links.*2) (dict_of (contents (shared st0)))
             (dict_of (keywords (shared st0))) (run st0 schedule).
Proof.
  intros Hstart.
  assert (Hinv : tasks_of (parsed_links.*2) (run st0 schedule) ∧
                 hits_cache (parsed_links.*2) (dict_of (contents (shared st0)))
                   (dict_of (keywords (shared st0))) (run st0 schedule));
    [|by destruct Hinv].
  apply run_invariant.
  - split; [by eapply start_tasks_of | by eapply start_hits_cache].
  - intros st' a [Hwf Hhit]. split;
      [by apply step_tasks_of | by apply step_hits_cache].
Qed.

Lemma load_cache_proxy {V} `{!Jsonable V} path fs (m : mapping V) :
  is_Some (Dict.get fs path) → load_cache path fs = Ok m → is_proxy m = true.
Proof.
  intros [text Htext]. unfold load_cache. rewrite Htext.
  destruct (json_loads text) as [x|]; [|done].
  destruct (update_items x) as [items|]; [|done]. simpl.
  destruct (typed_items items) as [kvs|]; [|done].
  by intros [= <-].
Qed.

Lemma equiv_keys {V} (d1 d2 : Dict.t V) key :
  Dict.equiv d1 d2 → key ∈ Dict.keys d1 ↔ key ∈ Dict.keys d2.
Proof. intros Heq. by rewrite !keys_get_is_Some, (Heq key). Qed.

(** After a settled run on two proxies every submitted link has both
    entries. *)
Lemma finished_links_cached parsed_links fs st0 schedule ret :
  process_links_start parsed_links fs = Ok st0 →
  is_proxy (contents (shared st0)) = true →
  is_proxy (keywords (shared st0)) = true →
  NoDup (parsed_links.*2) →
  atomic_polls st0 schedule →
  return_value (run st0 schedule) = Some ret →
  ∀ link, link ∈ parsed_links.*2 →
    link ∈ Dict.keys (dict_of (contents (shared (run st0 schedule)))) ∧
    link ∈ Dict.keys (dict_of (keywords (shared (run st0 schedule)))).
Proof.
  intros Hstart Hpc Hpk Hnd Hatomic Hret link Hlink.
  destruct (run_settled _ _ _ _ Hstart Hnd Hatomic)
    as ([Hlinks _] & (Hgone & _ & Hfin) & Hpres).
  destruct (run_proxy st0 schedule) as [Hkc Hkk].
  set (st := run st0 schedule) in *. clearbody st.
  unfold return_value in Hret.
  destruct (control st) as [| |ret'] eqn:Hc; simplify_eq.
  destruct (Hfin ret eq_refl) as [Hres _].
  rewrite <- Hlinks in Hlink.
  apply list_elem_of_fmap in Hlink as (t & -> & Ht).
  apply list_elem_of_lookup in Ht as [k Hk].
  destruct (Hgone k t Hk) as [Hready Hsent].
  { rewrite Hres. apply not_elem_of_nil. }
  destruct (Hpres k t Hk) as [Hct Hkw].
  rewrite view_proxy in Hct by congruence.
  rewrite view_proxy in Hkw by congruence.
  unfold ready in Hready. destruct (t_pc t) eqn:Hpc'; try done.
  - split; [apply Hct; auto | by apply Hkw].
  - destruct (Hsent e eq_refl) as [Hs1 Hs2].
    split; by eapply get_Some_keys.
Qed.

(** X8.  Two runs in a row.  Let a run start from both cache files, over
    distinct links and with atomic polls, and let the dispatcher return.
    If [json.loads] reads back the two documents the last flush printed,
    a second call on the same links, on the disk the first one left,
    starts from a keyword mapping equal to the one returned, and fetches
    and extracts nothing, whatever its schedule. *)
Theorem second_run_is_idle (parsed_links : Dict.t string) (fs : filesystem)
    (schedule : list action) (st0 : pool) (ret : Dict.t Keywords) :
  is_Some (Dict.get fs "content_cache.txt") →
  is_Some (Dict.get fs "keywords_cache.txt") →
  process_links_start parsed_links fs = Ok st0 →
  NoDup (parsed_links.*2) →
  atomic_polls st0 schedule →
  return_value (run st0 schedule) = Some ret →
  let st := run st0 schedule in
  let final := dict_of (contents (shared st)) in
  json_loads (json_dumps (encode_dict final)) = Some (encode_dict final) →
  json_loads (json_dumps (encode_dict ret)) = Some (encode_dict ret) →
  ∃ st1, process_links_start parsed_links (disk st) = Ok st1 ∧
         Dict.equiv (dict_of (contents (shared st1))) final ∧
         Dict.equiv (dict_of (keywords (shared st1))) ret ∧
         ∀ schedule', log (run st1 schedule') = [].
Proof.
  intros Hfc Hfk Hstart Hnd Hatomic Hret st final Hjc Hjk.
  pose proof (process_links_start_inv _ _ _ Hstart)
    as (Hlc & Hlk & _).
  pose proof (load_cache_proxy _ _ _ Hfc Hlc) as Hpc.
  pose proof (load_cache_proxy _ _ _ Hfk Hlk) as Hpk.
  pose proof (finished_links_cached _ _ _ _ _ Hstart Hpc Hpk Hnd Hatomic Hret)
    as Hcached.
  destruct (run_flushed parsed_links fs st0 schedule Hstart)
    as (_ & _ & Hfin).
  pose proof (run_NoDup_contents _ _ _ schedule Hstart) as Hndc.
  pose proof (run_NoDup _ _ _ schedule Hstart) as Hndk.
  fold st in Hcached, Hfin, Hndc, Hndk. fold final in Hndc.
  change (return_value st = Some ret) in Hret. clearbody st.
  unfold return_value in Hret.
  destruct (control st) as [| |ret'] eqn:Hc; simplify_eq.
  destruct (Hfin ret eq_refl) as (_ & Heq & Hdk & Hdc).
  rewrite <- Heq in Hndk. fold final in Hdc, Hcached.
  destruct (load_cache_dumped "content_cache.txt" final (disk st))
    as (dc & Hloadc & Heqc); [done..|].
  destruct (load_cache_dumped "keywords_cache.txt" ret (disk st))
    as (dk & Hloadk & Heqk); [apply keywords_of_to_json|done..|].
  assert (Hstart1 : ∃ st1, process_links_start parsed_links (disk st) = Ok st1
            ∧ contents (shared st1) = ManagerDict dc
            ∧ keywords (shared st1) = ManagerDict dk).
  { unfold process_links_start, load_content_cache, load_keywords_cache.
    rewrite Hloadc, Hloadk. simpl. eauto. }
  destruct Hstart1 as (st1 & Hstart1 & Hc1 & Hk1).
  exists st1. split_and!; [done|by rewrite Hc1|by rewrite Hk1|].
  intros schedule'.
  destruct (run_hits_cache _ _ _ schedule' Hstart1) as (_ & Hfetch & Hextract).
  rewrite Hc1, Hk1 in *. simpl in *.
  destruct (log (run st1 schedule')) as [|ev evs] eqn:Hlog; [done|].
  exfalso. destruct ev as [link|link].
  - destruct (Hfetch link) as [Hni Hin]; [left|].
    apply Hni. rewrite (equiv_keys dc final link Heqc).
    by apply Hcached.
  - destruct (Hextract link) as [Hni Hin]; [left|].
    apply Hni. rewrite (equiv_keys dk ret link Heqk).
    rewrite Heq. by apply Hcached.
Qed.

Lemma worker_step_single sh t rs cp fs lg :
  worker_step 0 {| shared := sh; tasks := [t]; results := rs; control := cp;
                   disk := fs; log := lg |}
  = {| shared := (process_link sh t).1.1; tasks := [(process_link sh t).1.2];
       results := rs; control := cp; disk := fs;
       log := lg ++ (process_link sh t).2 |}.
Proof. by rewrite (worker_step_unfold 0 _ t). Qed.

(** X9.  The polls are not atomic in the code, and a failure that falls
    between the loop of lines 141-148 and the filter of line 150 goes
    unrecorded: with one link whose fetch raises, the schedule in which
    the task runs between the two lets the dispatcher return the keyword
    mapping as it was loaded, without a sentinel for the link. *)
Theorem failure_after_poll_is_lost (title link : string) (fs : filesystem)
    (st0 : pool) (e : string) :
  process_links_start [(title, link)] fs = Ok st0 →
  link ∉ Dict.keys (dict_of (contents (shared st0))) →
  get_content link = Raise e →
  let st := run st0 [Dispatcher; Worker 0; Worker 0; Dispatcher; Dispatcher] in
  (t_pc <$> tasks st) = [Raised e] ∧
  shared st = shared st0 ∧
  return_value st = Some (dict_of (keywords (shared st0))).
Proof.
  intros (_ & _ & Ht & Hr & Hc & _)%process_links_start_inv Hnew Hraise.
  destruct st0 as [sh ts rs cp fs0 lg]. simpl in *. subst ts rs cp.
  assert (Hmem : Dict.mem (view (contents sh) (dict_of (contents sh))) link
                 = false).
  { rewrite view_dict_of. apply not_true_is_false.
    by rewrite mem_true. }
  unfold run. cbn [foldl step].
  set (t0 := submit sh link).
  set (t1 := at_pc t0 AtFetch).
  set (t2 := at_pc t1 (Raised e)).
  assert (Hcheck : process_link sh t0 = (sh, t1, [])).
  { unfold process_link, t1, t0. cbn [t_pc submit t_contents t_link].
    by rewrite Hmem. }
  assert (Hfetch : process_link sh t1 = (sh, t2, [Fetch link])).
  { unfold process_link, t2, t1, t0. cbn [t_pc at_pc submit t_link].
    by rewrite Hraise. }
  assert (E1 : dispatcher_step
                 {| shared := sh; tasks := [t0]; results := [(0, link)];
                    control := AtWhile; disk := fs0; log := lg |}
               = {| shared := sh; tasks := [t0]; results := [(0, link)];
                    control := AtFilter; disk := fs0; log := lg |})
    by reflexivity.
  assert (E4 : dispatcher_step
                 {| shared := sh; tasks := [t2]; results := [(0, link)];
                    control := AtFilter; disk := fs0;
                    log := (lg ++ []) ++ [Fetch link] |}
               = {| shared := sh; tasks := [t2]; results := [];
                    control := AtWhile; disk := update_caches sh fs0;
                    log := (lg ++ []) ++ [Fetch link] |})
    by reflexivity.
  assert (E5 : dispatcher_step
                 {| shared := sh; tasks := [t2]; results := [];
                    control := AtWhile; disk := update_caches sh fs0;
                    log := (lg ++ []) ++ [Fetch link] |}
               = {| shared := sh; tasks := [t2]; results := [];
                    control := Finished (dict_of (keywords sh));
                    disk := update_caches sh (update_caches sh fs0);
                    log := (lg ++ []) ++ [Fetch link] |})
    by reflexivity.
  rewrite E1, worker_step_single, Hcheck. cbn [fst snd].
  rewrite worker_step_single, Hfetch. cbn [fst snd].
  by rewrite E4, E5.
Qed.
End two_runs.

(** ** A task run alone *)

Section alone.
Context `{!Web, !Extractor, !Json}.

Lemma run_single n : ∀ sh t rs cp fs lg,
  run {| shared := sh; tasks := [t]; results := rs; control := cp;
         disk := fs; log := lg |} (replicate n (Worker 0))
  = {| shared := (task_steps n sh t lg).1.1;
       tasks := [(task_steps n sh t lg).1.2];
       results := rs; control := cp; disk := fs;
       log := (task_steps n sh t lg).2 |}.
Proof.
  induction n as [|n IH]; intros sh t rs cp fs lg; [done|].
  cbn [replicate]. unfold run. cbn [foldl step]. fold (run).
  rewrite worker_step_single. cbn [task_steps].
  destruct (process_link sh t) as [[sh' t'] evs']. apply IH.
Qed.

Ltac advance :=
  cbn [task_steps]; unfold process_link at 1;
  cbn [t_pc t_link t_contents t_keywords at_pc contents keywords view store
       dict_of app];
  unfold Dict.mem.

Lemma task_steps_seq (c : Dict.t string) (k : Dict.t Keywords) link
    (own_c : Dict.t string) (own_k : Dict.t Keywords) :
  task_steps 5 {| contents := ManagerDict c; keywords := ManagerDict k |}
    {| t_link := link; t_pc := AtContentCheck;
       t_contents := own_c; t_keywords := own_k |} [] =
  let '(c', k', r, evs) := process_link_seq c k link in
  ({| contents := ManagerDict c'; keywords := ManagerDict k' |},
   {| t_link := link; t_pc := pc_of r;
      t_contents := own_c; t_keywords := own_k |}, evs).
Proof.
  unfold process_link_seq, Dict.mem.
  advance. destruct (Dict.get c link) as [text|] eqn:Hc.
  - advance. destruct (Dict.get k link) as [kws|] eqn:Hk.
    + by do 3 advance.
    + advance. rewrite Hc. destruct (get_keywords text) as [kws|e].
      * by do 2 advance.
      * by do 2 advance.
  - advance. destruct (get_content link) as [text|e].
    + advance. destruct (Dict.get k link) as [kws|] eqn:Hk.
      * by do 2 advance.
      * advance. rewrite get_set_eq. destruct (get_keywords text) as [kws|e].
        -- by advance.
        -- by advance.
    + by do 3 advance.
Qed.

(** X10.  The five steps of a task, taken without another step in
    between on two proxies, do what lines 110-114 do in sequence: they
    leave the two dictionaries, the outcome and the extractor calls of
    [process_link_seq]. *)
Theorem process_link_alone (c : Dict.t string) (k : Dict.t Keywords)
    (link : string) (own_c : Dict.t string) (own_k : Dict.t Keywords)
    (rs : list (nat * string)) (cp : control_point) (fs : filesystem) :
  let st :=
    {| shared := {| contents := ManagerDict c; keywords := ManagerDict k |};
       tasks := [{| t_link := link; t_pc := AtContentCheck;
                    t_contents := own_c; t_keywords := own_k |}];
       results := rs; control := cp; disk := fs; log := [] |} in
  let st' := run st (replicate 5 (Worker 0)) in
  let '(c', k', r, evs) := process_link_seq c k link in
  shared st' = {| contents := ManagerDict c'; keywords := ManagerDict k' |} ∧
  tasks st' = [{| t_link := link; t_pc := pc_of r;
                  t_contents := own_c; t_keywords := own_k |}] ∧
  log st' = evs ∧
  results st' = rs ∧ control st' = cp ∧ disk st' = fs.
Proof.
  cbv zeta. rewrite run_single, task_steps_seq.
  by destruct (process_link_seq c k link) as [[[c' k'] r] evs].
Qed.
End alone.

Lemma cold_cache_keeps_only_failures_witness :
  Dict.get cold_return (t_link cold_task) = None.
Proof.
  refine (proj2 (@cold_cache_keeps_only_failures demo_web demo_extractor
                   demo_json demo_parsed_links [] demo_schedule cold_start
                   cold_return _ _ _) _ 1 cold_task _ _).
  - reflexivity.
  - vm_compute. reflexivity.
  - vm_compute. reflexivity.
  - by apply (bool_decide_unpack _).
  - vm_compute. reflexivity.
  - reflexivity.
Defined.

Lemma returned_mapping_is_persisted_witness :
  Dict.get (disk (@run demo_web demo_extractor demo_json demo_start
                    demo_schedule)) "keywords_cache.txt"
  = Some (@json_dumps demo_json (encode_dict demo_return)).
Proof.
  refine (proj1 (proj2 (@returned_mapping_is_persisted demo_web demo_extractor
                          demo_json demo_parsed_links demo_disk demo_schedule
                          demo_start demo_return _ _))).
  - vm_compute. reflexivity.
  - vm_compute. reflexivity.
Defined.

Lemma second_run_is_idle_witness :
  ∃ st1, @process_links_start demo_json one_link
           (disk (@run demo_web silent_extractor demo_json one_start
                    one_schedule)) = Ok st1 ∧
         log (@run demo_web silent_extractor demo_json st1 one_schedule) = [].
Proof.
  destruct (@second_run_is_idle demo_web silent_extractor demo_json
              one_link demo_disk one_schedule one_start one_return)
    as (st1 & Hstart1 & _ & _ & Hidle).
  - vm_compute. eauto.
  - vm_compute. eauto.
  - vm_compute. reflexivity.
  - by apply (bool_decide_unpack _).
  - vm_compute. repeat split; intros; done.
  - vm_compute. reflexivity.
  - vm_compute. reflexivity.
  - vm_compute. reflexivity.
  - exists st1. split; [exact Hstart1 | apply Hidle].
Defined.

Lemma failure_after_poll_is_lost_witness :
  return_value
    (@run demo_web demo_extractor demo_json
       {| shared := {| contents := ManagerDict []; keywords := ManagerDict [] |};
          tasks := [{| t_link := "https://a.com/gone"; t_pc := AtContentCheck;
                       t_contents := []; t_keywords := [] |}];
          results := [(0, "https://a.com/gone")]; control := AtWhile;
          disk := demo_disk; log := [] |}
       [Dispatcher; Worker 0; Worker 0; Dispatcher; Dispatcher])
  = Some [].
Proof.
  refine (proj2 (proj2 (@failure_after_poll_is_lost demo_web demo_extractor
                          demo_json "gone" "https://a.com/gone" demo_disk
                          _ "ConnectionError" _ _ _))).
  - vm_compute. reflexivity.
  - vm_compute. apply not_elem_of_nil.
  - reflexivity.
Defined.

Lemma failed_tasks_get_sentinels_witness :
  demo_return =
  dict_of (keywords (shared (@run demo_web demo_extractor demo_json
                               demo_start demo_schedule))).
Proof.
  refine (proj1 (@failed_tasks_get_sentinels demo_web demo_extractor demo_json
                   demo_parsed_links demo_disk demo_schedule demo_start
                   demo_return _ _ _ _)).
  - vm_compute. reflexivity.
  - by apply (bool_decide_unpack _).
  - vm_compute. repeat split; intros; done.
  - vm_compute. reflexivity.
Defined.

Example demo_run_isolates :
  Dict.get demo_return "https://a.com/gone" = Some ERROR ∧
  Dict.get demo_return "https://a.com/short" = Some [("EROR", 0.5%float)].
Proof. vm_compute. done. Qed.

(** ** [print_to_md] *)

Lemma update_keys {V} (kvs : list (string * V)) : ∀ (acc : Dict.t V) k,
  k ∈ Dict.keys (Dict.update acc kvs) ↔ k ∈ Dict.keys acc ∨ k ∈ kvs.*1.
Proof.
  induction kvs as [|[k' v'] kvs IH]; intros acc k.
  - csimpl. rewrite elem_of_nil. tauto.
  - change (Dict.update acc ((k', v') :: kvs))
      with (Dict.update (Dict.set acc k' v') kvs).
    rewrite IH. csimpl. rewrite <- !mem_true, mem_set, elem_of_cons.
    split; [intros [[->|?]|?]|intros [?|[->|?]]]; auto.
Qed.

Lemma link_to_title_keys (title_to_link : Dict.t string) link :
  link ∈ Dict.keys (Md.link_to_title title_to_link) ↔ link ∈ title_to_link.*2.
Proof.
  unfold Md.link_to_title. rewrite update_keys, <- list_fmap_compose.
  change (Dict.keys []) with (@nil string). rewrite elem_of_nil.
  split; [intros [[]|?]|right]; done.
Qed.

Lemma write_links_ok titles keywords links : ∀ text,
  Forall (λ link, link ∈ Dict.keys titles ∧ link ∈ Dict.keys keywords) links →
  (Md.write_links titles keywords links text).2 = Ok ().
Proof.
  induction links as [|link links IH]; intros text Hall; [done|].
  apply Forall_cons in Hall as [[[t Ht]%keys_get_is_Some
                                  [kws Hk]%keys_get_is_Some] Hall].
  simpl. rewrite Ht, Hk. by apply IH.
Qed.

Lemma write_links_raise titles keywords links : ∀ text,
  Exists (λ link, link ∉ Dict.keys titles ∨ link ∉ Dict.keys keywords) links →
  (Md.write_links titles keywords links text).2 = Raise "KeyError".
Proof.
  induction links as [|link links IH]; intros text Hex;
    [by apply Exists_nil in Hex|].
  simpl.
  destruct (Dict.get titles link) as [t|] eqn:Ht; [|done].
  destruct (Dict.get keywords link) as [kws|] eqn:Hk; [|done].
  apply IH. apply Exists_cons in Hex as [[Hno|Hno]|Hex]; [| |done].
  - exfalso. apply Hno. by eapply get_Some_keys.
  - exfalso. apply Hno. by eapply get_Some_keys.
Qed.

Lemma write_domains_ok titles keywords domains : ∀ text,
  Forall (λ link, link ∈ Dict.keys titles ∧ link ∈ Dict.keys keywords)
         (concat domains.*2) →
  (Md.write_domains titles keywords domains text).2 = Ok ().
Proof.
  induction domains as [|[domain links] domains IH]; intros text Hall; [done|].
  csimpl in Hall. apply Forall_app in Hall as [Hlinks Hall]. simpl.
  pose proof (write_links_ok titles keywords links
                (text +:+ Md.header domain links) Hlinks) as Hok.
  destruct (Md.write_links titles keywords links
              (text +:+ Md.header domain links)) as [text' r].
  simpl in Hok. subst r. by apply IH.
Qed.

Lemma write_domains_raise titles keywords domains : ∀ text,
  Exists (λ link, link ∉ Dict.keys titles ∨ link ∉ Dict.keys keywords)
         (concat domains.*2) →
  (Md.write_domains titles keywords domains text).2 = Raise "KeyError".
Proof.
  induction domains as [|[domain links] domains IH]; intros text Hex;
    [by apply Exists_nil in Hex|].
  csimpl in Hex. simpl.
  destruct (decide (Exists (λ link, link ∉ Dict.keys titles ∨
                                    link ∉ Dict.keys keywords) links))
    as [Hhere|Hlater].
  - pose proof (write_links_raise titles keywords links
                  (text +:+ Md.header domain links) Hhere) as Hr.
    destruct (Md.write_links titles keywords links
                (text +:+ Md.header domain links)) as [text' r].
    simpl in Hr. by subst r.
  - apply Exists_app in Hex as [?|Hex]; [done|].
    assert (Hall : Forall (λ link, link ∈ Dict.keys titles ∧
                                   link ∈ Dict.keys keywords) links).
    { apply Forall_forall. intros link Hin.
      destruct (decide (link ∈ Dict.keys titles));
        destruct (decide (link ∈ Dict.keys keywords)); try done;
        exfalso; apply Hlater, Exists_exists; eauto. }
    pose proof (write_links_ok titles keywords links
                  (text +:+ Md.header domain links) Hall) as Hok.
    destruct (Md.write_links titles keywords links
                (text +:+ Md.header domain links)) as [text' r].
    simpl in Hok. subst r. by apply IH.
Qed.

Lemma print_to_md_ok_iff (title_to_link : Dict.t string)
    (domain_to_link keywords : Dict.t (list string)) :
  (Forall (λ link, link ∈ title_to_link.*2 ∧ link ∈ Dict.keys keywords)
          (concat domain_to_link.*2) →
   Md.print_to_md title_to_link domain_to_link keywords
   = ((Md.print_to_md title_to_link domain_to_link keywords).1, Ok ())) ∧
  (Exists (λ link, link ∉ title_to_link.*2 ∨ link ∉ Dict.keys keywords)
          (concat domain_to_link.*2) →
   Md.print_to_md title_to_link domain_to_link keywords
   = ((Md.print_to_md title_to_link domain_to_link keywords).1,
      Raise "KeyError")).
Proof.
  unfold Md.print_to_md. split; intros Hlinks.
  - pose proof (write_domains_ok (Md.link_to_title title_to_link) keywords
                  domain_to_link "") as Hok.
    destruct (Md.write_domains _ _ _ _) as [text r]. simpl in *.
    rewrite Hok; [done|]. eapply Forall_impl; [exact Hlinks|].
    intros link [? ?]. by rewrite link_to_title_keys.
  - pose proof (write_domains_raise (Md.link_to_title title_to_link) keywords
                  domain_to_link "") as Hraise.
    destruct (Md.write_domains _ _ _ _) as [text r]. simpl in *.
    rewrite Hraise; [done|]. eapply Exists_impl; [exact Hlinks|].
    intros link. by rewrite link_to_title_keys.
Qed.

(** X16.  [print_to_md] ends without an exception when every link of
    every bucket is a value of the title mapping and has a keyword list,
    and with [KeyError] when some link is not or has none. *)
Theorem print_to_md_key_error (title_to_link : Dict.t string)
    (domain_to_link keywords : Dict.t (list string)) :
  (Forall (λ link, link ∈ title_to_link.*2 ∧ link ∈ Dict.keys keywords)
          (concat domain_to_link.*2) →
   (Md.print_to_md title_to_link domain_to_link keywords).2 = Ok ()) ∧
  (Exists (λ link, link ∉ title_to_link.*2 ∨ link ∉ Dict.keys keywords)
          (concat domain_to_link.*2) →
   (Md.print_to_md title_to_link domain_to_link keywords).2
   = Raise "KeyError").
Proof.
  unfold Md.print_to_md. split; intros Hlinks.
  - apply write_domains_ok. eapply Forall_impl; [exact Hlinks|].
    intros link [? ?]. by rewrite link_to_title_keys.
  - apply write_domains_raise. eapply Exists_impl; [exact Hlinks|].
    intros link. by rewrite link_to_title_keys.
Qed.

(** ** [main] *)

Section main_properties.
Context `{!Web, !Extractor, !Json, !Similarity, !SetOrder}.

Lemma cold_returned_absent parsed_links fs st0 schedule ret k t :
  Dict.get fs "keywords_cache.txt" = None →
  process_links_start parsed_links fs = Ok st0 →
  NoDup (parsed_links.*2) →
  return_value (run st0 schedule) = Some ret →
  tasks (run st0 schedule) !! k = Some t → t_pc t = Returned →
  t_link t ∈ parsed_links.*2 ∧ t_link t ∉ Dict.keys ret.
Proof.
  intros Hno Hstart Hnd Hret Hk Hpc.
  destruct (run_only_failures parsed_links fs st0 schedule Hno Hstart)
    as (_ & Hent & Hfin).
  pose proof (run_tasks_of parsed_links fs st0 schedule Hstart) as Hwf.
  split; [by eapply tasks_of_link|].
  unfold return_value in Hret.
  destruct (control (run st0 schedule)) as [| |ret'] eqn:Hc; simplify_eq.
  rewrite (Hfin ret eq_refl). rewrite keys_get_is_Some. intros [kws Hget].
  destruct (Hent _ _ Hget) as [_ (k' & t' & e & Hk' & Hl & He)].
  assert (k' = k) as -> by (by eapply tasks_of_inj).
  simplify_eq. congruence.
Qed.

Lemma buckets_links (parsed_links : Dict.t string) buckets link :
  group_links_by_domain parsed_links = Ok buckets →
  link ∈ concat buckets.*2 ↔ link ∈ parsed_links.*2.
Proof.
  intros Hb. destruct (group_links_partition _ _ _ Hb) as [Hperm _].
  by rewrite Hperm.
Qed.

(** X17.  [main] runs to its end.  From both cache files, over distinct
    links that all have the shape of a URL, with atomic polls and the
    dispatcher returned: [main] ends without an exception, having written
    [keywords.json] and [result.md]. *)
Theorem main_completes (parsed_links : Dict.t string) (fs : filesystem)
    (schedule : list action) (st0 : pool) (ret : Dict.t Keywords) :
  is_Some (Dict.get fs "content_cache.txt") →
  is_Some (Dict.get fs "keywords_cache.txt") →
  process_links_start parsed_links fs = Ok st0 →
  NoDup (parsed_links.*2) →
  Forall (λ l, is_Some (match_domain l)) (parsed_links.*2) →
  atomic_polls st0 schedule →
  return_value (run st0 schedule) = Some ret →
  ∃ fs' domains,
    @main _ _ _ _ _ md_report parsed_links fs schedule = Some (fs', Ok ()) ∧
    group_links_by_domain parsed_links = Ok domains ∧
    Dict.get fs' "keywords.json"
      = Some (json_dumps (encode_dict (returned (simplify_keywords ret)))) ∧
    Dict.get fs' "result.md"
      = Some (Md.print_to_md parsed_links domains
                (returned (simplify_keywords ret))).1.
Proof.
  intros Hfc Hfk Hstart Hnd Hshape Hatomic Hret.
  pose proof (process_links_start_inv _ _ _ Hstart) as (Hlc & Hlk & _).
  pose proof (load_cache_proxy _ _ _ Hfc Hlc) as Hpc.
  pose proof (load_cache_proxy _ _ _ Hfk Hlk) as Hpk.
  pose proof (finished_links_cached _ _ _ _ _ Hstart Hpc Hpk Hnd Hatomic Hret)
    as Hcached.
  destruct (run_flushed parsed_links fs st0 schedule Hstart)
    as (_ & _ & Hfin).
  destruct (group_links_ok parsed_links.*2 [] Hshape) as (domains & Hb & _).
  fold (group_links_by_domain parsed_links) in Hb.
  unfold main. rewrite Hstart. unfold return_value in Hret.
  destruct (control (run st0 schedule)) as [| |ret'] eqn:Hc; simplify_eq.
  destruct (Hfin ret eq_refl) as (_ & Heq & _).
  rewrite Hb. eexists _, domains. split_and!; [|done| |].
  - unfold print_to_md, md_report.
    rewrite (proj1 (print_to_md_ok_iff parsed_links domains _)); [done|].
    apply Forall_forall. intros link Hin.
    apply (buckets_links _ _ _ Hb) in Hin. split; [done|].
    rewrite simplify_keywords_keys, Heq. by apply Hcached.
  - simpl. rewrite get_set_ne by done. apply get_set_eq.
  - simpl. apply get_set_eq.
Qed.

(** X18.  A first run, without the keyword cache file, cannot produce
    the report when a task returned: over distinct links that all have
    the shape of a URL, once the dispatcher has returned, [main] ends with
    the [KeyError] of [print_to_md], [keywords.json] written. *)
Theorem main_cold_start_fails (parsed_links : Dict.t string)
    (fs : filesystem) (schedule : list action) (st0 : pool)
    (ret : Dict.t Keywords) (k : nat) (t : task) :
  Dict.get fs "keywords_cache.txt" = None →
  process_links_start parsed_links fs = Ok st0 →
  NoDup (parsed_links.*2) →
  Forall (λ l, is_Some (match_domain l)) (parsed_links.*2) →
  return_value (run st0 schedule) = Some ret →
  tasks (run st0 schedule) !! k = Some t → t_pc t = Returned →
  ∃ fs',
    @main _ _ _ _ _ md_report parsed_links fs schedule
    = Some (fs', Raise "KeyError") ∧
    Dict.get fs' "keywords.json"
      = Some (json_dumps (encode_dict (returned (simplify_keywords ret)))).
Proof.
  intros Hno Hstart Hnd Hshape Hret Hk Hpc.
  destruct (cold_returned_absent _ _ _ _ _ _ _ Hno Hstart Hnd Hret Hk Hpc)
    as [Hin Hout].
  destruct (group_links_ok parsed_links.*2 [] Hshape) as (domains & Hb & _).
  fold (group_links_by_domain parsed_links) in Hb.
  unfold main. rewrite Hstart. unfold return_value in Hret.
  destruct (control (run st0 schedule)) as [| |ret'] eqn:Hc; simplify_eq.
  rewrite Hb. eexists. split.
  - unfold print_to_md, md_report.
    rewrite (proj2 (print_to_md_ok_iff parsed_links domains _)); [done|].
    apply Exists_exists. exists (t_link t). split.
    + by apply (buckets_links _ _ _ Hb).
    + right. by rewrite simplify_keywords_keys.
  - simpl. rewrite get_set_ne by done. apply get_set_eq.
Qed.

Lemma update_item_raises x e :
  update_item x = Raise e → e = "TypeError" ∨ e = "ValueError".
Proof.
  unfold update_item. repeat case_match; intros [=]; subst; auto.
Qed.

Lemma update_items_raises x e :
  update_items x = Raise e → e = "TypeError" ∨ e = "ValueError".
Proof.
  destruct x as [| | |s|xs|kvs]; simpl; try (intros [=]; subst; by auto).
  - destruct s; intros [=]; subst; auto.
  - induction xs as [|y xs IH]; simpl; [done|].
    destruct (update_item y) as [item|e'] eqn:Hitem; simpl.
    + destruct (mapM update_item xs) as [items|e'']; simpl; [done|].
      intros [= <-]. by apply IH.
    + intros [= <-]. by eapply update_item_raises.
Qed.

Lemma load_cache_raises {V} `{!Jsonable V} path fs e :
  load_cache (V:=V) path fs = Raise e →
  e = "JSONDecodeError" ∨ e = "TypeError" ∨ e = "ValueError" ∨ e = UNTYPED.
Proof.
  unfold load_cache. destruct (Dict.get fs path) as [text|]; [|done].
  destruct (json_loads text) as [x|]; [|intros [= <-]; auto].
  destruct (update_items x) as [items|e'] eqn:Hitems; simpl.
  - destruct (typed_items items); [done|]. intros [= <-]. auto.
  - intros [= <-]. apply update_items_raises in Hitems as [->| ->]; auto.
Qed.

(** X19.  How [main] ends short of the report, with any [print_to_md]:
    a missing input file ends it with [FileNotFoundError]; a cache file
    that is not JSON ends it with [JSONDecodeError], and one whose
    document [dict.update] does not take, with the [TypeError] or
    [ValueError] of that call; no file is written in these cases.  When
    the dispatcher has returned and some link has not the shape the
    pattern asks for, it ends with the [AttributeError] of the grouping,
    [keywords.json] written and [result.md] as it was. *)
Theorem main_stops_early `{!Report} (file_path : string) (fs : filesystem)
    (schedule : list action) :
  (Dict.get fs file_path = None →
   main_argv file_path fs schedule = Some (fs, Raise "FileNotFoundError")) ∧
  (∀ parsed_links e,
     parse_markdown_links fs file_path = Ok parsed_links →
     process_links_start parsed_links fs = Raise e →
     e ≠ UNTYPED →
     (e = "JSONDecodeError" ∨ e = "TypeError" ∨ e = "ValueError") ∧
     main_argv file_path fs schedule = Some (fs, Raise e)) ∧
  (∀ text,
     Dict.get fs "content_cache.txt" = Some text → json_loads text = None →
     ∀ parsed_links, process_links_start parsed_links fs
                     = Raise "JSONDecodeError") ∧
  (∀ parsed_links st0 ret,
     parse_markdown_links fs file_path = Ok parsed_links →
     process_links_start parsed_links fs = Ok st0 →
     return_value (run st0 schedule) = Some ret →
     Exists (λ l, match_domain l = None) (parsed_links.*2) →
     ∃ fs',
       main_argv file_path fs schedule
       = Some (fs', Raise "AttributeError") ∧
       Dict.get fs' "keywords.json"
         = Some (json_dumps (encode_dict (returned (simplify_keywords ret)))) ∧
       Dict.get fs' "result.md" = Dict.get fs "result.md").
Proof.
  split_and!.
  - intros Hno. unfold main_argv, parse_markdown_links. by rewrite Hno.
  - intros parsed_links e Hparse He Htyped. unfold main_argv. rewrite Hparse.
    split; [|unfold main; by rewrite He].
    unfold process_links_start in He.
    destruct (load_content_cache fs) as [c|e1] eqn:Hc; simpl in He.
    + destruct (load_keywords_cache fs) as [k|e2] eqn:Hk; simpl in He;
        [done|]. injection He as ->.
      apply load_cache_raises in Hk as [?|[?|[?|?]]]; auto. done.
    + injection He as ->.
      apply load_cache_raises in Hc as [?|[?|[?|?]]]; auto. done.
  - intros text Hfile Hbad parsed_links.
    unfold process_links_start, load_content_cache, load_cache.
    by rewrite Hfile, Hbad.
  - intros parsed_links st0 ret Hparse Hstart Hret Hbad.
    destruct (run_flushed parsed_links fs st0 schedule Hstart)
      as (_ & Hrest & _).
    unfold main_argv. rewrite Hparse.
    unfold main. rewrite Hstart. unfold return_value in Hret.
    destruct (control (run st0 schedule)) as [| |ret'] eqn:Hc; simplify_eq.
    unfold group_links_by_domain. rewrite group_links_raise by done.
    eexists. split_and!; [done|apply get_set_eq|].
    rewrite get_set_ne by done. by apply Hrest.
Qed.
End main_properties.

Lemma main_completes_witness :
  ∃ fs' domains,
    @main demo_web demo_extractor demo_json indel_similarity
      remove_dups_order md_report demo_parsed_links demo_disk demo_schedule
    = Some (fs', Ok ()) ∧
    group_links_by_domain demo_parsed_links = Ok domains ∧
    Dict.get fs' "keywords.json"
      = Some (@json_dumps demo_json
                (encode_dict (returned (@simplify_keywords indel_similarity
                                          remove_dups_order demo_return)))) ∧
    Dict.get fs' "result.md"
      = Some (Md.print_to_md demo_parsed_links domains
                (returned (@simplify_keywords indel_similarity
                             remove_dups_order demo_return))).1.
Proof.
  refine (@main_completes demo_web demo_extractor demo_json indel_similarity
            remove_dups_order demo_parsed_links demo_disk demo_schedule
            demo_start demo_return _ _ _ _ _ _ _).
  - vm_compute. eauto.
  - vm_compute. eauto.
  - vm_compute. reflexivity.
  - by apply (bool_decide_unpack _).
  - repeat constructor; vm_compute; eauto.
  - vm_compute. repeat split; intros; done.
  - vm_compute. reflexivity.
Defined.

Lemma main_cold_start_fails_witness :
  ∃ fs',
    @main demo_web demo_extractor demo_json indel_similarity
      remove_dups_order md_report demo_parsed_links [] demo_schedule
    = Some (fs', Raise "KeyError") ∧
    Dict.get fs' "keywords.json"
      = Some (@json_dumps demo_json
                (encode_dict (returned (@simplify_keywords indel_similarity
                                          remove_dups_order cold_return)))).
Proof.
  refine (@main_cold_start_fails demo_web demo_extractor demo_json
            indel_similarity remove_dups_order demo_parsed_links []
            demo_schedule cold_start cold_return 1 cold_task _ _ _ _ _ _ _).
  - reflexivity.
  - vm_compute. reflexivity.
  - by apply (bool_decide_unpack _).
  - repeat constructor; vm_compute; eauto.
  - vm_compute. reflexivity.
  - vm_compute. reflexivity.
  - reflexivity.
Defined.

(** The report of the demonstration run. *)
Example demo_result_md :
  ∃ out, @main demo_web demo_extractor demo_json indel_similarity
           remove_dups_order md_report demo_parsed_links demo_disk
           demo_schedule = Some out ∧
         Dict.get out.1 "result.md" =
         Some ("# a.com (2)" +:+ Md.newline
               +:+ "- [gone](https://a.com/gone) - EROR" +:+ Md.newline
               +:+ "- [short](https://a.com/short) - EROR" +:+ Md.newline
               +:+ Md.newline).
Proof. eexists. split; vm_compute; reflexivity. Qed.

(** ** [parse_markdown_links] *)

Lemma append_assoc_s (a b c : string) : (a +:+ b) +:+ c = a +:+ (b +:+ c).
Proof. induction a as [|x a IH]; push_append; [done|]. by rewrite IH. Qed.

Lemma length_append (a b : string) :
  String.length (a +:+ b) = String.length a + String.length b.
Proof. induction a as [|x a IH]; push_append; simpl; [done|]. by rewrite IH. Qed.

Lemma occurs_append c (a b : string) :
  occurs c (a +:+ b) = occurs c a || occurs c b.
Proof.
  induction a as [|x a IH]; push_append; simpl; [done|].
  by rewrite IH, orb_assoc.
Qed.

Lemma line_feeds_append (a b : string) :
  line_feeds (a +:+ b) = line_feeds a + line_feeds b.
Proof.
  induction a as [|x a IH]; push_append; simpl; [done|]. rewrite IH. lia.
Qed.

Lemma line_free_occurs c (x y : string) :
  c ≠ LF → line_free c (x +:+ String c y) → occurs LF x = true.
Proof.
  intros Hc. induction x as [|a x IH]; push_append; simpl.
  - intros [?|[? _]]; done.
  - intros [->|[_ Hfree]]; [by rewrite bool_decide_eq_true_2|].
    rewrite IH by done. apply orb_true_r.
Qed.

Lemma dot_star_cons {R} (k : string → option R) a s :
  dot_star k (String a s) =
  if decide (a = LF) then r ← k (String a s); Some ("", r)
  else match dot_star k s with
       | Some (g, r) => Some (String a g, r)
       | None => r ← k (String a s); Some ("", r)
       end.
Proof. done. Qed.

Lemma dot_star_sound {R} (k : string → option R) s g r :
  dot_star k s = Some (g, r) →
  occurs LF g = false ∧ ∃ rest, s = g +:+ rest ∧ k rest = Some r.
Proof.
  revert g r. induction s as [|a s IH]; intros g r; cbn [dot_star].
  - destruct (k "") as [r'|] eqn:Hk; [|done]. intros [= <- <-].
    split; [done|]. exists "". by push_append.
  - destruct (decide (a = LF)) as [->|Hne].
    + destruct (k (String LF s)) as [r'|] eqn:Hk; [|done]. intros [= <- <-].
      split; [done|]. exists (String LF s). by push_append.
    + destruct (dot_star k s) as [[g' r']|] eqn:Hrec.
      * intros [= <- <-].
        destruct (IH _ _ eq_refl) as [Hg (rest & -> & Hk)]. split.
        -- simpl. by rewrite bool_decide_eq_false_2.
        -- exists rest. by push_append.
      * destruct (k (String a s)) as [r'|] eqn:Hk; [|done]. intros [= <- <-].
        split; [done|]. exists (String a s). by push_append.
Qed.

Lemma after_link_none s :
  dot_star after_link s = None ↔ line_free ")" s.
Proof.
  induction s as [|a s IH]; cbn [dot_star line_free]; [done|].
  destruct (decide (a = LF)) as [->|Hne].
  - split; [auto|done].
  - destruct (dot_star after_link s) as [[g r]|] eqn:Hrec.
    + split; [done|]. intros [?|[_ Hfree]]; [done|]. by apply IH in Hfree.
    + unfold after_link. cbn [strip_prefix].
      destruct (decide (")"%char = a)) as [<-|Hp]; simpl.
      * split; [done|]. by intros [?|[? _]].
      * split; [|done]. intros _. right. split; [done|]. by apply IH.
Qed.

Lemma after_link_greedy s link rest :
  dot_star after_link s = Some (link, rest) → line_free ")" rest.
Proof.
  revert link. induction s as [|a s IH]; intros link; cbn [dot_star]; [done|].
  destruct (decide (a = LF)) as [->|Hne]; [done|].
  destruct (dot_star after_link s) as [[g r]|] eqn:Hrec.
  - intros [= <- <-]. by eapply IH.
  - unfold after_link. cbn [strip_prefix].
    destruct (decide (")"%char = a)) as [<-|Hp]; simpl; [|done].
    intros [= <- <-]. by apply after_link_none.
Qed.

Lemma after_link_exact link tail :
  occurs LF link = false → line_free ")" tail →
  dot_star after_link (link +:+ ")" +:+ tail) = Some (link, tail).
Proof.
  intros Hlf Hfree. push_append.
  induction link as [|a link IH]; push_append; rewrite dot_star_cons.
  - rewrite decide_False by done.
    rewrite (proj2 (after_link_none tail) Hfree). done.
  - simpl in Hlf. apply orb_false_iff in Hlf as [Ha Hlf].
    apply bool_decide_eq_false_1 in Ha.
    rewrite decide_False by done. by rewrite IH.
Qed.

Lemma after_text_none s : line_free ")" s → dot_star after_text s = None.
Proof.
  induction s as [|a s IH]; cbn [dot_star line_free]; [done|].
  intros [->|[Ha Hfree]]; [by rewrite decide_True|].
  destruct (decide (a = LF)) as [->|Hne]; [done|].
  rewrite IH by done. unfold after_text. cbn [strip_prefix].
  destruct (decide ("]"%char = a)) as [<-|Hb]; [|done].
  destruct s as [|b s]; [done|].
  destruct (decide ("("%char = b)) as [<-|Hp]; [|done]. simpl.
  destruct Hfree as [?|[_ Hfree]]; [done|].
  by rewrite (proj2 (after_link_none s) Hfree).
Qed.

Lemma after_text_skip x tail :
  occurs LF x = false → has_separator x = false → line_free ")" tail →
  dot_star after_text (x +:+ ")" +:+ tail) = None.
Proof.
  intros Hlf Hsep Hfree. push_append.
  induction x as [|a x IH]; push_append; rewrite dot_star_cons.
  - rewrite decide_False by done. by rewrite after_text_none.
  - simpl in Hlf. apply orb_false_iff in Hlf as [Ha Hlf].
    apply bool_decide_eq_false_1 in Ha.
    cbn [has_separator] in Hsep. apply orb_false_iff in Hsep as [Hhere Hsep].
    rewrite decide_False by done. rewrite IH by done.
    unfold after_text. cbn [strip_prefix].
    destruct (decide ("]"%char = a)) as [<-|Hb]; [|done].
    destruct x as [|b x]; push_append; [done|].
    destruct (decide ("("%char = b)) as [<-|Hp]; [|done].
    by rewrite bool_decide_eq_true_2 in Hhere.
Qed.

Lemma after_text_exact text link tail :
  occurs LF text = false → occurs LF link = false →
  has_separator link = false → line_free ")" tail →
  dot_star after_text (text +:+ "](" +:+ link +:+ ")" +:+ tail)
  = Some (text, (link, tail)).
Proof.
  intros Ht Hl Hsep Hfree.
  pose proof (after_text_skip (String "(" link) tail) as Hskip.
  pose proof (after_link_exact link tail Hl Hfree) as Hexact.
  push_append in Hskip. push_append in Hexact. push_append.
  induction text as [|a text IH]; push_append; rewrite dot_star_cons.
  - rewrite decide_False by done.
    rewrite Hskip; [| |by destruct link|done].
    + unfold after_text. cbn [strip_prefix]. rewrite !decide_True by done.
      simpl. by rewrite Hexact.
    + simpl. by rewrite Hl.
  - simpl in Ht. apply orb_false_iff in Ht as [Ha Ht].
    apply bool_decide_eq_false_1 in Ha.
    rewrite decide_False by done. by rewrite IH.
Qed.

Lemma match_link_exact text link tail :
  occurs LF text = false → occurs LF link = false →
  has_separator link = false → line_free ")" tail →
  match_link ("[" +:+ text +:+ "](" +:+ link +:+ ")" +:+ tail)
  = Some (text, (link, tail)).
Proof.
  intros. unfold match_link. push_append. cbn [strip_prefix].
  rewrite decide_True by done. simpl. by apply after_text_exact.
Qed.

Lemma match_link_sound s text link rest :
  match_link s = Some (text, (link, rest)) →
  s = "[" +:+ text +:+ "](" +:+ link +:+ ")" +:+ rest ∧
  occurs LF text = false ∧ occurs LF link = false ∧ line_free ")" rest.
Proof.
  unfold match_link.
  destruct (strip_prefix "[" s) as [s1|] eqn:H1; [|done]. simpl.
  apply strip_prefix_Some in H1 as ->.
  intros [Ht (s2 & -> & Hk)]%dot_star_sound. unfold after_text in Hk.
  destruct (strip_prefix "](" s2) as [s3|] eqn:H3; [|done]. simpl in Hk.
  apply strip_prefix_Some in H3 as ->.
  pose proof (after_link_greedy _ _ _ Hk) as Hfree.
  apply dot_star_sound in Hk as [Hl (s4 & -> & Hk)].
  apply strip_prefix_Some in Hk as ->. done.
Qed.

Lemma match_link_none s : line_free ")" s → match_link s = None.
Proof.
  intros Hfree. destruct (match_link s) as [[text [link rest]]|] eqn:Hm;
    [|done].
  apply match_link_sound in Hm as (-> & Ht & Hl & _).
  assert (Hre : "[" +:+ text +:+ "](" +:+ link +:+ ")" +:+ rest
                = ("[" +:+ text +:+ "](" +:+ link) +:+ String ")" rest).
  { rewrite !append_assoc_s. by push_append. }
  rewrite Hre in Hfree. apply line_free_occurs in Hfree; [|done].
  rewrite !occurs_append, Ht, Hl in Hfree. done.
Qed.

Lemma match_link_shorter s text link rest :
  match_link s = Some (text, (link, rest)) →
  String.length rest < String.length s ∧ line_feeds rest ≤ line_feeds s.
Proof.
  intros (-> & _)%match_link_sound.
  rewrite !length_append, !line_feeds_append. simpl. lia.
Qed.

Lemma finditer_fuel f1 : ∀ f2 s,
  String.length s < f1 → String.length s < f2 → finditer f1 s = finditer f2 s.
Proof.
  induction f1 as [|f1 IH]; intros f2 s H1 H2; [lia|].
  destruct f2 as [|f2]; [lia|]. simpl.
  destruct (match_link s) as [[text [link rest]]|] eqn:Hm.
  - apply match_link_shorter in Hm as [Hlen _]. f_equal. apply IH; lia.
  - destruct s as [|a s]; [done|]. simpl in *. apply IH; lia.
Qed.

Lemma finditer_sound f : ∀ s text link,
  (text, link) ∈ finditer f s →
  occurs LF text = false ∧ occurs LF link = false ∧
  ∃ pre post, s = pre +:+ "[" +:+ text +:+ "](" +:+ link +:+ ")" +:+ post.
Proof.
  induction f as [|f IH]; intros s text link; simpl;
    [by intros ?%elem_of_nil|].
  destruct (match_link s) as [[text0 [link0 rest]]|] eqn:Hm.
  - apply match_link_sound in Hm as (Hs & Ht & Hl & _).
    intros [[= -> ->]|Hin]%elem_of_cons.
    + split_and!; [done..|]. exists "", rest. by push_append.
    + destruct (IH _ _ _ Hin) as (Ht' & Hl' & pre & post & Hrest).
      split_and!; [done..|].
      exists ("[" +:+ text0 +:+ "](" +:+ link0 +:+ ")" +:+ pre), post.
      rewrite Hs, Hrest. by rewrite !append_assoc_s.
  - destruct s as [|a s]; [by intros ?%elem_of_nil|].
    intros Hin. destruct (IH _ _ _ Hin) as (Ht' & Hl' & pre & post & Hrest).
    split_and!; [done..|]. exists (String a pre), post.
    rewrite Hrest. by push_append.
Qed.

Lemma finditer_count f : ∀ s,
  length (finditer f s) ≤ S (line_feeds s) ∧
  (line_free ")" s → length (finditer f s) ≤ line_feeds s).
Proof.
  induction f as [|f IH]; intros s; simpl; [split; intros; lia|].
  destruct (match_link s) as [[text [link rest]]|] eqn:Hm.
  - split.
    + pose proof (match_link_sound _ _ _ _ Hm) as (_ & _ & _ & Hfree).
      apply match_link_shorter in Hm as [_ Hnl].
      destruct (IH rest) as [_ Hle]. specialize (Hle Hfree). simpl. lia.
    + intros Hfree. by rewrite match_link_none in Hm.
  - destruct s as [|a s]; simpl; [split; intros; lia|].
    destruct (IH s) as [Hall Hline]. split; [lia|].
    intros [->|[_ Hfree]].
    + rewrite decide_True by done. lia.
    + specialize (Hline Hfree). lia.
Qed.

Lemma matches_skip pre s :
  occurs "[" pre = false → matches (pre +:+ s) = matches s.
Proof.
  induction pre as [|a pre IH]; push_append; [done|]. simpl.
  intros [Ha Hpre]%orb_false_iff. apply bool_decide_eq_false_1 in Ha.
  transitivity (matches (pre +:+ s)); [|by apply IH].
  assert (Hno : match_link (String a (pre +:+ s)) = None).
  { unfold match_link. cbn [strip_prefix]. by rewrite decide_False. }
  unfold matches. cbn [finditer String.length]. by rewrite Hno.
Qed.

Lemma matches_here s text link rest :
  match_link s = Some (text, (link, rest)) →
  matches s = (text, link) :: matches rest.
Proof.
  intros Hm. unfold matches at 1. cbn [finditer]. rewrite Hm. f_equal.
  apply match_link_shorter in Hm as [Hlen _]. apply finditer_fuel; lia.
Qed.

(** X20.  A link written on a line of its own way is read as written.
    Let a document start with text free of opening brackets, followed by
    [[text](link)], the text and the link on one line, no ["]("] in the
    link and no closing parenthesis on the rest of the line: the first
    match is [(text, link)], and the search goes on behind the link. *)
Theorem matches_link_line (pre text link tail : string) :
  occurs "[" pre = false →
  occurs LF text = false → occurs LF link = false →
  has_separator link = false →
  line_free ")" tail →
  matches (pre +:+ "[" +:+ text +:+ "](" +:+ link +:+ ")" +:+ tail)
  = (text, link) :: matches tail.
Proof.
  intros Hpre Ht Hl Hsep Hfree. rewrite matches_skip by done.
  apply matches_here. by apply match_link_exact.
Qed.

(** X21.  Every match lies on one line of the document, and no line
    gives more than one: a match is an occurrence of [[text](link)] with
    no line feed in the text or in the link, and there are at most as
    many matches as lines. *)
Theorem matches_within_lines (content : string) :
  (∀ text link, (text, link) ∈ matches content →
     occurs LF text = false ∧ occurs LF link = false ∧
     ∃ pre post,
       content = pre +:+ "[" +:+ text +:+ "](" +:+ link +:+ ")" +:+ post) ∧
  length (matches content) ≤ S (line_feeds content).
Proof.
  split.
  - intros text link. apply finditer_sound.
  - apply finditer_count.
Qed.

Lemma keys_update {V} (kvs : list (string * V)) : ∀ acc : Dict.t V,
  Dict.keys (Dict.update acc kvs) =
  foldl (λ seen x, if decide (x ∈ seen) then seen else seen ++ [x])
        (Dict.keys acc) kvs.*1.
Proof.
  induction kvs as [|[k v] kvs IH]; intros acc; [done|].
  change (Dict.update acc ((k, v) :: kvs))
    with (Dict.update (Dict.set acc k v) kvs).
  rewrite IH. csimpl. f_equal. case_decide as Hin.
  - apply keys_set_present. by apply keys_get_is_Some.
  - apply keys_set_absent. by apply get_None_keys.
Qed.

Lemma get_update_absent {V} (kvs : list (string * V)) : ∀ (acc : Dict.t V) k,
  k ∉ kvs.*1 → Dict.get (Dict.update acc kvs) k = Dict.get acc k.
Proof.
  induction kvs as [|[k' v'] kvs IH]; intros acc k Hni; [done|].
  change (Dict.update acc ((k', v') :: kvs))
    with (Dict.update (Dict.set acc k' v') kvs).
  csimpl in Hni. apply not_elem_of_cons in Hni as [Hne Hni].
  rewrite IH by done. by apply get_set_ne.
Qed.

Lemma get_update_last {V} (ms1 ms2 : list (string * V)) (acc : Dict.t V) k v :
  k ∉ ms2.*1 → Dict.get (Dict.update acc (ms1 ++ (k, v) :: ms2)) k = Some v.
Proof.
  intros Hni. unfold Dict.update. rewrite foldl_app. simpl.
  fold (Dict.update acc ms1).
  fold (Dict.update (Dict.set (Dict.update acc ms1) k v) ms2).
  rewrite get_update_absent by done. apply get_set_eq.
Qed.

(** X22.  [parse_markdown_links] raises when the file is missing.
    Otherwise it returns a mapping whose keys are the texts of the
    matches in the order of their first occurrence, and a text that
    occurs more than once keeps the link of its last occurrence. *)
Theorem parse_markdown_links_spec (fs : filesystem) (file_path : string) :
  (Dict.get fs file_path = None →
   parse_markdown_links fs file_path = Raise "FileNotFoundError") ∧
  (∀ content, Dict.get fs file_path = Some content →
   ∃ links,
     parse_markdown_links fs file_path = Ok links ∧
     Dict.keys links = first_seen (matches content).*1 ∧
     NoDup (Dict.keys links) ∧
     ∀ ms1 text link ms2,
       matches content = ms1 ++ (text, link) :: ms2 → text ∉ ms2.*1 →
       Dict.get links text = Some link).
Proof.
  unfold parse_markdown_links. split.
  - by intros ->.
  - intros content ->. eexists. split_and!; [done|apply keys_update| |].
    + apply update_NoDup. constructor.
    + intros ms1 text link ms2 -> Hni. by apply get_update_last.
Qed.

Lemma matches_link_line_witness :
  matches ("- " +:+ "[" +:+ "A post" +:+ "](" +:+ "https://a.com/x" +:+ ")"
           +:+ " - alpha") = [("A post", "https://a.com/x")].
Proof.
  refine (matches_link_line "- " "A post" "https://a.com/x" " - alpha"
            _ _ _ _ _).
  - reflexivity.
  - reflexivity.
  - reflexivity.
  - reflexivity.
  - vm_compute. intuition discriminate.
Defined.

(** Two links on one line are read as one link, the first text running up
    to the last separator. *)
Example matches_greedy :
  matches ("[a](b) and [c](d)" +:+ Md.newline +:+ "[e](f)")
  = [("a](b) and [c", "d"); ("e", "f")].
Proof. vm_compute. reflexivity. Qed.

(** ** More about [get_content] and the cache files *)

(** X23.  How [get_content] ends.  It raises exactly the exception of the
    first of its three calls that raises: the request, the status check,
    the reduction of the page; after a failed request or status check the
    page is not reduced.  What it returns is the title of the page or a
    text of at least 500 characters. *)
Theorem get_content_outcomes `{!Web} (link : string) :
  (∀ e, get_content link = Raise e ↔
     requests_get link [("User-Agent", USER_AGENT)] = Raise e ∨
     ∃ r, requests_get link [("User-Agent", USER_AGENT)] = Ok r ∧
          (raise_for_status r = Raise e ∨
           raise_for_status r = Ok () ∧ summary (content r) = Raise e)) ∧
  (∀ text, get_content link = Ok text →
     ∃ r html,
       requests_get link [("User-Agent", USER_AGENT)] = Ok r ∧
       raise_for_status r = Ok () ∧
       summary (content r) = Ok html ∧
       (text = title (content r) ∧ String.length (get_text html) < 500 ∨
        text = get_text html ∧ 500 ≤ String.length text)).
Proof.
  unfold get_content.
  destruct (requests_get link [("User-Agent", USER_AGENT)]) as [r|e0]; simpl.
  2:{ split; [|done]. intros e. split; [intros [= ->]; by left|].
      intros [[= ->]|(r & [=] & _)]. done. }
  destruct (raise_for_status r) as [[]|e1] eqn:Hst; simpl.
  2:{ split; [|done]. intros e. split.
      - intros [= ->]. right. exists r. auto.
      - intros [[=]|(r' & [= <-] & [Hr|[Hr _]])]; congruence. }
  destruct (summary (content r)) as [html|e2] eqn:Hsum; simpl.
  2:{ split; [|done]. intros e. split.
      - intros [= ->]. right. exists r. auto.
      - intros [[=]|(r' & [= <-] & [Hr|[_ Hr]])]; congruence. }
  split.
  - intros e. split.
    + by case_bool_decide.
    + intros [[=]|(r' & [= <-] & [Hr|[_ Hr]])]; congruence.
  - intros text Htext. exists r, html. split_and!; [done..|].
    case_bool_decide; injection Htext as <-; [left|right]; split; done || lia.
Qed.

(** X24.  The two cache files do not interfere: persisting one mapping
    changes nothing about what the other store loads, the two writes
    commute, and a write replaces what an earlier write of the same store
    left. *)
Theorem cache_stores_independent `{!Json} (fs : filesystem)
    (c c' : Dict.t string) (k : Dict.t Keywords) :
  load_keywords_cache (update_content_cache c fs) = load_keywords_cache fs ∧
  load_content_cache (update_keywords_cache k fs) = load_content_cache fs ∧
  (∀ path,
     Dict.get (update_keywords_cache k (update_content_cache c fs)) path
     = Dict.get (update_content_cache c (update_keywords_cache k fs)) path) ∧
  (∀ path,
     Dict.get (update_content_cache c (update_content_cache c' fs)) path
     = Dict.get (update_content_cache c fs) path).
Proof.
  unfold load_keywords_cache, load_content_cache, update_content_cache,
    update_keywords_cache, load_cache, update_cache.
  split_and!.
  - by rewrite get_set_ne.
  - by rewrite get_set_ne.
  - intros path. rewrite !get_set. by repeat case_decide; simplify_eq.
  - intros path. rewrite !get_set. by repeat case_decide.
Qed.

(** ** The writers of the shared mappings *)

Section writers.
Context `{!Web, !Extractor, !Json}.
Implicit Types (st : pool) (sh : caches) (ts : list task) (a : action).

(** The loop of lines 141-148 changes the mappings only when a task
    among the pairs has failed. *)
Lemma poll_results_changed ts rs : ∀ sh,
  foldl (poll_result ts) sh rs ≠ sh → ∃ key, failed_in ts rs key.
Proof.
  induction rs as [|r rs IH]; intros sh Hne; simpl in Hne; [done|].
  destruct (poll_result_cases ts sh r) as [[Heq _]|[_ Hf]].
  - rewrite Heq in Hne. destruct (IH sh Hne) as [key Hkey].
    exists key. by apply failed_in_cons.
  - exists r.2. destruct Hf as (k & t & e & Hin & Ht & He).
    exists k, t, e. split; [|done].
    apply list_elem_of_singleton in Hin. rewrite Hin. left.
Qed.

(** A step of [process_link] changes the mappings in two places only:
    line 111 on a proxy of the content cache, line 114 on a proxy of the
    keyword cache. *)
Lemma process_link_changed sh t :
  (process_link sh t).1.1 ≠ sh →
  (t_pc t = AtFetch ∧
   ∃ d text, contents sh = ManagerDict d ∧
     get_content (t_link t) = Ok text ∧
     (process_link sh t).1.1
     = {| contents := ManagerDict (Dict.set d (t_link t) text);
          keywords := keywords sh |}) ∨
  (∃ kws d, t_pc t = AtStore kws ∧ keywords sh = ManagerDict d ∧
     (process_link sh t).1.1
     = {| contents := contents sh;
          keywords := ManagerDict (Dict.set d (t_link t) kws) |}).
Proof.
  destruct sh as [c k]. unfold process_link.
  destruct (t_pc t) as [| | | |kws| |e] eqn:Hpc; cbn [contents keywords].
  - by destruct (Dict.mem _ _).
  - destruct (get_content (t_link t)) as [text|e] eqn:Hget; [|done].
    destruct c as [d|d]; simpl; [done|].
    intros _. left. split; [done|]. by exists d, text.
  - by destruct (Dict.mem _ _).
  - destruct (Dict.get _ _) as [text|]; [|done].
    by destruct (get_keywords text).
  - destruct k as [d|d]; simpl; [done|].
    intros _. right. by exists kws, d.
  - done.
  - done.
Qed.
(** C8.  The dispatcher is not the only writer.  A step of a run that
    changes the two mappings is one of three: the dispatcher, in the loop
    of lines 141-148, stores the sentinels of failed tasks; the worker of
    a task stores the text it has just fetched, under the link of its
    task, in the shared dictionary of the content proxy (line 111); or it
    stores the keywords it has just extracted, under that link, in the
    shared dictionary of the keyword proxy (line 114).  When both
    mappings are plain dictionaries only the dispatcher changes them. *)
Theorem shared_mapping_writers (st : pool) (a : action) :
  shared (step st a) ≠ shared st →
  ((a = Dispatcher ∧ control st = AtWhile ∧
    shared (step st a)
    = foldl (poll_result (tasks st)) (shared st) (results st) ∧
    ∃ key, failed_in (tasks st) (results st) key) ∨
   (∃ k t, a = Worker k ∧ tasks st !! k = Some t ∧
      ((t_pc t = AtFetch ∧
        ∃ d text, contents (shared st) = ManagerDict d ∧
          get_content (t_link t) = Ok text ∧
          shared (step st a)
          = {| contents := ManagerDict (Dict.set d (t_link t) text);
               keywords := keywords (shared st) |}) ∨
       (∃ kws d, t_pc t = AtStore kws ∧
          keywords (shared st) = ManagerDict d ∧
          shared (step st a)
          = {| contents := contents (shared st);
               keywords := ManagerDict (Dict.set d (t_link t) kws) |})))) ∧
  (is_proxy (contents (shared st)) = false →
   is_proxy (keywords (shared st)) = false → a = Dispatcher).
Proof.
  intros Hne.
  assert (Hwho :
    (a = Dispatcher ∧ control st = AtWhile ∧
     shared (step st a)
     = foldl (poll_result (tasks st)) (shared st) (results st) ∧
     ∃ key, failed_in (tasks st) (results st) key) ∨
    (∃ k t, a = Worker k ∧ tasks st !! k = Some t ∧
       ((t_pc t = AtFetch ∧
         ∃ d text, contents (shared st) = ManagerDict d ∧
           get_content (t_link t) = Ok text ∧
           shared (step st a)
           = {| contents := ManagerDict (Dict.set d (t_link t) text);
                keywords := keywords (shared st) |}) ∨
        (∃ kws d, t_pc t = AtStore kws ∧
           keywords (shared st) = ManagerDict d ∧
           shared (step st a)
           = {| contents := contents (shared st);
                keywords := ManagerDict (Dict.set d (t_link t) kws) |})))).
  { destruct a as [k|]; cbn [step] in *.
    - right. destruct (tasks st !! k) as [t|] eqn:Ht.
      + rewrite (worker_step_unfold k st t Ht) in *. cbn [shared] in *.
        exists k, t. split_and!; [done..|]. by apply process_link_changed.
      + unfold worker_step in Hne. by rewrite Ht in Hne.
    - left. unfold dispatcher_step in *.
      destruct (control st) eqn:Hc; [|done..].
      destruct (results st) as [|r rs] eqn:Hrs; [done|].
      cbn [shared] in *. split_and!; [done..|].
      by apply (poll_results_changed (tasks st) (r :: rs) (shared st)). }
  split; [done|]. intros Hc Hk.
  destruct Hwho as [[-> _]|(k & t & _ & _ & [(_ & d & text & Hd & _)
                                            |(kws & d & _ & Hd & _)])];
    [done| |].
  - by rewrite Hd in Hc.
  - by rewrite Hd in Hk.
Qed.
End writers.

Lemma shared_mapping_writers_witness :
  (t_pc <$> tasks fetching !! 1) = Some AtFetch ∧
  shared (@step demo_web demo_extractor demo_json fetching (Worker 1))
  = {| contents := ManagerDict [("https://a.com/short", "Short")];
       keywords := ManagerDict [] |}.
Proof.
  destruct (@shared_mapping_writers demo_web demo_extractor demo_json
              fetching (Worker 1)) as [Hwho _].
  { vm_compute. discriminate. }
  destruct Hwho as [[[=] _]|(k & t & [= <-] & Ht & Hwrite)].
  vm_compute in Ht. injection Ht as <-.
  destruct Hwrite as [(_ & d & text & Hd & Hget & ->)|(kws & d & [=] & _)].
  vm_compute in Hd. injection Hd as <-.
  vm_compute in Hget. injection Hget as <-.
  split; reflexivity.
Defined.

(** ** Cache hits *)

Section short_circuit.
Context `{!Web, !Extractor, !Json}.

(** C3.  A link with an entry in the content cache is not fetched, and a
    link with an entry in the keyword cache has no keywords extracted.
    For a task: when the test of line 110 finds the link in the content
    mapping it sees, the task goes on to the test of line 113 at once, and
    when that test finds the link in the keyword mapping, the task
    returns; neither step calls an extractor or changes a mapping.  For
    lines 110-114 run in sequence: with an entry in the content
    dictionary there is no fetch and the dictionary stays as it is, and
    likewise for the keywords.  For a run, whatever the schedule: a link
    of the loaded content cache is never fetched, a link of the loaded
    keyword cache never has keywords extracted, and a run on a warm cache,
    one that has both entries for every submitted link, fetches and
    extracts nothing. *)
Theorem cache_hit_short_circuits (parsed_links : Dict.t string)
    (fs : filesystem) (schedule : list action) (st0 : pool) :
  process_links_start parsed_links fs = Ok st0 →
  let c0 := dict_of (contents (shared st0)) in
  let k0 := dict_of (keywords (shared st0)) in
  let st := run st0 schedule in
  (∀ sh t, t_pc t = AtContentCheck →
     t_link t ∈ Dict.keys (view (contents sh) (t_contents t)) →
     process_link sh t = (sh, at_pc t AtKeywordCheck, [])) ∧
  (∀ sh t, t_pc t = AtKeywordCheck →
     t_link t ∈ Dict.keys (view (keywords sh) (t_keywords t)) →
     process_link sh t = (sh, at_pc t Returned, [])) ∧
  (∀ c k link,
     let out := process_link_seq c k link in
     (link ∈ Dict.keys c → (Fetch link ∉ out.2) ∧ out.1.1.1 = c) ∧
     (link ∈ Dict.keys k → (Extract link ∉ out.2) ∧ out.1.1.2 = k) ∧
     (link ∈ Dict.keys c → link ∈ Dict.keys k → out = (c, k, Ok (), []))) ∧
  (∀ link, link ∈ Dict.keys c0 → Fetch link ∉ log st) ∧
  (∀ link, link ∈ Dict.keys k0 → Extract link ∉ log st) ∧
  ((∀ link, link ∈ parsed_links.*2 →
      link ∈ Dict.keys c0 ∧ link ∈ Dict.keys k0) →
   log st = []).
Proof.
  intros Hstart c0 k0 st.
  destruct (run_hits_cache _ _ _ schedule Hstart) as (_ & Hfetch & Hextract).
  fold c0 k0 st in Hfetch, Hextract. split_and!.
  - intros sh t Hpc Hin. apply mem_true in Hin.
    unfold process_link. by rewrite Hpc, Hin.
  - intros sh t Hpc Hin. apply mem_true in Hin.
    unfold process_link. by rewrite Hpc, Hin.
  - intros c k link out. unfold out, process_link_seq. split_and!.
    + intros Hin. apply mem_true in Hin. rewrite Hin.
      destruct (Dict.mem k link); [split; [apply not_elem_of_nil|done]|].
      destruct (Dict.get c link) as [text|];
        [|split; [apply not_elem_of_nil|done]].
      destruct (get_keywords text); simpl;
        (split; [|done]); by intros [=]%list_elem_of_singleton.
    + intros Hin. apply mem_true in Hin.
      destruct (Dict.mem c link).
      * rewrite Hin. split; [apply not_elem_of_nil|done].
      * destruct (get_content link) as [text|e]; simpl.
        -- rewrite Hin. simpl. split; [|done].
           by intros [=]%list_elem_of_singleton.
        -- split; [|done]. by intros [=]%list_elem_of_singleton.
    + intros Hc Hk. apply mem_true in Hc, Hk. by rewrite Hc, Hk.
  - intros link Hin Hlog. by apply Hfetch in Hlog as [? _].
  - intros link Hin Hlog. by apply Hextract in Hlog as [? _].
  - intros Hwarm. destruct (log st) as [|ev evs] eqn:Hlog; [done|].
    exfalso. destruct ev as [link|link].
    + destruct (Hfetch link) as [Hni Hin]; [left|]. by apply Hni, Hwarm.
    + destruct (Hextract link) as [Hni Hin]; [left|]. by apply Hni, Hwarm.
Qed.
End short_circuit.

Lemma cache_hit_short_circuits_witness :
  log (@run demo_web demo_extractor demo_json full_start one_schedule) = [].
Proof.
  refine (proj2 (proj2 (proj2 (proj2 (proj2
            (@cache_hit_short_circuits demo_web demo_extractor demo_json
               one_link full_disk one_schedule full_start _))))) _).
  - reflexivity.
  - intros link Hin. apply list_elem_of_singleton in Hin. rewrite Hin.
    split; vm_compute; left.
Defined.

(** ** The loaded keyword cache in what is returned *)

Section loaded_values.
Context `{!Web, !Extractor, !Json}.
Implicit Types (st : pool) (sh : caches) (t : task) (a : action).

Lemma process_link_to_store sh t kws :
  t_pc (process_link sh t).1.2 = AtStore kws → t_pc t = AtExtract.
Proof. step_cases sh t; try done; congruence. Qed.

(** An entry of the loaded keyword cache keeps its value through a run,
    or gives way to the sentinel of a submitted link. *)
Lemma run_keeps_values parsed_links fs st0 schedule :
  process_links_start parsed_links fs = Ok st0 →
  ∀ key kws, Dict.get (dict_of (keywords (shared st0))) key = Some kws →
    Dict.get (dict_of (keywords (shared (run st0 schedule)))) key = Some kws ∨
    Dict.get (dict_of (keywords (shared (run st0 schedule)))) key = Some ERROR
    ∧ key ∈ parsed_links.*2.
Proof.
  intros Hstart.
  set (c0 := dict_of (contents (shared st0))).
  set (k0 := dict_of (keywords (shared st0))).
  pose (P := λ st : pool,
    tasks_of (parsed_links.*2) st ∧ hits_cache (parsed_links.*2) c0 k0 st ∧
    (∀ k t kws, tasks st !! k = Some t → t_pc t = AtStore kws →
       t_link t ∉ Dict.keys k0) ∧
    ∀ key kws, Dict.get k0 key = Some kws →
      Dict.get (dict_of (keywords (shared st))) key = Some kws ∨
      Dict.get (dict_of (keywords (shared st))) key = Some ERROR
      ∧ key ∈ parsed_links.*2).
  assert (HP : P (run st0 schedule)); [|intros key kws Hk; by apply HP].
  apply run_invariant.
  - split_and!; [by eapply start_tasks_of | by eapply start_hits_cache | |].
    + intros k t kws Ht Hpc.
      apply process_links_start_inv in Hstart as (_ & _ & Hts & _).
      rewrite Hts, list_lookup_fmap in Ht.
      destruct (parsed_links.*2 !! k); simplify_eq/=.
    + intros key kws Hk. by left.
  - intros st a (Hwf & Hhit & Hstore & Hval).
    split_and!; [by apply step_tasks_of | by apply step_hits_cache | |].
    + destruct a as [j|]; cbn [step].
      * destruct (tasks st !! j) as [tj|] eqn:Hj;
          [|unfold worker_step; by rewrite Hj].
        rewrite (worker_step_unfold j st tj Hj). cbn [tasks].
        intros k t kws Ht Hpc.
        apply list_lookup_insert_Some in Ht as [(<- & <- & _)|(Hne & Ht)].
        -- rewrite process_link_link. apply process_link_to_store in Hpc.
           destruct Hhit as (Htasks & _).
           destruct (Htasks j tj Hj) as (_ & _ & _ & Hx). by apply Hx.
        -- by eapply Hstore.
      * rewrite dispatcher_step_tasks. apply Hstore.
    + intros key kws Hk. specialize (Hval key kws Hk).
      destruct a as [j|]; cbn [step].
      * destruct (tasks st !! j) as [tj|] eqn:Hj;
          [|unfold worker_step; by rewrite Hj].
        rewrite (worker_step_unfold j st tj Hj). cbn [shared].
        destruct (process_link_writes (shared st) tj key)
          as [_ [Heq|(-> & _ & kws' & Hpc & _)]].
        -- by rewrite Heq.
        -- exfalso. eapply Hstore; [done..|]. by eapply get_Some_keys.
      * pose proof (dispatcher_step_writes st key) as Hw. cbv zeta in Hw.
        destruct Hw as [_ [Heq|[Hs Hf]]].
        -- by rewrite Heq.
        -- right. split; [done|]. by eapply failed_in_links.
Qed.
End loaded_values.

Section returned_cache.
Context `{!Web, !Extractor, !Json, !Similarity, !SetOrder, !Report}.

(** C9.  [process_links] returns the whole keyword cache, not its
    restriction to the input.  Every entry of the loaded
    [keywords_cache.txt] is in the returned mapping under its link: with
    its value when the link was not submitted, and with its value or with
    the sentinel of a failed task when it was.  [main] passes that whole
    mapping to [simplify_keywords], whose result has the same links, and
    every link of the loaded cache is a member of the object written to
    [keywords.json]. *)
Theorem loaded_keywords_all_returned (parsed_links : Dict.t string)
    (fs : filesystem) (schedule : list action) (st0 : pool)
    (ret : Dict.t Keywords) :
  process_links_start parsed_links fs = Ok st0 →
  return_value (run st0 schedule) = Some ret →
  let k0 := dict_of (keywords (shared st0)) in
  let final := returned (simplify_keywords ret) in
  load_keywords_cache fs = Ok (keywords (shared st0)) ∧
  (∀ link kws, Dict.get k0 link = Some kws →
     (Dict.get ret link = Some kws ∨
      Dict.get ret link = Some ERROR ∧ link ∈ parsed_links.*2) ∧
     (link ∉ parsed_links.*2 → Dict.get ret link = Some kws) ∧
     is_Some (Dict.get final link)) ∧
  Dict.keys final = Dict.keys ret ∧
  ∃ out members,
    main parsed_links fs schedule = Some out ∧
    Dict.get out.1 "keywords.json" = Some (json_dumps (JObject members)) ∧
    JObject members = encode_dict final ∧
    ∀ link, link ∈ Dict.keys k0 → link ∈ members.*1.
Proof.
  intros Hstart Hret k0 final.
  pose proof (run_keeps_values _ _ _ schedule Hstart) as Hval.
  assert (Hret' : ret = dict_of (keywords (shared (run st0 schedule)))).
  { destruct (run_flushed _ _ _ schedule Hstart) as (_ & _ & Hfin).
    unfold return_value in Hret.
    destruct (control (run st0 schedule)) as [| |ret'] eqn:Hc; simplify_eq.
    by destruct (Hfin ret eq_refl) as (_ & ? & _). }
  rewrite <- Hret' in Hval. fold k0 in Hval.
  assert (Hkeys : Dict.keys final = Dict.keys ret)
    by apply simplify_keywords_keys.
  assert (Hin : ∀ link, link ∈ Dict.keys k0 → link ∈ Dict.keys ret).
  { intros link [kws Hk]%keys_get_is_Some.
    destruct (Hval link kws Hk) as [Hg|[Hg _]]; by eapply get_Some_keys. }
  split_and!.
  - by apply process_links_start_inv in Hstart as (_ & ? & _).
  - intros link kws Hk. split_and!.
    + by apply Hval.
    + intros Hni. by destruct (Hval link kws Hk) as [Hg|[_ Hs]].
    + apply keys_get_is_Some. rewrite Hkeys. apply Hin.
      by eapply get_Some_keys.
  - done.
  - destruct (encode_dict_keys final) as (members & Henc & Hperm).
    unfold main. rewrite Hstart. unfold return_value in Hret.
    destruct (control (run st0 schedule)) as [| |ret''] eqn:Hc; simplify_eq.
    fold final. rewrite Henc.
    assert (Hmem : ∀ link, link ∈ Dict.keys k0 → link ∈ members.*1).
    { intros link Hl. rewrite Hperm, Hkeys. auto. }
    destruct (group_links_by_domain parsed_links) as [domains|e].
    + eexists _, members. split_and!; [done| |done..]. simpl.
      rewrite get_set_ne by done. apply get_set_eq.
    + eexists _, members. split_and!; [done| |done..]. simpl.
      apply get_set_eq.
Qed.
End returned_cache.

Lemma loaded_keywords_all_returned_witness :
  Dict.get old_return "https://old.org/" = Some [].
Proof.
  refine (proj1 (proj2 (proj1 (proj2
            (@loaded_keywords_all_returned demo_web demo_extractor demo_json
               indel_similarity remove_dups_order demo_report
               demo_parsed_links old_disk demo_schedule old_start old_return
               _ _)) "https://old.org/" [] _)) _).
  - vm_compute. reflexivity.
  - vm_compute. reflexivity.
  - vm_compute. reflexivity.
  - by apply (bool_decide_unpack _).
Defined.

(** ** A failed task in a whole run *)

Section failed_task.
Context `{!Web, !Extractor, !Json, !Similarity, !SetOrder}.

End failed_task.



